(** * GhostTube download engine

    A shallow embedding of the download job engine of GhostTube:

    - [V3]: [fastapi-ghosttube-v-3.py], the Tor-backed engine with the shared
      rate limiter, the per-item retry loop, the bounded worker pool, the
      four search methods, the management of the Tor circuit and the HTTP
      endpoints;
    - [V4]: [GT-v4-fastapi.py], the engine without Tor, with its playlist
      and channel listings.

    Python values are modelled as follows.  A [str] is the list of its code
    points, an [int] is a [Z] (a [nat] where the program only counts up from
    zero), a [float] is a binary64 primitive float, a [dict] used as a map is
    a [gmap].  Everything the program learns from outside (the clock, the
    external media tool, the search back-ends, the scheduling of the pool
    threads) is read from an explicit environment.  Log lines, and the
    names of the output directories, are not modelled.

    The embedding comes first, then example environments, the registry
    of jobs as the requests and the workers of a running server change it,
    and the vocabulary of the theorems, then the theorems. *)

From Stdlib Require Import ZArith NArith Floats Uint63 List String Ascii.
From Stdlib Require Import DecimalString Lia Permutation.
From stdpp Require Import gmap strings list.

(** ** Python strings, integers and floats *)

Abbreviation pystr := (list N) (only parsing).

(** An ASCII literal as a Python string. *)
Definition lit (s : string) : pystr :=
  map N_of_ascii (list_ascii_of_string s).

(** [str(n)] for a non-negative integer, as f-strings print it. *)
Definition show (n : nat) : pystr :=
  lit (NilEmpty.string_of_uint (Nat.to_uint n)).

Fixpoint starts_with (needle hay : pystr) : bool :=
  match needle, hay with
  | [], _ => true
  | _ :: _, [] => false
  | a :: needle', b :: hay' => N.eqb a b && starts_with needle' hay'
  end.

(** [needle in hay]. *)
Fixpoint contains (needle hay : pystr) : bool :=
  starts_with needle hay ||
  match hay with
  | [] => false
  | _ :: hay' => contains needle hay'
  end.

(** [l[:n]], with Python's meaning of a negative bound. *)
Definition slice_to {A} (n : Z) (l : list A) : list A :=
  if (0 <=? n)%Z then take (Z.to_nat n) l
  else take (length l - Z.to_nat (- n)) l.

(** [str.isspace] on one code point; [\s] of [re] on a [str] pattern and
    [str.strip] use the same set. *)
Definition is_space (c : N) : bool :=
  ((9 <=? c) && (c <=? 13) || (28 <=? c) && (c <=? 32) ||
   (c =? 133) || (c =? 160) || (c =? 5760) ||
   (8192 <=? c) && (c <=? 8202) ||
   (c =? 8232) || (c =? 8233) || (c =? 8239) || (c =? 8287) ||
   (c =? 12288))%N.

Fixpoint lstrip (s : pystr) : pystr :=
  match s with
  | [] => []
  | c :: s' => if is_space c then lstrip s' else s
  end.

Definition strip (s : pystr) : pystr :=
  reverse (lstrip (reverse (lstrip s))).

(** [float(z)]; exact below 2^53, which covers every count and constant of
    the program. *)
Definition float_of_Z (z : Z) : float :=
  if (z <? 0)%Z then PrimFloat.opp (PrimFloat.of_uint63 (Uint63.of_Z (- z)))
  else PrimFloat.of_uint63 (Uint63.of_Z z).

(** [int(f)]: truncation towards zero of a finite float. *)
Definition py_int (f : float) : Z :=
  match Prim2SF f with
  | S754_finite sign m e =>
      let mag := if (0 <=? e)%Z then Z.shiftl (Z.pos m) e
                 else Z.shiftr (Z.pos m) (- e) in
      if sign then (- mag)%Z else mag
  | _ => 0%Z
  end.

(** ** A state and exception monad

    [M S A] is a computation over a state [S] that returns an [A] or raises
    a Python exception, of which only [str(e)] is kept.  The state survives
    a raise, as the writes of a Python function do. *)

Definition M (S A : Type) : Type := S -> (pystr + A) * S.

Definition ret {S A} (a : A) : M S A := fun s => (inr a, s).

Definition raise {S A} (e : pystr) : M S A := fun s => (inl e, s).

Definition bind {S A B} (m : M S A) (k : A -> M S B) : M S B :=
  fun s =>
    match m s with
    | (inr a, s') => k a s'
    | (inl e, s') => (inl e, s')
    end.

(** A value or exception computed outside the monad. *)
Definition of_sum {S A} (r : pystr + A) : M S A := fun s => (r, s).

Definition get {S} : M S S := fun s => (inr s, s).

Definition modify {S} (f : S -> S) : M S unit := fun s => (inr tt, f s).

(** [try: m except Exception as e: h(e)]. *)
Definition try_except {S A} (m : M S A) (h : pystr -> M S A) : M S A :=
  fun s =>
    match m s with
    | (inr a, s') => (inr a, s')
    | (inl e, s') => h e s'
    end.

Declare Scope py_scope.
Delimit Scope py_scope with py.
Notation "'let!' x ':=' m 'in' k" := (bind m (fun x => k))
  (at level 10, x pattern, m at level 100, k at level 200) : py_scope.
Notation "m ;; k" := (bind m (fun _ => k))
  (at level 100, k at level 200, right associativity) : py_scope.


(** ** [concurrent.futures.ThreadPoolExecutor]

    The executor is library code.  It is modelled by its contract: a call
    that is submitted waits in a queue, a queued call starts only while
    fewer than [max_workers] calls are running, and a running call
    finishes at some point. *)

Record Pool := {
  max_workers : Z;
  queued : list nat;
  running : list nat;
  finished : list nat;
}.

Definition new_pool (max_workers : Z) : Pool :=
  {| max_workers := max_workers; queued := []; running := []; finished := [] |}.

Inductive pool_step : Pool -> Pool -> Prop :=
| pool_submit p i :
    pool_step p
      {| max_workers := max_workers p; queued := queued p ++ [i];
         running := running p; finished := finished p |}
| pool_start p i waiting :
    queued p = i :: waiting ->
    (Z.of_nat (length (running p)) < max_workers p)%Z ->
    pool_step p
      {| max_workers := max_workers p; queued := waiting;
         running := i :: running p; finished := finished p |}
| pool_finish p i before after :
    running p = before ++ i :: after ->
    pool_step p
      {| max_workers := max_workers p; queued := queued p;
         running := before ++ after; finished := i :: finished p |}.

(** The states an executor created with [max_workers] can be in. *)
Inductive pool_reachable (max_workers : Z) : Pool -> Prop :=
| pool_reachable_new : pool_reachable max_workers (new_pool max_workers)
| pool_reachable_step p p' :
    pool_reachable max_workers p -> pool_step p p' ->
    pool_reachable max_workers p'.

(** ** More of [str], [re] and [subprocess] *)

(** [s.split(sep)] for a separator of one character: never an empty list. *)
Fixpoint split_char (sep : N) (s : pystr) : list pystr :=
  match s with
  | [] => [[]]
  | c :: s' =>
      if N.eqb c sep then [] :: split_char sep s'
      else
        match split_char sep s' with
        | piece :: pieces => (c :: piece) :: pieces
        | [] => [[c]]
        end
  end.

(** [hay.endswith(needle)]. *)
Definition ends_with (needle hay : pystr) : bool :=
  starts_with (reverse needle) (reverse hay).

(** The longest prefix of [s] made of characters that pass [p]: what a
    greedy [[...]*] takes. *)
Fixpoint run (p : N -> bool) (s : pystr) : pystr :=
  match s with
  | c :: s' => if p c then c :: run p s' else []
  | [] => []
  end.

(** [s] without the prefix [p], when it starts with [p]. *)
Definition strip_prefix (p s : pystr) : option pystr :=
  if starts_with p s then Some (drop (length p) s) else None.

(** [re.findall] of a pattern with one group.  [match_at s] is the match of
    the pattern at the start of [s]: the group and the length of the whole
    match, which is not zero for the patterns of the program.  The scan
    resumes behind a match; [skip] counts the characters of the last match
    still to pass. *)
Fixpoint re_findall (match_at : pystr -> option (pystr * nat)) (skip : nat)
    (s : pystr) : list pystr :=
  match s with
  | [] => []
  | _ :: s' =>
      match skip with
      | S skip' => re_findall match_at skip' s'
      | 0 =>
          match match_at s with
          | Some (group, len) => group :: re_findall match_at (len - 1) s'
          | None => re_findall match_at 0 s'
          end
      end
  end.

(** [re.search]: the leftmost match. *)
Fixpoint re_search {A} (match_at : pystr -> option A) (s : pystr) : option A :=
  match match_at s with
  | Some m => Some m
  | None =>
      match s with
      | [] => None
      | _ :: s' => re_search match_at s'
      end
  end.

(** What [subprocess.run(..., capture_output=True, text=True)] returns. *)
Module CompletedProcess.
Record t := {
  returncode : Z;
  stdout : pystr;
  stderr : pystr;
}.
End CompletedProcess.
(** * The Tor-backed engine, [fastapi-ghosttube-v-3.py] *)

Module V3.

Local Open Scope py_scope.

(** ** Constants *)

Definition MAX_CONCURRENT_DOWNLOADS : Z := 3.
Definition MAX_RETRIES : nat := 3.
Definition INITIAL_BACKOFF : Z := 2.
Definition MAX_BACKOFF : Z := 60.
Definition RATE_LIMIT_THRESHOLD : nat := 3.

(** ** Utilities *)

(** The character class of the first [re.sub] of [sanitize_name]: less-than,
    greater-than, colon, double quote (code point 34), slash, backslash,
    bar, question mark, star, newline, carriage return and tab. *)
Definition removed_class : pystr :=
  lit "<>:" ++ [34%N] ++ lit "/\|?*" ++ [10%N; 13%N; 9%N].

Definition in_class (class : pystr) (c : N) : bool :=
  existsb (N.eqb c) class.

(** [re.sub(r'\s+', '_', s)]: every maximal run of whitespace becomes one
    underscore.  [in_run] tells that the previous character was whitespace. *)
Fixpoint sub_whitespace_runs (in_run : bool) (s : pystr) : pystr :=
  match s with
  | [] => []
  | c :: s' =>
      if is_space c then
        if in_run then sub_whitespace_runs true s'
        else lit "_" ++ sub_whitespace_runs true s'
      else c :: sub_whitespace_runs false s'
  end.

Definition sanitize_name (s : pystr) (max_len : Z) : pystr :=
  let s := List.filter (fun c => negb (in_class removed_class c)) s in
  let s := sub_whitespace_runs false (strip s) in
  match s with
  | [] => lit "search_results"
  | _ :: _ => slice_to max_len s
  end.

(** The default of [max_len]. *)
Definition sanitize_name_default_max_len : Z := 80.

(** ** Rate limit and circuit breaker *)

(** The counter starts at 0 and is only ever incremented or put back to 0:
    it is a natural number. *)
Record RateLimitTracker := {
  consecutive_429s : nat;
  last_429_time : float;
  backoff_until : float;
  ip_rotation_needed : bool;
}.

(** The tracker the module creates at import time. *)
Definition RateLimitTracker_default : RateLimitTracker :=
  {| consecutive_429s := 0; last_429_time := 0%float;
     backoff_until := 0%float; ip_rotation_needed := false |}.

(** [record_429] reads the clock twice: [t1] stamps the throttle, [t2] is
    the base of the deadline. *)
Definition record_429 (t1 t2 : float) (self : RateLimitTracker)
  : RateLimitTracker :=
  let count := S (consecutive_429s self) in
  let rotation :=
    if RATE_LIMIT_THRESHOLD <=? count then true
    else ip_rotation_needed self in
  let backoff :=
    Z.min (INITIAL_BACKOFF * 2 ^ (Z.of_nat count - 1)) MAX_BACKOFF in
  {| consecutive_429s := count;
     last_429_time := t1;
     backoff_until := (t2 + float_of_Z backoff)%float;
     ip_rotation_needed := rotation |}.

Definition record_success (self : RateLimitTracker) : RateLimitTracker :=
  {| consecutive_429s := 0;
     last_429_time := last_429_time self;
     backoff_until := backoff_until self;
     ip_rotation_needed := false |}.

(** [should_wait] needs the clock of the calling thread and is defined with
    [download_video] below. *)

(** ** Data models *)

Inductive AudioFormat := MP3 | AAC | FLAC | WAV | OGG | OPUS | M4A.

Definition AudioFormat_value (f : AudioFormat) : pystr :=
  match f with
  | MP3 => lit "mp3" | AAC => lit "aac" | FLAC => lit "flac"
  | WAV => lit "wav" | OGG => lit "ogg" | OPUS => lit "opus"
  | M4A => lit "m4a"
  end.

Module DownloadRequest.
Record t := {
  query : pystr;
  audio : bool;
  video : bool;
  transcripts : bool;
  format : AudioFormat;
  max_results : Z;
  concurrent_downloads : Z;
  is_url : bool;
  urls : option (list pystr);
}.

(** The [Field] constraints pydantic enforces before a handler runs. *)
Definition valid (req : t) : bool :=
  (1 <=? length (query req)) && (length (query req) <=? 500) &&
  (1 <=? max_results req)%Z && (max_results req <=? 100)%Z &&
  (1 <=? concurrent_downloads req)%Z && (concurrent_downloads req <=? 10)%Z.
End DownloadRequest.

Module DownloadResult.
Record t := {
  url : pystr;
  title : pystr;
  status : pystr;            (* 'success', 'failed', 'skipped' *)
  error : option pystr;
  duration : float;
  size_mb : float;
  retries : nat;
  ip : pystr;
  timestamp : pystr;
}.
End DownloadResult.

(** ** Download with retry

    [download_video] runs in a pool thread.  Its state is the shared
    tracker as this thread sees it, the number of clock reads so far and the
    trace of what the thread did. *)

Inductive Event :=
| EvAttempt (attempt : nat)     (* the [try] block of one iteration starts *)
| EvSleep (seconds : float).    (* [time.sleep] *)

Record DvState := {
  limiter : RateLimitTracker;
  ticks : nat;
  trace : list Event;           (* newest first *)
}.

(** What [e.stderr] holds: nothing, bytes that decode to a text, or bytes
    whose [decode()] raises. *)
Inductive Stderr :=
| StderrEmpty
| StderrText (text : pystr)
| StderrUndecodable (str_e : pystr).

(** The exceptions the three [except] clauses tell apart. *)
Inductive Raised :=
| CalledProcessError (stderr : Stderr) (str_e : pystr)
| TimeoutExpired
| OtherException (str_e : pystr).

(** The outside world during one iteration of the retry loop.  [others_*]
    are the writes of the other pool threads to the shared tracker, which
    no lock guards: while this thread sleeps, while it waits for the tool,
    and, after a success, while it sums the file sizes and asks for the
    address of the exit node before it returns.  They are the identity when
    the item runs alone.  The methods of the tracker are taken as atomic,
    and so is [record_429()] together with the read of the rotation flag
    that follows it. *)
Record AttemptEnv := {
  others_waiting : RateLimitTracker -> RateLimitTracker;
  run_audio : option Raised;    (* [mkdir] and [subprocess.run] of the audio *)
  run_video : option Raised;    (* the same for the video *)
  run_transcripts : option Raised;  (* the same for the transcript *)
  others_running : RateLimitTracker -> RateLimitTracker;
  audio_size : pystr + float;   (* the [sum] over [audio_dir.glob] *)
  tor_ip : pystr;               (* [get_tor_ip()] *)
  others_returning : RateLimitTracker -> RateLimitTracker;
}.

Record ItemEnv := {
  clock : nat -> float;         (* the successive values of [time.time()] *)
  video_title : pystr;          (* [get_video_title(url)] *)
  attempt_env : nat -> AttemptEnv;
  now_iso : pystr;              (* [datetime.now().isoformat()] *)
}.

Definition now (env : ItemEnv) : M DvState float :=
  fun s =>
    (inr (clock env (ticks s)),
     {| limiter := limiter s; ticks := S (ticks s); trace := trace s |}).

Definition emit (ev : Event) : M DvState unit :=
  modify (fun s =>
    {| limiter := limiter s; ticks := ticks s; trace := ev :: trace s |}).

Definition update_limiter (f : RateLimitTracker -> RateLimitTracker)
  : M DvState unit :=
  modify (fun s =>
    {| limiter := f (limiter s); ticks := ticks s; trace := trace s |}).

(** [time.sleep] refuses a negative duration. *)
Definition sleep (seconds : float) : M DvState unit :=
  if (seconds <? 0)%float
  then raise (lit "sleep length must be non-negative")
  else emit (EvSleep seconds).

(** [rate_limiter.should_wait()]: one clock read for the test and, when the
    deadline is ahead, a second one for the duration. *)
Definition should_wait (env : ItemEnv) : M DvState (bool * float) :=
  let! t1 := now env in
  let! s := get in
  if (t1 <? backoff_until (limiter s))%float then
    let! t2 := now env in
    ret (true, (backoff_until (limiter s) - t2)%float)
  else ret (false, 0%float).

(** [rate_limiter.record_429()]. *)
Definition rate_limiter_record_429 (env : ItemEnv) : M DvState unit :=
  let! t1 := now env in
  let! t2 := now env in
  update_limiter (record_429 t1 t2).

(** The three [subprocess.run] calls of the [try] block, each behind its
    flag: the first exception ends the block. *)
Definition run_tool (audio video transcripts : bool) (a : AttemptEnv)
  : option Raised :=
  match (if audio then run_audio a else None) with
  | Some e => Some e
  | None =>
      match (if video then run_video a else None) with
      | Some e => Some e
      | None => if transcripts then run_transcripts a else None
      end
  end.

Definition is_429 (error_msg : pystr) : bool :=
  contains (lit "429") error_msg || contains (lit "Too Many Requests") error_msg.

Definition is_unavailable (error_msg : pystr) : bool :=
  existsb (fun x => contains x error_msg)
    [lit "Video unavailable"; lit "not available"].

Definition is_age_restricted (error_msg : pystr) : bool :=
  existsb (fun x => contains x error_msg) [lit "age-restricted"; lit "Sign in"].

(** [time.sleep(INITIAL_BACKOFF * (2 ** attempt))]. *)
Definition retry_sleep (attempt : nat) : M DvState unit :=
  sleep (float_of_Z (INITIAL_BACKOFF * 2 ^ Z.of_nat attempt)).

(** The start of an iteration, before its [try] block: the rate limiting
    backoff. *)
Definition before_attempt (env : ItemEnv) (attempt : nat) : M DvState unit :=
  update_limiter (others_waiting (attempt_env env attempt)) ;;
  let! w := should_wait env in
  if w.1 then sleep w.2 else ret tt.

(** [e.stderr.decode() if e.stderr else str(e)]: the text, or the
    exception [decode] raises. *)
Definition error_message (stderr : Stderr) (str_e : pystr) : pystr + pystr :=
  match stderr with
  | StderrText text => inr text
  | StderrEmpty => inr str_e
  | StderrUndecodable decode_error => inl decode_error
  end.

Section download_video.
Variables (env : ItemEnv) (url : pystr) (audio video transcripts : bool).
Variable start_time : float.

Definition title : pystr := video_title env.

Definition failed_result (error : pystr) (retries : nat) (ip : pystr)
  : M DvState DownloadResult.t :=
  let! t := now env in
  ret {| DownloadResult.url := url;
         DownloadResult.title := title;
         DownloadResult.status := lit "failed";
         DownloadResult.error := Some error;
         DownloadResult.duration := (t - start_time)%float;
         DownloadResult.size_mb := 0%float;
         DownloadResult.retries := retries;
         DownloadResult.ip := ip;
         DownloadResult.timestamp := now_iso env |}.

(** The iterations of [for attempt in range(MAX_RETRIES)] still to run,
    then the [return] after the loop. *)
Fixpoint retry_loop (todo : list nat) (retries : nat)
  : M DvState DownloadResult.t :=
  match todo with
  | [] => failed_result (lit "Max retries exceeded") retries []
  | attempt :: todo' =>
      let a := attempt_env env attempt in
      let continue := retry_loop todo' in
      (* [except Exception as e] *)
      let on_exception (str_e : pystr) :=
        let retries := S retries in
        if attempt <? MAX_RETRIES - 1 then
          retry_sleep attempt ;; continue retries
        else failed_result (take 150 str_e) retries [] in
      (* Check rate limiting backoff *)
      before_attempt env attempt ;;
      emit (EvAttempt attempt) ;;
      match run_tool audio video transcripts a with
      | None =>
          update_limiter (others_running a) ;;
          update_limiter record_success ;;
          match (if audio then audio_size a else inr 0%float) with
          | inr size =>
              update_limiter (others_returning a) ;;
              let! t := now env in
              ret {| DownloadResult.url := url;
                     DownloadResult.title := title;
                     DownloadResult.status := lit "success";
                     DownloadResult.error := None;
                     DownloadResult.duration := (t - start_time)%float;
                     DownloadResult.size_mb := size;
                     DownloadResult.retries := retries;
                     DownloadResult.ip := tor_ip a;
                     DownloadResult.timestamp := now_iso env |}
          | inl str_e => on_exception str_e
          end
      | Some (CalledProcessError stderr str_e) =>
          let! error_msg := of_sum (error_message stderr str_e) in
          let retries := S retries in
          (* the tests that follow the 429 test, and the 429 test when it
             falls through *)
          let rest :=
            if is_unavailable error_msg then
              failed_result (lit "Video unavailable") retries []
            else if is_age_restricted error_msg then
              failed_result (lit "Age-restricted (need cookies)") retries []
            else if attempt <? MAX_RETRIES - 1 then
              retry_sleep attempt ;; continue retries
            else failed_result (take 150 error_msg) retries [] in
          (* Detect error type *)
          if is_429 error_msg then
            update_limiter (others_running a) ;;
            rate_limiter_record_429 env ;;
            let! s := get in
            if ip_rotation_needed (limiter s) then
              failed_result (lit "Rate limited - IP rotation needed")
                retries (tor_ip a)
            else if attempt <? MAX_RETRIES - 1 then
              retry_sleep attempt ;; continue retries
            else rest
          else rest
      | Some TimeoutExpired =>
          let retries := S retries in
          if attempt <? MAX_RETRIES - 1 then
            retry_sleep attempt ;; continue retries
          else
            failed_result
              (lit "Timeout - video too large or connection slow")
              retries []
      | Some (OtherException str_e) => on_exception str_e
      end
  end.
End download_video.

Definition download_video (env : ItemEnv) (url : pystr)
    (audio video transcripts : bool) : M DvState DownloadResult.t :=
  let! start_time := now env in
  retry_loop env url audio video transcripts start_time
    (seq 0 MAX_RETRIES) 0.

(** ** Job state *)

Module JobState.
Record t := {
  job_id : pystr;
  query : pystr;
  status : pystr;            (* 'queued', 'downloading', 'complete', 'failed' *)
  progress : Z;
  message : pystr;
  total_videos : nat;
  completed_videos : nat;
  failed_videos : nat;
  start_time : float;
  results : list DownloadResult.t;
}.

(** [JobState(job_id=job_id, query=query, status=status)]; [now] is the
    [time.time()] of the [start_time] default. *)
Definition new (job_id query status : pystr) (now : float) : t :=
  {| job_id := job_id; query := query; status := status; progress := 0;
     message := []; total_videos := 0; completed_videos := 0;
     failed_videos := 0; start_time := now; results := [] |}.

Definition set_status (v : pystr) (j : t) : t :=
  {| job_id := job_id j; query := query j; status := v;
     progress := progress j; message := message j;
     total_videos := total_videos j;
     completed_videos := completed_videos j;
     failed_videos := failed_videos j; start_time := start_time j;
     results := results j |}.

Definition set_progress (v : Z) (j : t) : t :=
  {| job_id := job_id j; query := query j; status := status j;
     progress := v; message := message j;
     total_videos := total_videos j;
     completed_videos := completed_videos j;
     failed_videos := failed_videos j; start_time := start_time j;
     results := results j |}.

Definition set_message (v : pystr) (j : t) : t :=
  {| job_id := job_id j; query := query j; status := status j;
     progress := progress j; message := v;
     total_videos := total_videos j;
     completed_videos := completed_videos j;
     failed_videos := failed_videos j; start_time := start_time j;
     results := results j |}.

Definition set_total_videos (v : nat) (j : t) : t :=
  {| job_id := job_id j; query := query j; status := status j;
     progress := progress j; message := message j;
     total_videos := v;
     completed_videos := completed_videos j;
     failed_videos := failed_videos j; start_time := start_time j;
     results := results j |}.

Definition set_completed_videos (v : nat) (j : t) : t :=
  {| job_id := job_id j; query := query j; status := status j;
     progress := progress j; message := message j;
     total_videos := total_videos j;
     completed_videos := v;
     failed_videos := failed_videos j; start_time := start_time j;
     results := results j |}.

Definition set_failed_videos (v : nat) (j : t) : t :=
  {| job_id := job_id j; query := query j; status := status j;
     progress := progress j; message := message j;
     total_videos := total_videos j;
     completed_videos := completed_videos j;
     failed_videos := v; start_time := start_time j;
     results := results j |}.

Definition set_results (v : list DownloadResult.t) (j : t) : t :=
  {| job_id := job_id j; query := query j; status := status j;
     progress := progress j; message := message j;
     total_videos := total_videos j;
     completed_videos := completed_videos j;
     failed_videos := failed_videos j; start_time := start_time j;
     results := v |}.
End JobState.

(** ** Search *)

(** What each of the four search methods does when it is called: it returns
    a list of URLs or raises. *)
Record SearchEnv := {
  search_ytdlp : pystr + list pystr;
  search_duckduckgo : pystr + list pystr;
  search_youtube_direct : pystr + list pystr;
  search_bing : pystr + list pystr;
}.

(** The [for name, method in methods] loop: the first method that returns a
    non-empty list wins; a method that raises or returns nothing is passed
    over. *)
Fixpoint first_results (methods : list (pystr + list pystr))
  : option (list pystr) :=
  match methods with
  | [] => None
  | inr (u :: us) :: _ => Some (u :: us)
  | _ :: methods' => first_results methods'
  end.

Definition search_youtube {S} (senv : SearchEnv) (max_results : Z)
  : M S (list pystr) :=
  let methods := [search_ytdlp senv; search_duckduckgo senv;
                  search_youtube_direct senv; search_bing senv] in
  match first_results methods with
  | Some results => ret (slice_to max_results results)
  | None => raise (lit "All search methods failed")
  end.

(** ** Concurrent download worker *)

Inductive WorkerEvent :=
| PoolCreated (max_workers : Z)       (* [ThreadPoolExecutor(max_workers=...)] *)
| Submitted (i : nat) (url : pystr)   (* [executor.submit(download_video, url, ...)] *)
| RotateTor (ok : bool)               (* [rotate_tor()] and what it returned *)
| RotationFlagCleared                 (* [rate_limiter.ip_rotation_needed = False] *)
| WorkerSleep (seconds : Z)
| LogSaved.                           (* the JSON log of the job is written *)

(** The job as the worker leaves it, every state the job has been in (a
    poll can see any of them) and what else the worker did, newest first. *)
Record WorkerState := {
  job : JobState.t;
  history : list JobState.t;
  events : list WorkerEvent;
}.

Record WorkerEnv := {
  search_env : SearchEnv;
  (** [as_completed(futures)]: the indices of the futures in the order in
      which they complete, a permutation of the submitted ones. *)
  completion_order : list nat;
  (** the world of the thread that runs future [i], and the shared tracker
      as that thread finds it *)
  item_env : nat -> ItemEnv;
  item_limiter : nat -> RateLimitTracker;
  (** [rate_limiter.ip_rotation_needed] as the worker reads it after the
      [k]-th completion, and what [rotate_tor()] returns then *)
  rotation_flag : nat -> bool;
  rotate_tor : nat -> bool;
  (** writing the log file: [Some e] when it raises *)
  save_log : option pystr;
}.

(** An assignment to a field of [job]. *)
Definition assign (f : JobState.t -> JobState.t) : M WorkerState unit :=
  modify (fun w =>
    {| job := f (job w); history := f (job w) :: history w;
       events := events w |}).

Definition effect (ev : WorkerEvent) : M WorkerState unit :=
  modify (fun w =>
    {| job := job w; history := history w; events := ev :: events w |}).

Definition read_job : M WorkerState JobState.t :=
  let! w := get in ret (job w).

(** [future.result()] of the future of [url], submitted as number [i]. *)
Definition future_result (req : DownloadRequest.t) (env : WorkerEnv)
    (i : nat) (url : pystr) : M WorkerState DownloadResult.t :=
  let thread_start :=
    {| limiter := item_limiter env i; ticks := 0; trace := [] |} in
  match download_video (item_env env i) url (DownloadRequest.audio req)
          (DownloadRequest.video req) (DownloadRequest.transcripts req)
          thread_start with
  | (inr result, _) => ret result
  | (inl e, _) => raise e
  end.

(** [int((completed / len(results)) * 100)], in binary64 as Python computes
    it. *)
Definition progress_percent (completed len_results : nat) : Z :=
  py_int (float_of_Z (Z.of_nat completed) / float_of_Z (Z.of_nat len_results)
          * float_of_Z 100)%float.

Definition check_mark : pystr := [10003%N].
Definition ballot_x : pystr := [10007%N].

Section worker.
Variables (req : DownloadRequest.t) (env : WorkerEnv).

(** The body of [for future in as_completed(futures)] for the future
    number [i]; [completed] counts the bodies that ran before.  A number
    that is not the number of a future does not occur in the order of
    [as_completed]; the body does nothing for it. *)
Definition item_update (results : list pystr) (completed i : nat)
  : M WorkerState unit :=
  match results !! i with
  | None => ret tt
  | Some url =>
      let! result := future_result req env i url in
      assign (fun j =>
        JobState.set_results (JobState.results j ++ [result]) j) ;;
      (if bool_decide (DownloadResult.status result = lit "success") then
         assign (fun j => JobState.set_completed_videos
                            (JobState.completed_videos j + 1) j)
       else if bool_decide (DownloadResult.status result = lit "failed") then
         assign (fun j => JobState.set_failed_videos
                            (JobState.failed_videos j + 1) j)
       else ret tt) ;;
      let completed := completed + 1 in
      assign (JobState.set_progress
                (progress_percent completed (length results))) ;;
      let! j := read_job in
      assign (JobState.set_message
        (lit "Downloaded " ++ show completed ++ lit "/" ++
         show (length results) ++ lit " (" ++ check_mark ++
         show (JobState.completed_videos j) ++ lit " " ++ ballot_x ++
         show (JobState.failed_videos j) ++ lit ")")) ;;
      (* Check if IP rotation needed *)
      if rotation_flag env completed then
        assign (JobState.set_message
                  (lit "Rotating IP due to rate limit...")) ;;
        effect (RotateTor (rotate_tor env completed)) ;;
        (if rotate_tor env completed then effect RotationFlagCleared
         else ret tt) ;;
        effect (WorkerSleep 3)
      else ret tt
  end.

Fixpoint completion_loop (results : list pystr) (todo : list nat)
    (completed : nat) : M WorkerState unit :=
  match todo with
  | [] => ret tt
  | i :: todo' =>
      item_update results completed i ;;
      completion_loop results todo' (completed + 1)
  end.

Fixpoint submit_all (i : nat) (results : list pystr) : M WorkerState unit :=
  match results with
  | [] => ret tt
  | url :: results' =>
      effect (Submitted i url) ;; submit_all (i + 1) results'
  end.

(** From the start of the [try] block to [job.total_videos = len(results)]. *)
Definition resolve : M WorkerState (list pystr) :=
  let! results :=
    match DownloadRequest.urls req with
    | Some (u :: us) =>
        (* Handle direct URLs (skip search entirely) *)
        let results := u :: us in
        assign (JobState.set_message
          (lit "Downloading " ++ show (length results) ++
           lit " video(s)...")) ;;
        ret results
    | _ =>
        if DownloadRequest.is_url req then
          assign (JobState.set_message (lit "Downloading video...")) ;;
          ret [strip (DownloadRequest.query req)]
        else
          (* Batch search *)
          assign (JobState.set_message (lit "Searching for videos...")) ;;
          search_youtube (search_env env) (DownloadRequest.max_results req)
    end in
  assign (JobState.set_total_videos (length results)) ;;
  ret results.

Definition pool_size : Z :=
  Z.min (DownloadRequest.concurrent_downloads req) MAX_CONCURRENT_DOWNLOADS.

(** The [with ThreadPoolExecutor(...)] block, with the completions of
    [order] processed. *)
Definition pool_block (results : list pystr) (order : list nat)
  : M WorkerState unit :=
  (if (pool_size <=? 0)%Z
   then raise (lit "max_workers must be greater than 0")
   else effect (PoolCreated pool_size)) ;;
  submit_all 0 results ;;
  completion_loop results order 0.

(** What follows the [with] block. *)
Definition finish : M WorkerState unit :=
  assign (JobState.set_status (lit "complete")) ;;
  assign (JobState.set_progress 100) ;;
  let! j := read_job in
  assign (JobState.set_message
    (lit "Complete! " ++ check_mark ++ show (JobState.completed_videos j) ++
     lit " successful, " ++ ballot_x ++ show (JobState.failed_videos j) ++
     lit " failed")) ;;
  (* Save detailed log *)
  match save_log env with
  | Some e => raise e
  | None => effect LogSaved
  end.

(** [except Exception as e] of the worker. *)
Definition fatal (str_e : pystr) : M WorkerState unit :=
  assign (JobState.set_status (lit "failed")) ;;
  assign (JobState.set_message (lit "Error: " ++ take 100 str_e)).

(** The [try] block with the loop over [as_completed] cut after the
    completions of [order]; [None] is returned when the block ended in
    the [return] before the pool. *)
Definition try_block_until (order : list nat)
  : M WorkerState (option unit) :=
  let! results := resolve in
  match results with
  | [] =>
      assign (JobState.set_status (lit "failed")) ;;
      assign (JobState.set_message (lit "No videos found")) ;;
      ret None
  | _ :: _ =>
      pool_block results order ;; ret (Some tt)
  end.

(** The worker up to the end of the per-item update of the last completion
    of [order]. *)
Definition worker_until (order : list nat) : M WorkerState (option unit) :=
  assign (JobState.set_status (lit "downloading")) ;;
  try_block_until order.

Definition _download_worker : M WorkerState unit :=
  assign (JobState.set_status (lit "downloading")) ;;
  try_except
    (let! reached := try_block_until (completion_order env) in
     match reached with
     | None => ret tt
     | Some _ => finish
     end)
    fatal.
End worker.

(** The state in which [api_download] hands a job to the worker. *)
Definition worker_start (j : JobState.t) : WorkerState :=
  {| job := j; history := [j]; events := [] |}.

(** ** HTTP endpoints *)

Record HTTPException := {
  status_code : Z;
  detail : pystr;
}.

Module ProgressResponse.
Record t := {
  job_id : pystr;
  status : pystr;
  progress : Z;
  message : pystr;
  total_videos : nat;
  completed : nat;
  failed : nat;
  elapsed : float;
  start_time : float;
  results : list DownloadResult.t;
}.
End ProgressResponse.

(** [POST /api/download]: [uuid] is [str(uuid.uuid4())] and [now] the clock
    at the creation of the job.  The response is left out; the new registry
    and the job handed to the background task are returned. *)
Definition api_download (req : DownloadRequest.t) (uuid : pystr) (now : float)
    (jobs : gmap pystr JobState.t)
  : HTTPException + gmap pystr JobState.t * JobState.t :=
  if negb (DownloadRequest.audio req || DownloadRequest.video req ||
           DownloadRequest.transcripts req)
  then inl {| status_code := 400;
              detail := lit "Select at least one: audio, video, transcripts" |}
  else
    let job := JobState.new uuid (DownloadRequest.query req) (lit "queued") now in
    inr (<[uuid := job]> jobs, job).

(** [GET /api/progress/{job_id}]; [now] is the [time.time()] of [elapsed]. *)
Definition api_progress (jobs : gmap pystr JobState.t) (job_id : pystr)
    (now : float) : HTTPException + ProgressResponse.t :=
  match jobs !! job_id with
  | None => inl {| status_code := 404; detail := lit "Job not found" |}
  | Some job =>
      inr {| ProgressResponse.job_id := job_id;
             ProgressResponse.status := JobState.status job;
             ProgressResponse.progress := JobState.progress job;
             ProgressResponse.message := JobState.message job;
             ProgressResponse.total_videos := JobState.total_videos job;
             ProgressResponse.completed := JobState.completed_videos job;
             ProgressResponse.failed := JobState.failed_videos job;
             ProgressResponse.elapsed := (now - JobState.start_time job)%float;
             ProgressResponse.start_time := JobState.start_time job;
             ProgressResponse.results :=
               if bool_decide (JobState.status job = lit "complete")
               then JobState.results job else [] |}
  end.

(** ** Tor management *)

Module Tor.

(** [tor_ip_cache]: the address found last and the clock at that time. *)
Record Cache := {
  ip : pystr;
  time : float;
}.

Definition tor_ip_cache : Cache := {| ip := lit "Unknown"; time := 0%float |}.

Definition tor_cache_ttl : Z := 60.

Inductive Event :=
| Request (via_tor : bool)      (* [requests.get] of the address service *)
| NewCircuit (ok : bool)        (* the control connection and [Signal.NEWNYM] *)
| Sleep (seconds : Z).          (* [time.sleep] *)

Record State := {
  cache : Cache;
  ticks : nat;                  (* the clock reads so far *)
  lookups : nat;                (* the requests so far *)
  signals : nat;                (* the control connections so far *)
  trace : list Event;           (* newest first *)
}.

(** The outside world: the successive values of [time.time()], what the
    [k]-th request of the address service gives (the text of the response,
    or the exception) through the proxy and directly, and the exception of
    the [k]-th control connection, if it raises. *)
Record Env := {
  clock : nat -> float;
  tor_address : nat -> pystr + pystr;
  real_address : nat -> pystr + pystr;
  control : nat -> option pystr;
}.

Definition now (env : Env) : M State float :=
  fun s =>
    (inr (clock env (ticks s)),
     {| cache := cache s; ticks := S (ticks s); lookups := lookups s;
        signals := signals s; trace := trace s |}).

Definition request (env : Env) (via_tor : bool) : M State pystr :=
  fun s =>
    ((if via_tor then tor_address env else real_address env) (lookups s),
     {| cache := cache s; ticks := ticks s; lookups := S (lookups s);
        signals := signals s; trace := Request via_tor :: trace s |}).

Definition signal_newnym (env : Env) : M State unit :=
  fun s =>
    (match control env (signals s) with
     | Some e => inl e
     | None => inr tt
     end,
     {| cache := cache s; ticks := ticks s; lookups := lookups s;
        signals := S (signals s);
        trace := NewCircuit (bool_decide (control env (signals s) = None))
                 :: trace s |}).

Definition sleep (seconds : Z) : M State unit :=
  modify (fun s =>
    {| cache := cache s; ticks := ticks s; lookups := lookups s;
       signals := signals s; trace := Sleep seconds :: trace s |}).

Definition set_cache (c : Cache) : M State unit :=
  modify (fun s =>
    {| cache := c; ticks := ticks s; lookups := lookups s;
       signals := signals s; trace := trace s |}).

Definition get_tor_ip (env : Env) (force_refresh : bool) : M State pystr :=
  let! cached :=
    if force_refresh then ret false
    else
      let! t := now env in
      let! s := get in
      ret (t - time (cache s) <? float_of_Z tor_cache_ttl)%float in
  if cached then
    let! s := get in ret (ip (cache s))
  else
    try_except
      (let! text := request env true in
       let ip := strip text in
       let! t := now env in
       set_cache {| ip := ip; time := t |} ;;
       ret ip)
      (fun _ => ret (lit "Unknown")).

Definition check_tor (env : Env) : M State (bool * pystr) :=
  let! ip := get_tor_ip env true in
  if contains (lit "Unknown") ip || contains (lit "Error") ip then
    ret (false, ip)
  else
    let! same :=
      try_except
        (let! text := request env false in
         ret (bool_decide (ip = strip text)))
        (fun _ => ret false) in
    if same then ret (false, ip) else ret (true, ip).

(** The iterations of [for attempt in range(3)] still to run, then the
    [return False] after the loop; [None] stands for the end of the
    [except] clause, after which the loop goes on. *)
Fixpoint rotate_loop (env : Env) (todo : list nat) : M State bool :=
  match todo with
  | [] => ret false
  | _ :: todo' =>
      let! returned :=
        try_except
          (signal_newnym env ;;
           sleep 8 ;;
           get_tor_ip env true ;;
           ret (Some true))
          (fun _ => sleep 2 ;; ret None) in
      match returned with
      | Some r => ret r
      | None => rotate_loop env todo'
      end
  end.

Definition rotate_tor (env : Env) : M State bool :=
  rotate_loop env (seq 0 3).

End Tor.

(** ** Search methods *)

(** The pattern of [re.findall] in [_search_duckduckgo] and [_search_bing]
    at the start of [s]: [href=], a double quote, one or more characters
    other than the double quote (the group), a double quote.  The group is
    the longest run of such characters, and a character that follows the
    run is the closing quote; a shorter group would be followed by a
    character that is not a quote, so there is nothing to backtrack to. *)
Definition match_href (s : pystr) : option (pystr * nat) :=
  match strip_prefix (lit "href=" ++ [34%N]) s with
  | None => None
  | Some rest =>
      let group := run (fun c => negb (c =? 34)%N) rest in
      match group, drop (length group) rest with
      | _ :: _, _ :: _ => Some (group, 6 + length group + 1)
      | _, _ => None
      end
  end.

(** [[a-zA-Z0-9_-]]. *)
Definition is_id_char (c : N) : bool :=
  ((97 <=? c) && (c <=? 122) || (65 <=? c) && (c <=? 90) ||
   (48 <=? c) && (c <=? 57) || (c =? 95) || (c =? 45))%N.

(** [/watch\?v=([a-zA-Z0-9_-]{11})] at the start of [s]. *)
Definition match_watch_id (s : pystr) : option (pystr * nat) :=
  match strip_prefix (lit "/watch?v=") s with
  | None => None
  | Some rest =>
      let group := take 11 rest in
      if (length group =? 11) && forallb is_id_char group
      then Some (group, 20)
      else None
  end.

(** [(https?://(?:www\.)?(?:youtube\.com/watch\?v=|youtu\.be/)[^ \n]+)] at
    the start of [s]: the text matched.  An optional part that is there is
    taken: what has to follow it starts with another character than the
    part does, so leaving it out cannot help.  The same goes for the two
    alternatives. *)
Definition match_video_url (s : pystr) : option pystr :=
  match strip_prefix (lit "http") s with
  | None => None
  | Some s1 =>
      let s2 := default s1 (strip_prefix (lit "s") s1) in
      match strip_prefix (lit "://") s2 with
      | None => None
      | Some s3 =>
          let s4 := default s3 (strip_prefix (lit "www.") s3) in
          let tail :=
            match strip_prefix (lit "youtube.com/watch?v=") s4 with
            | Some t => Some t
            | None => strip_prefix (lit "youtu.be/") s4
            end in
          match tail with
          | None => None
          | Some s5 =>
              match run (fun c => negb ((c =? 32) || (c =? 10))%N) s5 with
              | [] => None
              | (_ :: _) as rest =>
                  Some (take (length s - length s5 + length rest) s)
              end
          end
      end
  end.

(** The [for line in lines] loop of [_search_ytdlp]. *)
Fixpoint ytdlp_lines (max_results : Z) (urls : list pystr)
    (lines : list pystr) : list pystr :=
  match lines with
  | [] => urls
  | line :: lines' =>
      let line := strip line in
      if contains (lit "youtube.com/watch") line ||
         contains (lit "youtu.be") line then
        match re_search match_video_url line with
        | Some url =>
            if bool_decide (url ∈ urls) then
              ytdlp_lines max_results urls lines'
            else
              let urls := urls ++ [url] in
              if (max_results <=? Z.of_nat (length urls))%Z then urls
              else ytdlp_lines max_results urls lines'
        | None => ytdlp_lines max_results urls lines'
        end
      else ytdlp_lines max_results urls lines'
  end.

(** [result] is what [subprocess.run] returns, [None] when it raises. *)
Definition _search_ytdlp (result : option CompletedProcess.t)
    (max_results : Z) : list pystr :=
  match result with
  | None => []
  | Some result =>
      if negb (CompletedProcess.returncode result =? 0)%Z then []
      else
        ytdlp_lines max_results []
          (split_char 10 (strip (CompletedProcess.stdout result)))
  end.

Definition is_video_link (u : pystr) : bool :=
  contains (lit "youtube.com/watch") u || contains (lit "youtu.be/") u.

(** The loop of [_search_duckduckgo] over the links of the page.  [uddg u]
    is what the [try] block makes of a link with a [uddg=] parameter: the
    new value of [u], or [None] when [urlparse], [parse_qs] or [unquote]
    raises. *)
Fixpoint duckduckgo_links (uddg : pystr -> option pystr) (max_results : Z)
    (urls : list pystr) (seen : gset pystr) (links : list pystr)
  : list pystr :=
  match links with
  | [] => urls
  | u :: links' =>
      let u := if starts_with (lit "//") u then lit "https:" ++ u else u in
      match (if contains (lit "uddg=") u then uddg u else Some u) with
      | None => duckduckgo_links uddg max_results urls seen links'
      | Some u =>
          if is_video_link u && bool_decide (u ∉ seen) then
            let seen := {[u]} ∪ seen in
            let urls := urls ++ [u] in
            if (max_results <=? Z.of_nat (length urls))%Z then urls
            else duckduckgo_links uddg max_results urls seen links'
          else duckduckgo_links uddg max_results urls seen links'
      end
  end.

(** [page] is [r.text], or the exception of [requests.get] or
    [r.raise_for_status()]. *)
Definition _search_duckduckgo (uddg : pystr -> option pystr)
    (page : pystr + pystr) (max_results : Z) : pystr + list pystr :=
  match page with
  | inl e => inl e
  | inr text =>
      inr (duckduckgo_links uddg max_results [] ∅
             (re_findall match_href 0 text))
  end.

Definition _search_youtube_direct (page : pystr + pystr) (max_results : Z)
  : pystr + list pystr :=
  match page with
  | inl e => inl e
  | inr text =>
      let vids := re_findall match_watch_id 0 text in
      inr (map (fun v => lit "https://www.youtube.com/watch?v=" ++ v)
             (slice_to max_results vids))
  end.

(** The loop of [_search_bing] over the links of the page. *)
Fixpoint bing_links (max_results : Z) (urls : list pystr)
    (seen : gset pystr) (links : list pystr) : list pystr :=
  match links with
  | [] => urls
  | u :: links' =>
      if is_video_link u then
        if bool_decide (u ∉ seen) then
          let seen := {[u]} ∪ seen in
          let urls := urls ++ [u] in
          if (max_results <=? Z.of_nat (length urls))%Z then urls
          else bing_links max_results urls seen links'
        else bing_links max_results urls seen links'
      else bing_links max_results urls seen links'
  end.

Definition _search_bing (page : pystr + pystr) (max_results : Z)
  : pystr + list pystr :=
  match page with
  | inl e => inl e
  | inr text => inr (bing_links max_results [] ∅ (re_findall match_href 0 text))
  end.

(** What the four methods find on the network. *)
Record SearchWorld := {
  ytdlp_result : option CompletedProcess.t;
  duckduckgo_page : pystr + pystr;
  uddg_target : pystr -> option pystr;
  youtube_page : pystr + pystr;
  bing_page : pystr + pystr;
}.

(** The four methods as [search_youtube] calls them: [_search_ytdlp]
    catches its exceptions itself. *)
Definition search_env_of (world : SearchWorld) (max_results : Z) : SearchEnv :=
  {| search_ytdlp := inr (_search_ytdlp (ytdlp_result world) max_results);
     search_duckduckgo :=
       _search_duckduckgo (uddg_target world) (duckduckgo_page world)
         max_results;
     search_youtube_direct :=
       _search_youtube_direct (youtube_page world) max_results;
     search_bing := _search_bing (bing_page world) max_results |}.

(** ** More endpoints *)

Module StatusResponse.
Record t := {
  tor_connected : bool;
  tor_ip : pystr;
  cookies : bool;
  active_jobs : nat;
  total_jobs : nat;
}.
End StatusResponse.

(** [j.status in ['queued', 'downloading']]. *)
Definition is_active (j : JobState.t) : bool :=
  bool_decide (JobState.status j ∈ [lit "queued"; lit "downloading"]).

(** [GET /api/status]; [cookies_file] is [COOKIES_FILE]. *)
Definition api_status (env : Tor.Env) (cookies_file : option pystr)
    (jobs : gmap pystr JobState.t) : M Tor.State StatusResponse.t :=
  let! checked := Tor.check_tor env in
  ret {| StatusResponse.tor_connected := checked.1;
         StatusResponse.tor_ip := checked.2;
         StatusResponse.cookies := bool_decide (cookies_file <> None);
         StatusResponse.active_jobs :=
           length (List.filter is_active (map snd (map_to_list jobs)));
         StatusResponse.total_jobs := size jobs |}.

Module SearchRequest.
Record t := {
  query : pystr;
  max_results : Z;
  is_url : bool;
}.

(** The [Field] constraints. *)
Definition valid (req : t) : bool :=
  (1 <=? length (query req)) && (length (query req) <=? 500) &&
  (1 <=? max_results req)%Z && (max_results req <=? 100)%Z.
End SearchRequest.

Module SearchResponse.
Record t := {
  query : pystr;
  results : list pystr;
  titles : gmap pystr pystr;
  count : nat;
  is_url : bool;
}.
End SearchResponse.

(** [for url in urls: titles[url] = get_video_title(url)]; [title_of k] is
    what the [k]-th call of [get_video_title] returns. *)
Fixpoint get_titles (title_of : nat -> pystr) (k : nat) (urls : list pystr)
    (titles : gmap pystr pystr) : gmap pystr pystr :=
  match urls with
  | [] => titles
  | url :: urls' =>
      get_titles title_of (S k) urls' (<[url := title_of k]> titles)
  end.

(** [POST /api/search]. *)
Definition api_search (req : SearchRequest.t) (senv : SearchEnv)
    (title_of : nat -> pystr) : HTTPException + SearchResponse.t :=
  if SearchRequest.is_url req then
    let urls := [strip (SearchRequest.query req)] in
    inr {| SearchResponse.query := SearchRequest.query req;
           SearchResponse.results := urls;
           SearchResponse.titles := get_titles title_of 0 urls ∅;
           SearchResponse.count := length urls;
           SearchResponse.is_url := true |}
  else
    match search_youtube senv (SearchRequest.max_results req) tt with
    | (inl str_e, _) =>
        inl {| status_code := 500; detail := lit "Search failed: " ++ str_e |}
    | (inr [], _) =>
        inl {| status_code := 404; detail := lit "No videos found" |}
    | (inr results, _) =>
        inr {| SearchResponse.query := SearchRequest.query req;
               SearchResponse.results := results;
               SearchResponse.titles := get_titles title_of 0 results ∅;
               SearchResponse.count := length results;
               SearchResponse.is_url := false |}
    end.

Module RotateResponse.
Record t := {
  success : bool;
  old_ip : pystr;
  new_ip : pystr;
}.
End RotateResponse.

(** [POST /api/rotate]. *)
Definition api_rotate (env : Tor.Env)
  : M Tor.State (HTTPException + RotateResponse.t) :=
  let! old_ip := Tor.get_tor_ip env false in
  let! rotated := Tor.rotate_tor env in
  if negb rotated then
    ret (inl {| status_code := 500; detail := lit "Failed to rotate Tor" |})
  else
    let! new_ip := Tor.get_tor_ip env true in
    ret (inr {| RotateResponse.success := true;
                RotateResponse.old_ip := old_ip;
                RotateResponse.new_ip := new_ip |}).

End V3.

(** * The engine without Tor, [GT-v4-fastapi.py] *)

Module V4.

Local Open Scope py_scope.

Definition sanitize_dirname (s : pystr) : pystr :=
  let clean :=
    List.filter (fun c => negb (existsb (N.eqb c)
                   (lit "<>:" ++ [34%N] ++ lit "/\|?*"))) s in
  let clean := strip (map (fun c => if N.eqb c 32 then 95%N else c) clean) in
  match clean with
  | [] => lit "search_results"
  | _ :: _ => clean
  end.

(** ** Requests, results and jobs *)

Module DownloadRequest.
Record t := {
  query : pystr;
  audio : bool;
  video : bool;
  transcripts : bool;
  format : pystr;
  max_results : option Z;
  concurrent_downloads : option Z;   (* [Optional[int]]: [None] is accepted *)
  search_type : pystr;
  urls : option (list pystr);
}.

(** The [Field] constraints on the numbers; a [None] passes them. *)
Definition valid (req : t) : bool :=
  (1 <=? length (query req)) && (length (query req) <=? 500) &&
  match max_results req with
  | Some n => (1 <=? n)%Z && (n <=? 100)%Z
  | None => true
  end &&
  match concurrent_downloads req with
  | Some n => (1 <=? n)%Z && (n <=? 10)%Z
  | None => true
  end.
End DownloadRequest.

(** The [result] dict of [download_single_video]; the key ['error'] exists
    only after a failure. *)
Module Result.
Record t := {
  url : pystr;
  title : pystr;
  status : pystr;
  size_mb : Z;
  duration : float;
  retries : Z;
  ip : pystr;
  error : option pystr;
}.
End Result.

(** The dict [jobs[job_id]]. *)
Module Job.
Record t := {
  job_id : pystr;
  query : pystr;
  status : pystr;
  progress : Z;
  message : pystr;
  total_videos : nat;
  completed_videos : nat;
  failed_videos : nat;
  start_time : float;
  elapsed : float;
  results : list Result.t;
}.

Definition set_status (v : pystr) (j : t) : t :=
  {| job_id := job_id j; query := query j; status := v;
     progress := progress j; message := message j;
     total_videos := total_videos j;
     completed_videos := completed_videos j;
     failed_videos := failed_videos j; start_time := start_time j;
     elapsed := elapsed j; results := results j |}.

Definition set_progress (v : Z) (j : t) : t :=
  {| job_id := job_id j; query := query j; status := status j;
     progress := v; message := message j;
     total_videos := total_videos j;
     completed_videos := completed_videos j;
     failed_videos := failed_videos j; start_time := start_time j;
     elapsed := elapsed j; results := results j |}.

Definition set_message (v : pystr) (j : t) : t :=
  {| job_id := job_id j; query := query j; status := status j;
     progress := progress j; message := v;
     total_videos := total_videos j;
     completed_videos := completed_videos j;
     failed_videos := failed_videos j; start_time := start_time j;
     elapsed := elapsed j; results := results j |}.

Definition set_total_videos (v : nat) (j : t) : t :=
  {| job_id := job_id j; query := query j; status := status j;
     progress := progress j; message := message j;
     total_videos := v;
     completed_videos := completed_videos j;
     failed_videos := failed_videos j; start_time := start_time j;
     elapsed := elapsed j; results := results j |}.

Definition set_completed_videos (v : nat) (j : t) : t :=
  {| job_id := job_id j; query := query j; status := status j;
     progress := progress j; message := message j;
     total_videos := total_videos j;
     completed_videos := v;
     failed_videos := failed_videos j; start_time := start_time j;
     elapsed := elapsed j; results := results j |}.

Definition set_failed_videos (v : nat) (j : t) : t :=
  {| job_id := job_id j; query := query j; status := status j;
     progress := progress j; message := message j;
     total_videos := total_videos j;
     completed_videos := completed_videos j;
     failed_videos := v; start_time := start_time j;
     elapsed := elapsed j; results := results j |}.

Definition set_start_time (v : float) (j : t) : t :=
  {| job_id := job_id j; query := query j; status := status j;
     progress := progress j; message := message j;
     total_videos := total_videos j;
     completed_videos := completed_videos j;
     failed_videos := failed_videos j; start_time := v;
     elapsed := elapsed j; results := results j |}.

Definition set_elapsed (v : float) (j : t) : t :=
  {| job_id := job_id j; query := query j; status := status j;
     progress := progress j; message := message j;
     total_videos := total_videos j;
     completed_videos := completed_videos j;
     failed_videos := failed_videos j; start_time := start_time j;
     elapsed := v; results := results j |}.

Definition set_results (v : list Result.t) (j : t) : t :=
  {| job_id := job_id j; query := query j; status := status j;
     progress := progress j; message := message j;
     total_videos := total_videos j;
     completed_videos := completed_videos j;
     failed_videos := failed_videos j; start_time := start_time j;
     elapsed := elapsed j; results := v |}.
End Job.

(** ** One download *)

(** The world of one [download_single_video] call: the title found, the
    clock before and after the tool runs, and for each requested kind the
    [str(e)] of the exception its step raises, if any. *)
Record ItemEnv := {
  video_title : pystr;
  clock_before : float;
  clock_after : float;
  run_audio : option pystr;
  run_video : option pystr;
  run_transcripts : option pystr;
}.

Definition run_tool (audio video transcripts : bool) (e : ItemEnv)
  : option pystr :=
  match (if audio then run_audio e else None) with
  | Some err => Some err
  | None =>
      match (if video then run_video e else None) with
      | Some err => Some err
      | None => if transcripts then run_transcripts e else None
      end
  end.

Definition download_single_video (e : ItemEnv) (url : pystr)
    (audio video transcripts : bool) (current_ip : pystr) : Result.t :=
  match run_tool audio video transcripts e with
  | None =>
      {| Result.url := url; Result.title := video_title e;
         Result.status := lit "success"; Result.size_mb := 0;
         Result.duration := (clock_after e - clock_before e)%float;
         Result.retries := 0; Result.ip := current_ip;
         Result.error := None |}
  | Some str_e =>
      {| Result.url := url; Result.title := video_title e;
         Result.status := lit "failed"; Result.size_mb := 0;
         Result.duration := 0%float;
         Result.retries := 0; Result.ip := current_ip;
         Result.error := Some str_e |}
  end.

(** ** The job *)

Inductive WorkerEvent :=
| PoolCreated (max_workers : Z)
| Submitted (i : nat) (url : pystr).

Record WorkerState := {
  job : Job.t;
  history : list Job.t;         (* newest first *)
  events : list WorkerEvent;    (* newest first *)
}.

Record WorkerEnv := {
  clock_start : float;          (* [time.time()] at the start of the job *)
  make_dirs : option pystr;     (* the [mkdir] calls: [Some e] when one raises *)
  clock_end : float;            (* [time.time()] after the pool *)
  current_ip : pystr;           (* [get_ip()] *)
  item_env : nat -> ItemEnv;
  (** the pool size Python picks for [max_workers=None] *)
  default_max_workers : Z;
}.

Definition assign (f : Job.t -> Job.t) : M WorkerState unit :=
  modify (fun w =>
    {| job := f (job w); history := f (job w) :: history w;
       events := events w |}).

Definition effect (ev : WorkerEvent) : M WorkerState unit :=
  modify (fun w =>
    {| job := job w; history := history w; events := ev :: events w |}).

Definition read_job : M WorkerState Job.t :=
  let! w := get in ret (job w).

Definition progress_percent (done total : nat) : Z :=
  py_int (float_of_Z (Z.of_nat done) / float_of_Z (Z.of_nat total)
          * float_of_Z 100)%float.

Section worker.
Variables (env : WorkerEnv) (audio video transcripts : bool).
Variable concurrent : option Z.

(** The body of [for future in futures] for the future of [url],
    submitted as number [i]. *)
Definition item_update (i : nat) (url : pystr) : M WorkerState unit :=
  let result :=
    download_single_video (item_env env i) url audio video transcripts
      (current_ip env) in
  assign (fun j => Job.set_results (Job.results j ++ [result]) j) ;;
  (if bool_decide (Result.status result = lit "success") then
     assign (fun j => Job.set_completed_videos (Job.completed_videos j + 1) j)
   else
     assign (fun j => Job.set_failed_videos (Job.failed_videos j + 1) j)) ;;
  let! j := read_job in
  assign (Job.set_progress
            (progress_percent
               (Job.completed_videos j + Job.failed_videos j)
               (Job.total_videos j))) ;;
  assign (Job.set_message
    (lit "Completed " ++ show (Job.completed_videos j) ++ lit "/" ++
     show (Job.total_videos j) ++ lit " videos")).

(** [for future in futures]: the futures are visited in the order of
    submission, whatever the order in which they complete. *)
Fixpoint result_loop (i : nat) (urls : list pystr) : M WorkerState unit :=
  match urls with
  | [] => ret tt
  | url :: urls' => item_update i url ;; result_loop (i + 1) urls'
  end.

Fixpoint submit_all (i : nat) (urls : list pystr) : M WorkerState unit :=
  match urls with
  | [] => ret tt
  | url :: urls' => effect (Submitted i url) ;; submit_all (i + 1) urls'
  end.

Definition pool_size : Z :=
  match concurrent with
  | Some n => n
  | None => default_max_workers env
  end.

(** The job up to the end of the per-item updates of the first [k]
    futures. *)
Definition job_until (urls : list pystr) (k : nat) : M WorkerState unit :=
  assign (Job.set_status (lit "downloading")) ;;
  assign (Job.set_start_time (clock_start env)) ;;
  match make_dirs env with
  | Some e => raise e
  | None => ret tt
  end ;;
  assign (Job.set_total_videos (length urls)) ;;
  assign (Job.set_completed_videos 0) ;;
  assign (Job.set_failed_videos 0) ;;
  assign (Job.set_results []) ;;
  (if (pool_size <=? 0)%Z
   then raise (lit "max_workers must be greater than 0")
   else effect (PoolCreated pool_size)) ;;
  submit_all 0 urls ;;
  result_loop 0 (take k urls).

Definition process_download_job (urls : list pystr) : M WorkerState unit :=
  job_until urls (length urls) ;;
  assign (Job.set_status (lit "complete")) ;;
  let! j := read_job in
  assign (Job.set_elapsed (clock_end env - Job.start_time j)%float) ;;
  assign (Job.set_message
    (lit "Download complete: " ++ show (Job.completed_videos j) ++
     lit " succeeded, " ++ show (Job.failed_videos j) ++ lit " failed")).
End worker.

Definition worker_start (j : Job.t) : WorkerState :=
  {| job := j; history := [j]; events := [] |}.

(** ** HTTP endpoints *)

Record HTTPException := {
  status_code : Z;
  detail : pystr;
}.

Module ProgressResponse.
Record t := {
  job_id : pystr;
  query : pystr;
  status : pystr;
  progress : Z;
  message : pystr;
  total_videos : nat;
  completed_videos : nat;
  failed_videos : nat;
  elapsed : float;
  results : option (list Result.t);
}.
End ProgressResponse.

(** The job [api_download] registers for the resolved [urls]. *)
Definition queued_job (job_id query : pystr) (urls : list pystr) : Job.t :=
  {| Job.job_id := job_id; Job.query := query; Job.status := lit "queued";
     Job.progress := 0; Job.message := lit "Initializing download...";
     Job.total_videos := length urls; Job.completed_videos := 0;
     Job.failed_videos := 0; Job.start_time := 0%float;
     Job.elapsed := 0%float; Job.results := [] |}.

(** [POST /api/download]: [found] is what the search chosen by
    [search_type] does (it returns URLs or raises), [uuid] is
    [str(uuid.uuid4())]. *)
Definition api_download (req : DownloadRequest.t)
    (found : pystr + list pystr) (uuid : pystr) (jobs : gmap pystr Job.t)
  : HTTPException + gmap pystr Job.t * list pystr :=
  if negb (DownloadRequest.audio req || DownloadRequest.video req ||
           DownloadRequest.transcripts req)
  then inl {| status_code := 400;
              detail := lit "Select at least one download type" |}
  else
    let resolved : pystr + list pystr :=
      if bool_decide (DownloadRequest.search_type req = lit "direct") then
        match DownloadRequest.urls req with
        | Some (u :: us) => inr (u :: us)
        | _ =>
            inr (if starts_with (lit "http") (DownloadRequest.query req)
                 then [DownloadRequest.query req] else [])
        end
      else if bool_decide (DownloadRequest.search_type req ∈
                [lit "broad"; lit "precise"; lit "playlist"; lit "channel"])
      then found
      else inr [] in
    match resolved with
    | inl str_e => inl {| status_code := 500; detail := str_e |}
    | inr [] =>
        inl {| status_code := 404;
               detail := lit "No videos found using " ++
                         DownloadRequest.search_type req ++ lit " method" |}
    | inr urls =>
        inr (<[uuid := queued_job uuid (DownloadRequest.query req) urls]> jobs,
             urls)
    end.

(** [GET /api/progress/{job_id}]. *)
Definition get_progress (jobs : gmap pystr Job.t) (job_id : pystr)
  : HTTPException + ProgressResponse.t :=
  match jobs !! job_id with
  | None => inl {| status_code := 404; detail := lit "Job not found" |}
  | Some job =>
      inr {| ProgressResponse.job_id := Job.job_id job;
             ProgressResponse.query := Job.query job;
             ProgressResponse.status := Job.status job;
             ProgressResponse.progress := Job.progress job;
             ProgressResponse.message := Job.message job;
             ProgressResponse.total_videos := Job.total_videos job;
             ProgressResponse.completed_videos := Job.completed_videos job;
             ProgressResponse.failed_videos := Job.failed_videos job;
             ProgressResponse.elapsed := Job.elapsed job;
             ProgressResponse.results :=
               if bool_decide (Job.status job = lit "complete")
               then Some (Job.results job) else None |}
  end.

(** ** Playlists and channels *)

(** [[line.strip() for line in stdout.split('\n') if line.strip()]]. *)
Definition stripped_lines (stdout : pystr) : list pystr :=
  map strip
    (List.filter (fun line => match strip line with [] => false | _ => true end)
       (split_char 10 stdout)).

(** [urls[:max_results]]; a [max_results] of [None] keeps the whole list. *)
Definition slice_to_opt {A} (max_results : option Z) (l : list A) : list A :=
  match max_results with
  | Some n => slice_to n l
  | None => l
  end.

(** [result] is what [subprocess.run] returns, [None] when it raises. *)
Definition get_playlist_videos (result : option CompletedProcess.t)
    (max_results : option Z) : list pystr :=
  match result with
  | None => []
  | Some result =>
      if negb (CompletedProcess.returncode result =? 0)%Z then []
      else slice_to_opt max_results
             (stripped_lines (CompletedProcess.stdout result))
  end.

(** The normalisation of the channel URL. *)
Definition normalize_channel_url (channel_url : pystr) : pystr :=
  if negb (contains (lit "/videos") channel_url) &&
     negb (contains (lit "/streams") channel_url) then
    if ends_with (lit "/") channel_url then channel_url ++ lit "videos"
    else channel_url ++ lit "/videos"
  else channel_url.

(** [tool url] is what [subprocess.run] of the media tool on [url] returns,
    [None] when it raises. *)
Definition get_channel_videos (tool : pystr -> option CompletedProcess.t)
    (channel_url : pystr) (max_results : option Z) : list pystr :=
  let channel_url := normalize_channel_url channel_url in
  match tool channel_url with
  | None => []
  | Some result =>
      if negb (CompletedProcess.returncode result =? 0)%Z then []
      else slice_to_opt max_results
             (stripped_lines (CompletedProcess.stdout result))
  end.

End V4.

(** * Example worlds

    Concrete environments on which the theorems below are instantiated. *)

Module Examples.
Import V3.

(** An iteration in which no other thread touches the tracker and the audio
    run does [audio]. *)
Definition attempt_with (audio : option Raised) : AttemptEnv :=
  {| others_waiting := fun l => l;
     run_audio := audio;
     run_video := None;
     run_transcripts := None;
     others_running := fun l => l;
     audio_size := inr 4.5%float;
     tor_ip := lit "185.220.101.7";
     others_returning := fun l => l |}.

(** An item whose clock advances one second per read. *)
Definition item_with (audio : nat -> option Raised) : ItemEnv :=
  {| clock := fun n => float_of_Z (Z.of_nat n);
     video_title := lit "Some title";
     attempt_env := fun attempt => attempt_with (audio attempt);
     now_iso := lit "2025-10-19T12:00:00" |}.

Definition tool_error (text : string) : option Raised :=
  Some (CalledProcessError (StderrText (lit text))
          (lit "Command returned non-zero exit status 1.")).

Definition item_unavailable : ItemEnv :=
  item_with (fun _ => tool_error "ERROR: [youtube] abc: Video unavailable").

Definition item_throttled : ItemEnv :=
  item_with (fun _ => tool_error "HTTP Error 429: Too Many Requests").

Definition item_timeouts : ItemEnv :=
  item_with (fun _ => Some TimeoutExpired).

Definition item_ok : ItemEnv := item_with (fun _ => None).

(** A pool thread that starts with the tracker of a fresh process. *)
Definition fresh_thread : DvState :=
  {| limiter := RateLimitTracker_default; ticks := 0; trace := [] |}.

(** A tracker that has seen two throttles in a row, with a deadline that
    has passed. *)
Definition tracker_two_throttles : RateLimitTracker :=
  {| consecutive_429s := 2; last_429_time := 0%float;
     backoff_until := 0%float; ip_rotation_needed := false |}.

Definition thread_two_throttles : DvState :=
  {| limiter := tracker_two_throttles; ticks := 0; trace := [] |}.

Definition video_url : pystr := lit "https://www.youtube.com/watch?v=abc".

(** A search in which every method comes back empty-handed. *)
Definition search_finds_nothing : SearchEnv :=
  {| search_ytdlp := inr [];
     search_duckduckgo := inr [];
     search_youtube_direct := inl (lit "HTTPSConnectionPool: Read timed out.");
     search_bing := inr [] |}.

(** A request for one URL given by the client. *)
Definition request_one_url : DownloadRequest.t :=
  {| DownloadRequest.query := lit "one video";
     DownloadRequest.audio := true;
     DownloadRequest.video := false;
     DownloadRequest.transcripts := false;
     DownloadRequest.format := MP3;
     DownloadRequest.max_results := 50;
     DownloadRequest.concurrent_downloads := 3;
     DownloadRequest.is_url := false;
     DownloadRequest.urls := Some [video_url] |}.

(** A request that has to search. *)
Definition request_search : DownloadRequest.t :=
  {| DownloadRequest.query := lit "a query no back-end answers";
     DownloadRequest.audio := true;
     DownloadRequest.video := false;
     DownloadRequest.transcripts := false;
     DownloadRequest.format := MP3;
     DownloadRequest.max_results := 50;
     DownloadRequest.concurrent_downloads := 3;
     DownloadRequest.is_url := false;
     DownloadRequest.urls := None |}.

(** A worker whose only future completes with a success and which sees no
    need to rotate. *)
Definition worker_one_ok : WorkerEnv :=
  {| search_env := search_finds_nothing;
     completion_order := [0];
     item_env := fun _ => item_ok;
     item_limiter := fun _ => RateLimitTracker_default;
     rotation_flag := fun _ => false;
     rotate_tor := fun _ => true;
     save_log := None |}.

Definition worker_nothing_found : WorkerEnv :=
  {| search_env := search_finds_nothing;
     completion_order := [];
     item_env := fun _ => item_ok;
     item_limiter := fun _ => RateLimitTracker_default;
     rotation_flag := fun _ => false;
     rotate_tor := fun _ => true;
     save_log := None |}.

(** Five URLs of the client, two downloads at a time. *)
Definition five_urls : list pystr :=
  [lit "https://youtu.be/a"; lit "https://youtu.be/b";
   lit "https://youtu.be/c"; lit "https://youtu.be/d";
   lit "https://youtu.be/e"].

Definition request_five : DownloadRequest.t :=
  {| DownloadRequest.query := lit "five videos";
     DownloadRequest.audio := true;
     DownloadRequest.video := false;
     DownloadRequest.transcripts := false;
     DownloadRequest.format := MP3;
     DownloadRequest.max_results := 50;
     DownloadRequest.concurrent_downloads := 2;
     DownloadRequest.is_url := false;
     DownloadRequest.urls := Some five_urls |}.

(** All five succeed at the first attempt and complete out of order. *)
Definition worker_five_ok : WorkerEnv :=
  {| search_env := search_finds_nothing;
     completion_order := [1; 0; 3; 2; 4];
     item_env := fun _ => item_ok;
     item_limiter := fun _ => RateLimitTracker_default;
     rotation_flag := fun _ => false;
     rotate_tor := fun _ => true;
     save_log := None |}.

(** An item whose tool fails with a diagnostic that is not valid UTF-8. *)
Definition item_undecodable : ItemEnv :=
  item_with (fun _ =>
    Some (CalledProcessError
            (StderrUndecodable
               (lit "'utf-8' codec can't decode byte 0xff in position 0"))
            (lit "Command returned non-zero exit status 1."))).

(** Of five futures the first to complete raises. *)
Definition worker_first_raises : WorkerEnv :=
  {| search_env := search_finds_nothing;
     completion_order := [1; 0; 3; 2; 4];
     item_env := fun i => if i =? 1 then item_undecodable else item_ok;
     item_limiter := fun _ => RateLimitTracker_default;
     rotation_flag := fun _ => false;
     rotate_tor := fun _ => true;
     save_log := None |}.

Definition queued_five : JobState.t :=
  JobState.new (lit "5d2c35a0-7c1e-4c43-8f0e-2f4d8f3b6a10") (lit "five videos")
    (lit "queued") 100%float.

Definition job_one : pystr := lit "0b0e7d2c-1f4a-4a57-9d53-6c1f0e2a9b11".

(** The job [api_download] registers for [request_one_url] at time 100. *)
Definition queued_one : JobState.t :=
  JobState.new job_one (lit "one video") (lit "queued") 100%float.

Definition queued_search : JobState.t :=
  JobState.new job_one (lit "a query no back-end answers") (lit "queued")
    100%float.

(** The same for the engine without Tor. *)
Definition item_ok4 : V4.ItemEnv :=
  {| V4.video_title := lit "Some title";
     V4.clock_before := 101%float;
     V4.clock_after := 109%float;
     V4.run_audio := None;
     V4.run_video := None;
     V4.run_transcripts := None |}.

Definition worker_ok4 : V4.WorkerEnv :=
  {| V4.clock_start := 100%float;
     V4.make_dirs := None;
     V4.clock_end := 110%float;
     V4.current_ip := lit "203.0.113.9";
     V4.item_env := fun _ => item_ok4;
     V4.default_max_workers := 8 |}.

Definition queued_one4 : V4.Job.t :=
  V4.queued_job job_one (lit "one video") [video_url].

End Examples.

(** * The registry of jobs while the server runs

    [jobs] is a module-level dictionary.  [api_download] is its only
    writer: it stores a new job under a new identifier and hands the
    identifier to a background task.  The task looks its job up once and
    from then on assigns to the fields of that object; it is the only
    writer of the object.  The other endpoints read.  The threads of the
    server are interleaved at the level of these steps. *)

Module V3_server.
Import V3.

(** A background task: the request and the world its worker meets, the job
    as [api_download] created it, and the number of assignments the worker
    has made to the job so far. *)
Record Task := {
  req : DownloadRequest.t;
  env : WorkerEnv;
  created : JobState.t;
  written : nat;
}.

(** The states the worker takes its job through, the oldest first: the job
    as it was created, then its state after each assignment of
    [_download_worker]. *)
Definition states (t : Task) : list JobState.t :=
  reverse
    (history (_download_worker (req t) (env t) (worker_start (created t))).2).

(** The job object as the other threads see it now. *)
Definition current (t : Task) : JobState.t :=
  default (created t) (states t !! written t).

(** The worker has made its last assignment: all that is left to it is to
    return. *)
Definition returned (t : Task) : Prop :=
  S (written t) = length (states t).

(** The dictionary [jobs]. *)
Definition jobs (tasks : gmap pystr Task) : gmap pystr JobState.t :=
  current <$> tasks.

Inductive Action :=
| Download (req : DownloadRequest.t) (env : WorkerEnv) (uuid : pystr)
    (now : float)                       (* [POST /api/download] *)
| Assign (job_id : pystr)               (* the next assignment of a worker *)
| Progress (job_id : pystr) (now : float) (* [GET /api/progress/{job_id}] *)
| Status.                               (* [GET /api/status] *)

(** [uuid4] is not expected to draw an identifier twice; if it did, the
    new job would take the place of the old one in the dictionary. *)
Definition step (tasks : gmap pystr Task) (a : Action) : gmap pystr Task :=
  match a with
  | Download req env uuid now =>
      match api_download req uuid now (jobs tasks) with
      | inr (_, job) =>
          <[uuid := {| req := req; env := env; created := job;
                       written := 0 |}]> tasks
      | inl _ => tasks
      end
  | Assign job_id =>
      match tasks !! job_id with
      | Some t =>
          if S (written t) <? length (states t)
          then <[job_id := {| req := req t; env := env t;
                              created := created t;
                              written := S (written t) |}]> tasks
          else tasks
      | None => tasks
      end
  | Progress _ _ | Status => tasks
  end.

Definition run (actions : list Action) (tasks : gmap pystr Task)
  : gmap pystr Task :=
  foldl step tasks actions.

(** The action is a [POST /api/download] that draws [job_id]. *)
Definition draws (job_id : pystr) (a : Action) : bool :=
  match a with
  | Download _ _ uuid _ => bool_decide (uuid = job_id)
  | _ => false
  end.
End V3_server.

Module V4_server.
Import V4.

(** A background task: the request, the URLs [api_download] resolved, the
    world the worker meets, the job as it was created and the number of
    assignments made to it so far. *)
Record Task := {
  req : DownloadRequest.t;
  urls : list pystr;
  env : WorkerEnv;
  created : Job.t;
  written : nat;
}.

(** The states [process_download_job] takes its job through, the oldest
    first; they end where the worker returns or raises. *)
Definition states (t : Task) : list Job.t :=
  reverse
    (history
       (process_download_job (env t) (DownloadRequest.audio (req t))
          (DownloadRequest.video (req t))
          (DownloadRequest.transcripts (req t))
          (DownloadRequest.concurrent_downloads (req t)) (urls t)
          (worker_start (created t))).2).

Definition current (t : Task) : Job.t :=
  default (created t) (states t !! written t).

Definition returned (t : Task) : Prop :=
  S (written t) = length (states t).

Definition jobs (tasks : gmap pystr Task) : gmap pystr Job.t :=
  current <$> tasks.

Inductive Action :=
| Download (req : DownloadRequest.t) (found : pystr + list pystr)
    (env : WorkerEnv) (uuid : pystr)    (* [POST /api/download] *)
| Assign (job_id : pystr)               (* the next assignment of a worker *)
| Progress (job_id : pystr).            (* [GET /api/progress/{job_id}] *)

Definition step (tasks : gmap pystr Task) (a : Action) : gmap pystr Task :=
  match a with
  | Download req found env uuid =>
      match api_download req found uuid (jobs tasks) with
      | inr (_, urls) =>
          <[uuid := {| req := req; urls := urls; env := env;
                       created := queued_job uuid (DownloadRequest.query req)
                                    urls;
                       written := 0 |}]> tasks
      | inl _ => tasks
      end
  | Assign job_id =>
      match tasks !! job_id with
      | Some t =>
          if S (written t) <? length (states t)
          then <[job_id := {| req := req t; urls := urls t; env := env t;
                              created := created t;
                              written := S (written t) |}]> tasks
          else tasks
      | None => tasks
      end
  | Progress _ => tasks
  end.

Definition run (actions : list Action) (tasks : gmap pystr Task)
  : gmap pystr Task :=
  foldl step tasks actions.

Definition draws (job_id : pystr) (a : Action) : bool :=
  match a with
  | Download _ _ _ uuid => bool_decide (uuid = job_id)
  | _ => false
  end.
End V4_server.
(** * Vocabulary of the theorems

    The predicates and functions in which the theorems below are stated. *)

(** [hoare P m Q E]: from a state that satisfies [P], [m] either returns a
    value [a] in a state that satisfies [Q a], or raises in a state that
    satisfies [E]. *)
Definition hoare {S A} (P : S -> Prop) (m : M S A)
    (Q : A -> S -> Prop) (E : S -> Prop) : Prop :=
  forall s, P s ->
    match m s with
    | (inr a, s') => Q a s'
    | (inl _, s') => E s'
    end.

Section V3_vocabulary.
Import V3.
Local Open Scope py_scope.

(** The nine characters the claim names. *)
Definition forbidden_chars : pystr := lit "<>:" ++ [34%N] ++ lit "/\|?*".

(** The backoff, in seconds, after the [count]-th throttle in a row. *)
Definition backoff_seconds (count : nat) : Z :=
  Z.min (2 * 2 ^ (Z.of_nat count - 1)) 60.

(** [n] throttles in a row, the [k]-th at the clock values [clock (2 * k)]
    and [clock (2 * k + 1)]. *)
Fixpoint throttles (clock : nat -> float) (n : nat) (self : RateLimitTracker)
  : RateLimitTracker :=
  match n with
  | 0 => self
  | S n' =>
      record_429 (clock (2 * n')) (clock (2 * n' + 1))
        (throttles clock n' self)
  end.

(** The reasons of a failed tool run, told apart by the tests of the
    [except subprocess.CalledProcessError] clause in the order in which the
    clause makes them. *)
Inductive Reason := RateLimited | Unavailable | AccessRestricted | Unknown.

(** The reason of a diagnostic text. *)
Definition classify (error_msg : pystr) : Reason :=
  if is_429 error_msg then RateLimited
  else if is_unavailable error_msg then Unavailable
  else if is_age_restricted error_msg then AccessRestricted
  else Unknown.

(** The state of the thread when the [try] block of [attempt] starts. *)
Definition attempted (attempt : nat) (s : DvState) : DvState :=
  {| limiter := limiter s; ticks := ticks s;
     trace := EvAttempt attempt :: trace s |}.

(** What [failed_result] returns in state [s]. *)
Definition failure (env : ItemEnv) (url : pystr) (start_time : float)
    (error : pystr) (retries : nat) (ip : pystr) (s : DvState)
  : DownloadResult.t :=
  {| DownloadResult.url := url;
     DownloadResult.title := video_title env;
     DownloadResult.status := lit "failed";
     DownloadResult.error := Some error;
     DownloadResult.duration := (clock env (ticks s) - start_time)%float;
     DownloadResult.size_mb := 0%float;
     DownloadResult.retries := retries;
     DownloadResult.ip := ip;
     DownloadResult.timestamp := now_iso env |}.

(** The state of the thread after one more read of the clock. *)
Definition tick (s : DvState) : DvState :=
  {| limiter := limiter s; ticks := S (ticks s); trace := trace s |}.

(** The fixed texts of the two terminal classifications. *)
Definition terminal_text (r : Reason) : pystr :=
  match r with
  | AccessRestricted => lit "Age-restricted (need cookies)"
  | _ => lit "Video unavailable"
  end.

(** The number of attempts in a trace. *)
Fixpoint count_attempts (tr : list Event) : nat :=
  match tr with
  | [] => 0
  | EvAttempt _ :: tr' => S (count_attempts tr')
  | EvSleep _ :: tr' => count_attempts tr'
  end.

(** [m] starts at most [n] attempts, whether it returns or raises. *)
Definition at_most {A} (n : nat) (m : M DvState A) : Prop :=
  forall s, count_attempts (trace (m s).2) ≤ count_attempts (trace s) + n.

(** An error that only the last iteration of the loop returns: before
    it, the [except] clause sleeps and continues. *)
Definition when_last (last : bool) (error : pystr) : list pystr :=
  if last then [error] else [].

(** The errors with which [download_video] can return from the iteration
    that runs in [a], by the [except] clause that catches what the attempt
    raises; [last] tells whether the iteration is the last of the loop.  A
    throttled attempt returns the rotation text when the tracker asks for a
    rotation; it reaches the tests that follow only in the last iteration. *)
Definition attempt_errors (audio video transcripts : bool) (a : AttemptEnv)
    (last : bool) : list pystr :=
  match run_tool audio video transcripts a with
  | None =>
      match (if audio then audio_size a else inr 0%float) with
      | inl str_e => when_last last (take 150 str_e)
      | inr _ => []
      end
  | Some (CalledProcessError stderr str_e) =>
      match error_message stderr str_e with
      | inl _ => []
      | inr error_msg =>
          (if is_429 error_msg
           then [lit "Rate limited - IP rotation needed"] else []) ++
          (if is_429 error_msg && negb last then []
           else if is_unavailable error_msg then [lit "Video unavailable"]
           else if is_age_restricted error_msg
           then [lit "Age-restricted (need cookies)"]
           else when_last last (take 150 error_msg))
      end
  | Some TimeoutExpired =>
      when_last last (lit "Timeout - video too large or connection slow")
  | Some (OtherException str_e) => when_last last (take 150 str_e)
  end.

(** The result comes from an iteration of the loop: it counts that
    iteration as its last retry and carries one of its errors. *)
Definition reports_last_attempt (env : ItemEnv)
    (audio video transcripts : bool) (r : DownloadResult.t) : Prop :=
  exists attempt error,
    attempt < MAX_RETRIES /\
    DownloadResult.retries r = S attempt /\
    DownloadResult.error r = Some error /\
    error ∈ attempt_errors audio video transcripts (attempt_env env attempt)
              (negb (attempt <? MAX_RETRIES - 1)).

(** A result whose status is one of the two the worker counts. *)
Definition status_ok (r : DownloadResult.t) : Prop :=
  DownloadResult.status r = lit "success" \/
  DownloadResult.status r = lit "failed".

(** Every value [m] returns satisfies [P]. *)
Definition returns {S A} (P : A -> Prop) (m : M S A) : Prop :=
  forall s a s', m s = (inr a, s') -> P a.

(** Every result of the job is counted, as a success or as a failure. *)
Definition counts_ok (j : JobState.t) : Prop :=
  JobState.completed_videos j + JobState.failed_videos j
  = length (JobState.results j).

(** A job whose status is ['complete'] has a result for every item. *)
Definition complete_ok (j : JobState.t) : Prop :=
  JobState.status j = lit "complete" ->
  JobState.completed_videos j + JobState.failed_videos j
    = JobState.total_videos j /\
  length (JobState.results j) = JobState.total_videos j.

(** Every state the job has been in passes [complete_ok]. *)
Definition history_ok (w : WorkerState) : Prop :=
  Forall complete_ok (history w).

(** Between two per-item updates, [k] of the [n] items having completed. *)
Definition looping (n k : nat) (w : WorkerState) : Prop :=
  JobState.status (job w) = lit "downloading" /\
  JobState.total_videos (job w) = n /\
  counts_ok (job w) /\
  length (JobState.results (job w)) = k /\
  history_ok w.

(** Inside a per-item update, between the append and the count. *)
Definition appended (n k : nat) (w : WorkerState) : Prop :=
  JobState.status (job w) = lit "downloading" /\
  JobState.total_videos (job w) = n /\
  JobState.completed_videos (job w) + JobState.failed_videos (job w) + 1
    = length (JobState.results (job w)) /\
  length (JobState.results (job w)) = k + 1 /\
  history_ok w.

(** What [resolve] returns, or the exception it raises. *)
Definition resolved_urls (req : DownloadRequest.t) (env : WorkerEnv)
  : pystr + list pystr :=
  match DownloadRequest.urls req with
  | Some (u :: us) => inr (u :: us)
  | _ =>
      if DownloadRequest.is_url req
      then inr [strip (DownloadRequest.query req)]
      else
        match first_results
                [search_ytdlp (search_env env);
                 search_duckduckgo (search_env env);
                 search_youtube_direct (search_env env);
                 search_bing (search_env env)] with
        | Some results =>
            inr (slice_to (DownloadRequest.max_results req) results)
        | None => inl (lit "All search methods failed")
        end
  end.

(** [as_completed] yields every submitted future once. *)
Definition as_completed_ok (req : DownloadRequest.t) (env : WorkerEnv) : Prop :=
  forall results,
    resolved_urls req env = inr results ->
    Permutation (completion_order env) (seq 0 (length results)).

(** The job when the [try] block starts: nothing counted yet. *)
Definition started (w : WorkerState) : Prop :=
  JobState.status (job w) = lit "downloading" /\
  JobState.completed_videos (job w) = 0 /\
  JobState.failed_videos (job w) = 0 /\
  JobState.results (job w) = [] /\
  history_ok w.

(** The job as [api_download] creates it: nothing counted. *)
Definition fresh (w : WorkerState) : Prop :=
  JobState.completed_videos (job w) = 0 /\
  JobState.failed_videos (job w) = 0 /\
  JobState.results (job w) = [] /\
  history_ok w.

(** A state whose job passes [complete_ok]. *)
Definition settled (w : WorkerState) : Prop :=
  complete_ok (job w) /\ history_ok w.

(** The URLs of the results of the job, in the order of the list. *)
Definition results_are (urls : list pystr) (w : WorkerState) : Prop :=
  map DownloadResult.url (JobState.results (job w)) = urls.

(** [m] keeps [P], whether it returns or raises. *)
Definition stable {A} (P : WorkerState -> Prop) (m : M WorkerState A) : Prop :=
  hoare P m (fun _ => P) P.

(** [P] survives every assignment to the job and every other effect of the
    worker. *)
Definition write_proof (P : WorkerState -> Prop) : Prop :=
  (forall f w, P w ->
     P {| job := f (job w); history := f (job w) :: history w;
          events := events w |}) /\
  (forall ev w, P w ->
     P {| job := job w; history := history w; events := ev :: events w |}).

(** The history starts with the job as it is. *)
Definition head_is_job (w : WorkerState) : Prop :=
  exists h, history w = job w :: h.

(** The states [h] are still in the history, below what came after. *)
Definition remembers (h : list JobState.t) (w : WorkerState) : Prop :=
  h `suffix_of` history w.

(** The job with another query. *)
Definition with_query (query : pystr) (j : JobState.t) : JobState.t :=
  {| JobState.job_id := JobState.job_id j; JobState.query := query;
     JobState.status := JobState.status j;
     JobState.progress := JobState.progress j;
     JobState.message := JobState.message j;
     JobState.total_videos := JobState.total_videos j;
     JobState.completed_videos := JobState.completed_videos j;
     JobState.failed_videos := JobState.failed_videos j;
     JobState.start_time := JobState.start_time j;
     JobState.results := JobState.results j |}.

End V3_vocabulary.

Section V4_vocabulary.
Import V4.

(** Every result of the job is counted, as a success or as a failure. *)
Definition counts_ok4 (j : Job.t) : Prop :=
  Job.completed_videos j + Job.failed_videos j = length (Job.results j).

(** A job whose status is ['complete'] has a result for every item. *)
Definition complete_ok4 (j : Job.t) : Prop :=
  Job.status j = lit "complete" ->
  Job.completed_videos j + Job.failed_videos j = Job.total_videos j /\
  length (Job.results j) = Job.total_videos j.

(** Every state the job has been in passes [complete_ok4]. *)
Definition history_ok4 (w : WorkerState) : Prop :=
  Forall complete_ok4 (history w).

(** Between two per-item updates, [k] of the [n] items having been
    collected. *)
Definition looping4 (n k : nat) (w : WorkerState) : Prop :=
  Job.status (job w) = lit "downloading" /\
  Job.total_videos (job w) = n /\
  counts_ok4 (job w) /\
  length (Job.results (job w)) = k /\
  history_ok4 w.

(** The URLs of the results of the job, in the order of the list. *)
Definition results_are4 (urls : list pystr) (w : WorkerState) : Prop :=
  map Result.url (Job.results (job w)) = urls.

(** [P] survives every assignment to the job and every other effect of the
    worker. *)
Definition write_proof4 (P : WorkerState -> Prop) : Prop :=
  (forall f w, P w ->
     P {| job := f (job w); history := f (job w) :: history w;
          events := events w |}) /\
  (forall ev w, P w ->
     P {| job := job w; history := history w; events := ev :: events w |}).

(** The history starts with the job as it is. *)
Definition head_is_job4 (w : WorkerState) : Prop :=
  exists h, history w = job w :: h.

(** The states [h] are still in the history, below what came after. *)
Definition remembers4 (h : list Job.t) (w : WorkerState) : Prop :=
  h `suffix_of` history w.

End V4_vocabulary.

Section shared_vocabulary.

(** The two terminal values of a job status. *)
Definition terminal (status : pystr) : Prop :=
  status = lit "complete" \/ status = lit "failed".

(** A pool in which [calls] run at once, none waiting. *)
Definition running_calls (max_workers : Z) (calls : list nat) : Pool :=
  {| max_workers := max_workers; queued := []; running := calls;
     finished := [] |}.

(** A pool with four calls running at once. *)
Definition four_running (max_workers : Z) : Pool :=
  {| max_workers := max_workers; queued := []; running := [3; 2; 1; 0];
     finished := [] |}.

(** The fields of a response of the Tor-backed engine other than
    [elapsed]. *)
Definition stable_fields (r : V3.ProgressResponse.t) :=
  (V3.ProgressResponse.job_id r, V3.ProgressResponse.status r,
   V3.ProgressResponse.progress r, V3.ProgressResponse.message r,
   V3.ProgressResponse.total_videos r, V3.ProgressResponse.completed r,
   V3.ProgressResponse.failed r, V3.ProgressResponse.start_time r,
   V3.ProgressResponse.results r).

End shared_vocabulary.

Section instances.
Import V3 Examples.

(** The state of [fresh_thread] after the clock read of [start_time] and a
    backoff check that finds nothing to wait for. *)
Definition fresh_thread_checked : DvState :=
  {| limiter := RateLimitTracker_default; ticks := 2; trace := [] |}.

(** Diagnostics of the media tool. *)
Definition unavailable_text : pystr :=
  lit "ERROR: [youtube] abc: Video unavailable".

Definition throttled_text : pystr := lit "HTTP Error 429: Too Many Requests".

Definition exit_status_text : pystr :=
  lit "Command returned non-zero exit status 1.".

(** The job of [request_one_url] when its worker has returned. *)
Definition finished_one : V3.JobState.t :=
  V3.job (V3._download_worker request_one_url worker_one_ok
            (V3.worker_start queued_one)).2.

(** The same job after the per-item update of its only item. *)
Definition updated_one : V3.JobState.t :=
  V3.job (V3.worker_until request_one_url worker_one_ok [0]
            (V3.worker_start queued_one)).2.

(** The job of the engine without Tor for one URL, when it has ended. *)
Definition finished_one4 : V4.Job.t :=
  V4.job (V4.process_download_job worker_ok4 true false false (Some 3%Z)
            [video_url] (V4.worker_start queued_one4)).2.

End instances.

(** * More vocabulary

    The predicates of the theorems about the rest of the code. *)

Section more_v3_vocabulary.
Import V3.

(** The tracker as [record_success] leaves it. *)
Definition reset (t : RateLimitTracker) : Prop :=
  consecutive_429s t = 0 /\ ip_rotation_needed t = false.

Definition succeeded (r : DownloadResult.t) : bool :=
  bool_decide (DownloadResult.status r = lit "success").

(** What every result of [download_video(url, ...)] looks like. *)
Definition result_shape (env : ItemEnv) (url : pystr) (r : DownloadResult.t)
  : Prop :=
  DownloadResult.url r = url /\
  DownloadResult.title r = video_title env /\
  DownloadResult.timestamp r = now_iso env /\
  ((DownloadResult.status r = lit "success" /\ DownloadResult.error r = None)
   \/
   (DownloadResult.status r = lit "failed" /\
    DownloadResult.error r <> None /\
    DownloadResult.size_mb r = 0%float)).

(** The thread has started [n] attempts. *)
Definition attempts_are (n : nat) (s : DvState) : Prop :=
  count_attempts (trace s) = n.

(** What [download_video] promises about the result [r] it returns in
    state [s], [base] attempts having been started before the call. *)
Definition accounted (env : ItemEnv) (url : pystr) (base : nat)
    (r : DownloadResult.t) (s : DvState) : Prop :=
  result_shape env url r /\
  attempts_are
    (base + DownloadResult.retries r + (if succeeded r then 1 else 0)) s /\
  (succeeded r = true ->
   exists attempt tracker,
     reset tracker /\
     limiter s = others_returning (attempt_env env attempt) tracker).

End more_v3_vocabulary.

Section tally_vocabulary.

(** The number of results of the Tor-backed engine with a given status. *)
Definition with_status (status : pystr) (rs : list V3.DownloadResult.t) : nat :=
  length (List.filter
            (fun r => bool_decide (V3.DownloadResult.status r = status)) rs).

(** The two counters of a job say how many of its results succeeded and how
    many failed. *)
Definition tallied (j : V3.JobState.t) : Prop :=
  V3.JobState.completed_videos j
    = with_status (lit "success") (V3.JobState.results j) /\
  V3.JobState.failed_videos j
    = with_status (lit "failed") (V3.JobState.results j).

(** The same for the engine without Tor. *)
Definition with_status4 (status : pystr) (rs : list V4.Result.t) : nat :=
  length (List.filter (fun r => bool_decide (V4.Result.status r = status)) rs).

Definition tallied4 (j : V4.Job.t) : Prop :=
  V4.Job.completed_videos j = with_status4 (lit "success") (V4.Job.results j) /\
  V4.Job.failed_videos j = with_status4 (lit "failed") (V4.Job.results j).

End tally_vocabulary.

Section more_instances.
Import V3 Examples.

(** What [download_video] returns for [item_ok] in a thread that finds two
    throttles on the tracker, and the state it leaves. *)
Definition success_first_try : DownloadResult.t :=
  {| DownloadResult.url := video_url;
     DownloadResult.title := lit "Some title";
     DownloadResult.status := lit "success";
     DownloadResult.error := None;
     DownloadResult.duration := 2%float;
     DownloadResult.size_mb := 4.5%float;
     DownloadResult.retries := 0;
     DownloadResult.ip := lit "185.220.101.7";
     DownloadResult.timestamp := lit "2025-10-19T12:00:00" |}.

Definition thread_after_success : DvState :=
  {| limiter := record_success tracker_two_throttles; ticks := 3;
     trace := [EvAttempt 0] |}.

(** The download succeeds at once, and another thread records a throttle
    before it returns. *)
Definition item_overtaken : ItemEnv :=
  {| clock := clock item_ok;
     video_title := video_title item_ok;
     attempt_env := fun attempt =>
       {| others_waiting := fun l => l;
          run_audio := None;
          run_video := None;
          run_transcripts := None;
          others_running := fun l => l;
          audio_size := inr 4.5%float;
          tor_ip := lit "185.220.101.7";
          others_returning := record_429 2%float 2%float |};
     now_iso := now_iso item_ok |}.

(** The thread of [item_timeouts] when its third attempt has timed out. *)
Definition thread_after_timeouts : DvState :=
  {| limiter := RateLimitTracker_default; ticks := 4;
     trace := [EvAttempt 2; EvSleep 4%float; EvAttempt 1; EvSleep 2%float;
               EvAttempt 0] |}.

End more_instances.

Section progress_vocabulary.

(** [progress_percent done total] is within 0 and 100, is the floor of the
    exact percentage or one below it, is 100 only when [done = total], and
    does not go down with the next item; both engines compute it alike. *)
Definition progress_ok (done total : nat) : bool :=
  let p := V3.progress_percent done total in
  let exact := (100 * Z.of_nat done / Z.of_nat total)%Z in
  (0 <=? p)%Z && (p <=? 100)%Z &&
  (exact - 1 <=? p)%Z && (p <=? exact)%Z &&
  bool_decide (p = 100%Z <-> done = total) &&
  ((total <=? done) || (p <=? V3.progress_percent (S done) total)%Z) &&
  (V4.progress_percent done total =? p)%Z.

Definition progress_ok_upto (limit : nat) : bool :=
  forallb (fun total => forallb (fun done => progress_ok done total)
                          (seq 0 (S total)))
    (seq 1 limit).

(** A search method that found nothing: it raised or returned no URL. *)
Definition found_nothing (method : pystr + list pystr) : Prop :=
  forall u us, method <> inr (u :: us).

End progress_vocabulary.

Section endpoint_instances.
Import V3 Examples.

(** A search in which yt-dlp finds nothing, DuckDuckGo times out and the
    results page of YouTube lists three videos. *)
Definition search_third_finds : SearchEnv :=
  {| search_ytdlp := inr [];
     search_duckduckgo := inl (lit "HTTPSConnectionPool: Read timed out.");
     search_youtube_direct :=
       inr [lit "https://www.youtube.com/watch?v=aaaaaaaaaaa";
            lit "https://www.youtube.com/watch?v=bbbbbbbbbbb";
            lit "https://www.youtube.com/watch?v=ccccccccccc"];
     search_bing := inr [lit "https://youtu.be/d"] |}.

(** A search for at most two videos. *)
Definition search_two : SearchRequest.t :=
  {| SearchRequest.query := lit "lofi beats";
     SearchRequest.max_results := 2;
     SearchRequest.is_url := false |}.

End endpoint_instances.
Section status_vocabulary.

(** The two job counts of the answer of [GET /api/status]: the active jobs
    and all jobs. *)
Definition status_counts (env : V3.Tor.Env) (cookies_file : option pystr)
    (jobs : gmap pystr V3.JobState.t) (s : V3.Tor.State)
  : option (nat * nat) :=
  match V3.api_status env cookies_file jobs s with
  | (inr r, _) =>
      Some (V3.StatusResponse.active_jobs r, V3.StatusResponse.total_jobs r)
  | (inl _, _) => None
  end.

End status_vocabulary.

Section tor_instances.
Import V3.

(** A Tor daemon that works: the clock advances ten seconds per read, the
    address service answers with a line, and the control port accepts
    every connection. *)
Definition tor_up : Tor.Env :=
  {| Tor.clock := fun n => float_of_Z (10 * Z.of_nat n);
     Tor.tor_address := fun _ => inr (lit "185.220.101.7" ++ [10%N]);
     Tor.real_address := fun _ => inr (lit "203.0.113.9" ++ [10%N]);
     Tor.control := fun _ => None |}.

(** The state of the module after import. *)
Definition tor_start : Tor.State :=
  {| Tor.cache := Tor.tor_ip_cache; Tor.ticks := 0; Tor.lookups := 0;
     Tor.signals := 0; Tor.trace := [] |}.

End tor_instances.
Section search_vocabulary.
Import V3.

(** The text the pattern of [_search_ytdlp] matches: a scheme, an optional
    [www.], one of the two paths and a tail without space or newline. *)
Definition url_shape (u : pystr) : Prop :=
  exists scheme www path tail,
    scheme ∈ [lit "http"; lit "https"] /\
    www ∈ [[]; lit "www."] /\
    path ∈ [lit "youtube.com/watch?v="; lit "youtu.be/"] /\
    tail <> [] /\
    Forall (fun c => c <> 32%N /\ c <> 10%N) tail /\
    u = scheme ++ lit "://" ++ www ++ path ++ tail.

(** What the loop of [_search_duckduckgo] makes of one link of the page
    before it looks at it: [None] when the link is dropped. *)
Definition duckduckgo_target (uddg : pystr -> option pystr) (u : pystr)
  : option pystr :=
  let u := if starts_with (lit "//") u then lit "https:" ++ u else u in
  if contains (lit "uddg=") u then uddg u else Some u.

(** A URL of the results page of YouTube: the fixed prefix and an id of 11
    characters. *)
Definition watch_url (u : pystr) : Prop :=
  exists v,
    u = lit "https://www.youtube.com/watch?v=" ++ v /\
    length v = 11 /\ forallb is_id_char v = true.

End search_vocabulary.

Section search_instances.
Import V3.

(** A text between double quotes. *)
Definition quoted (s : pystr) : pystr := [34%N] ++ s ++ [34%N].

(** A page with three links, two of them to videos. *)
Definition links_page : pystr :=
  lit "<a href=" ++ quoted (lit "https://www.youtube.com/watch?v=abc") ++
  lit ">one</a> <a href=" ++ quoted (lit "/help") ++
  lit ">help</a> <a href=" ++ quoted (lit "//youtu.be/xyz") ++ lit ">two</a>".

(** A results page of YouTube that names two videos. *)
Definition youtube_results_page : pystr :=
  lit "{url:/watch?v=aaaaaaaaaaa},{url:/watch?v=bbbbbbbbbbb&t=1}".

(** What the media tool prints for a search: two lines, the same video
    twice. *)
Definition ytdlp_listing : CompletedProcess.t :=
  {| CompletedProcess.returncode := 0;
     CompletedProcess.stdout :=
       lit "[youtube] https://www.youtube.com/watch?v=abc" ++ [10%N] ++
       lit "[youtube] https://www.youtube.com/watch?v=abc" ++ [10%N];
     CompletedProcess.stderr := [] |}.

(** A network on which the media tool cannot be run and DuckDuckGo times
    out. *)
Definition world_without_ytdlp : SearchWorld :=
  {| ytdlp_result := None;
     duckduckgo_page := inl (lit "HTTPSConnectionPool: Read timed out.");
     uddg_target := fun u => Some u;
     youtube_page := inr youtube_results_page;
     bing_page := inr links_page |}.

End search_instances.
Section launch_vocabulary.

(** The events by which the worker of the Tor-backed engine hands work to
    the pool. *)
Definition is_launch (ev : V3.WorkerEvent) : bool :=
  match ev with
  | V3.PoolCreated _ | V3.Submitted _ _ => true
  | _ => false
  end.

(** What the worker handed to the pool, oldest first. *)
Definition launches (w : V3.WorkerState) : list V3.WorkerEvent :=
  List.filter is_launch (reverse (V3.events w)).

(** The same for the engine without Tor, all of whose events are of this
    kind. *)
Definition launches4 (w : V4.WorkerState) : list V4.WorkerEvent :=
  reverse (V4.events w).

End launch_vocabulary.

Section server_instances.
Import Examples.

Definition job_five : pystr := lit "5d2c35a0-7c1e-4c43-8f0e-2f4d8f3b6a10".

(** The task of [request_one_url] when its worker has returned. *)
Definition task_one : V3_server.Task :=
  {| V3_server.req := request_one_url; V3_server.env := worker_one_ok;
     V3_server.created := queued_one; V3_server.written := 10 |}.

(** The registry of a server that has taken [request_one_url] and has let
    its worker run to its last assignment. *)
Definition server_one : gmap pystr V3_server.Task :=
  V3_server.run
    (V3_server.Download request_one_url worker_one_ok job_one 100%float
     :: replicate 10 (V3_server.Assign job_one)) ∅.

(** What the server does between two polls of the job: it takes another
    job, whose worker makes its first assignments, answers a poll and a
    status request, and gives the worker of the job one more turn. *)
Definition between_polls : list V3_server.Action :=
  [V3_server.Download request_five worker_five_ok job_five 150%float;
   V3_server.Assign job_five; V3_server.Assign job_five;
   V3_server.Progress job_one 160%float; V3_server.Status;
   V3_server.Assign job_one].

Definition request_one4 : V4.DownloadRequest.t :=
  {| V4.DownloadRequest.query := lit "one video";
     V4.DownloadRequest.audio := true;
     V4.DownloadRequest.video := false;
     V4.DownloadRequest.transcripts := false;
     V4.DownloadRequest.format := lit "mp3";
     V4.DownloadRequest.max_results := None;
     V4.DownloadRequest.concurrent_downloads := Some 3%Z;
     V4.DownloadRequest.search_type := lit "direct";
     V4.DownloadRequest.urls := Some [video_url] |}.

Definition task_one4 : V4_server.Task :=
  {| V4_server.req := request_one4; V4_server.urls := [video_url];
     V4_server.env := worker_ok4; V4_server.created := queued_one4;
     V4_server.written := 13 |}.

Definition server_one4 : gmap pystr V4_server.Task :=
  V4_server.run
    (V4_server.Download request_one4 (inr []) worker_ok4 job_one
     :: replicate 13 (V4_server.Assign job_one)) ∅.

Definition between_polls4 : list V4_server.Action :=
  [V4_server.Download request_one4 (inr []) worker_ok4 job_five;
   V4_server.Assign job_five; V4_server.Progress job_one;
   V4_server.Assign job_one].
End server_instances.

Section line_vocabulary.

(** [sep.join(pieces)] for a separator of one character. *)
Fixpoint join_char (sep : N) (pieces : list pystr) : pystr :=
  match pieces with
  | [] => []
  | [piece] => piece
  | piece :: pieces' => piece ++ sep :: join_char sep pieces'
  end.

(** A text that is not empty. *)
Definition nonempty (s : pystr) : bool :=
  match s with [] => false | _ => true end.

End line_vocabulary.

(** * Facts about the Python primitives *)

Lemma contains_nil_r (needle : pystr) :
  contains needle [] = match needle with [] => true | _ => false end.
Proof. destruct needle; reflexivity. Qed.

Lemma lstrip_subset (s : pystr) (c : N) : c ∈ lstrip s -> c ∈ s.
Proof.
  induction s as [|a s IH]; simpl; [done|].
  destruct (is_space a); [|done].
  intros H. right. by apply IH.
Qed.

Lemma strip_subset (s : pystr) (c : N) : c ∈ strip s -> c ∈ s.
Proof.
  unfold strip. rewrite elem_of_reverse. intros H.
  apply lstrip_subset in H. rewrite elem_of_reverse in H.
  by apply lstrip_subset.
Qed.

Lemma slice_to_subset {A} (n : Z) (l : list A) (x : A) :
  x ∈ slice_to n l -> x ∈ l.
Proof.
  unfold slice_to.
  destruct (0 <=? n)%Z; rewrite elem_of_take;
    intros (i & Hi & _); by apply list_elem_of_lookup_2 in Hi.
Qed.

Lemma slice_to_length {A} (n : Z) (l : list A) :
  (0 <= n)%Z -> length (slice_to n l) ≤ Z.to_nat n.
Proof.
  intros Hn. unfold slice_to.
  destruct (Z.leb_spec 0 n); [|lia].
  rewrite length_take. lia.
Qed.



(** ** Hoare triples for the monad *)

Lemma hoare_ret {S A} (P : S -> Prop) (a : A) (Q : A -> S -> Prop) E :
  (forall s, P s -> Q a s) -> hoare P (ret a) Q E.
Proof. intros H s Hs. by apply H. Qed.

Lemma hoare_raise {S A} (P : S -> Prop) e (Q : A -> S -> Prop) (E : S -> Prop) :
  (forall s, P s -> E s) -> hoare P (raise e) Q E.
Proof. intros H s Hs. by apply H. Qed.

Lemma hoare_of_sum {S A} (P : S -> Prop) (r : pystr + A) (Q : A -> S -> Prop)
    (E : S -> Prop) :
  (forall s, P s -> match r with inr a => Q a s | inl _ => E s end) ->
  hoare P (of_sum r) Q E.
Proof. intros H s Hs. specialize (H s Hs). unfold of_sum. by destruct r. Qed.

Lemma hoare_get {S} (P : S -> Prop) (Q : S -> S -> Prop) E :
  (forall s, P s -> Q s s) -> hoare P get Q E.
Proof. intros H s Hs. by apply H. Qed.

Lemma hoare_modify {S} (P : S -> Prop) (f : S -> S) (Q : unit -> S -> Prop) E :
  (forall s, P s -> Q tt (f s)) -> hoare P (modify f) Q E.
Proof. intros H s Hs. by apply H. Qed.

Lemma hoare_bind {S A B} (P : S -> Prop) (m : M S A) (k : A -> M S B)
    (R : A -> S -> Prop) (Q : B -> S -> Prop) (E : S -> Prop) :
  hoare P m R E -> (forall a, hoare (R a) (k a) Q E) ->
  hoare P (bind m k) Q E.
Proof.
  intros Hm Hk s Hs. unfold bind. specialize (Hm s Hs).
  destruct (m s) as [[e|a] s1]; [done|]. by apply Hk.
Qed.

Lemma hoare_try_except {S A} (P : S -> Prop) (m : M S A) (h : pystr -> M S A)
    (Q : A -> S -> Prop) (R E : S -> Prop) :
  hoare P m Q R -> (forall e, hoare R (h e) Q E) ->
  hoare P (try_except m h) Q E.
Proof.
  intros Hm Hh s Hs. unfold try_except. specialize (Hm s Hs).
  destruct (m s) as [[e|a] s1]; [by apply Hh|done].
Qed.

Lemma hoare_consequence {S A} (P P' : S -> Prop) (m : M S A)
    (Q Q' : A -> S -> Prop) (E E' : S -> Prop) :
  hoare P' m Q' E' ->
  (forall s, P s -> P' s) ->
  (forall a s, Q' a s -> Q a s) ->
  (forall s, E' s -> E s) ->
  hoare P m Q E.
Proof.
  intros Hm HP HQ HE s Hs. specialize (Hm s (HP s Hs)).
  destruct (m s) as [[e|a] s1]; auto.
Qed.

(** A step that keeps an invariant, before a continuation. *)
Lemma hoare_seq {S A B} (P : S -> Prop) (m : M S A) (k : A -> M S B)
    (Q : B -> S -> Prop) (E : S -> Prop) :
  hoare P m (fun _ => P) E -> (forall a, hoare P (k a) Q E) ->
  hoare P (bind m k) Q E.
Proof. intros Hm Hk. by apply (hoare_bind P m k (fun _ => P)). Qed.

(** Any computation, when nothing is asked of it. *)
Lemma hoare_any {S A} (m : M S A) :
  hoare (fun _ => True) m (fun _ _ => True) (fun _ => True).
Proof. intros s _. by destruct (m s) as [[e|a] s1]. Qed.

(** A fact that does not depend on the state. *)
Lemma hoare_pure {S A} (fact : Prop) (m : M S A) (Q : A -> S -> Prop)
    (E : S -> Prop) :
  (fact -> hoare (fun _ => True) m Q E) -> hoare (fun _ => fact) m Q E.
Proof. intros H s Hs. by apply H. Qed.

Lemma bind_ext {S A B} (m : M S A) (k k' : A -> M S B) (s : S) :
  (forall a s1, k a s1 = k' a s1) -> bind m k s = bind m k' s.
Proof.
  intros H. unfold bind. destruct (m s) as [[e|a] s1]; [done|apply H].
Qed.

(** ** The executor never runs more calls than it has workers *)

Lemma pool_step_running p p' :
  pool_step p p' ->
  max_workers p' = max_workers p /\
  ((Z.of_nat (length (running p)) <= Z.max 0 (max_workers p))%Z ->
   (Z.of_nat (length (running p')) <= Z.max 0 (max_workers p))%Z).
Proof.
  intros Hstep. destruct Hstep as [p i|p i waiting Hq Hfree|p i before after Hr];
    cbn [max_workers running]; split; try done.
  - intros _. cbn [length]. lia.
  - rewrite Hr, !length_app. cbn [length]. lia.
Qed.

Lemma pool_reachable_running m p :
  pool_reachable m p ->
  max_workers p = m /\ (Z.of_nat (length (running p)) <= Z.max 0 m)%Z.
Proof.
  induction 1 as [|p p' _ [Hm IH] Hstep].
  - split; [done|]. cbn. lia.
  - destruct (pool_step_running p p' Hstep) as [Hm' Hrun].
    rewrite Hm in *. split; [done|]. by apply Hrun.
Qed.

(** * Facts about the Tor-backed engine *)

Section V3_facts.
Import V3.

(** ** [sanitize_name] *)

Lemma sub_whitespace_runs_elem (b : bool) (s : pystr) (c : N) :
  c ∈ sub_whitespace_runs b s ->
  c = 95%N \/ (c ∈ s /\ is_space c = false).
Proof.
  revert b. induction s as [|a s IH]; intros b; simpl.
  - by rewrite elem_of_nil.
  - destruct (is_space a) eqn:Ha.
    + destruct b; simpl.
      * intros H. destruct (IH _ H) as [->|[? ?]]; [by left|].
        right. split; [by right|done].
      * rewrite elem_of_cons. intros [->|H]; [by left|].
        destruct (IH _ H) as [->|[? ?]]; [by left|].
        right. split; [by right|done].
    + rewrite elem_of_cons. intros [->|H].
      * right. split; [by left|done].
      * destruct (IH _ H) as [->|[? ?]]; [by left|].
        right. split; [by right|done].
Qed.

Lemma in_class_false_notin (class : pystr) (c : N) :
  in_class class c = false -> c ∉ class.
Proof.
  unfold in_class. intros H Hin.
  apply list_elem_of_In in Hin.
  assert (existsb (N.eqb c) class = true) as E.
  { apply existsb_exists. exists c. split; [done|apply N.eqb_refl]. }
  congruence.
Qed.

Lemma in_class_app_false (c1 c2 : pystr) (c : N) :
  in_class (c1 ++ c2) c = false ->
  in_class c1 c = false /\ in_class c2 c = false.
Proof.
  unfold in_class. rewrite existsb_app. apply orb_false_elim.
Qed.

Lemma removed_class_forbidden (c : N) :
  in_class removed_class c = false -> c ∉ forbidden_chars.
Proof.
  intros H. apply in_class_false_notin.
  change removed_class with (forbidden_chars ++ [10%N; 13%N; 9%N]) in H.
  by apply in_class_app_false in H as [H _].
Qed.

Lemma search_results_clean :
  Forall (fun c => (c ∉ forbidden_chars) /\ is_space c = false)
    (lit "search_results").
Proof. apply (bool_decide_unpack _). by vm_compute. Qed.

(** C10: [sanitize_name(s)], with the default [max_len] of 80, is never
    empty, has at most 80 characters, contains none of the characters
    less-than, greater-than, colon, double quote, slash, backslash, bar,
    question mark and star, contains no whitespace character, and is exactly
    ['search_results'] when [s] is empty or is empty after the removal of the
    character class. *)
Theorem sanitize_name_spec (s : pystr) :
  let r := sanitize_name s sanitize_name_default_max_len in
  r <> [] /\
  length r ≤ 80 /\
  (forall c, c ∈ r -> (c ∉ forbidden_chars) /\ is_space c = false) /\
  ((s = [] \/ List.filter (fun c => negb (in_class removed_class c)) s = [])
   -> r = lit "search_results").
Proof.
  unfold sanitize_name, sanitize_name_default_max_len.
  set (s1 := List.filter _ s) in *.
  destruct (sub_whitespace_runs false (strip s1)) as [|a t] eqn:E; cbv zeta.
  - split; [done|]. split; [vm_compute; lia|]. split; [|done].
    apply Forall_forall, search_results_clean.
  - split; [done|]. split.
    { exact (slice_to_length 80 (a :: t) ltac:(lia)). }
    split.
    + intros c Hc. apply slice_to_subset in Hc. rewrite <- E in Hc.
      apply sub_whitespace_runs_elem in Hc as [->|[Hc Hsp]].
      * split; [|reflexivity].
        apply (bool_decide_unpack _). by vm_compute.
      * split; [|done]. apply strip_subset in Hc.
        apply list_elem_of_In, filter_In in Hc as [_ Hc].
        apply negb_true_iff in Hc. by apply removed_class_forbidden.
    + intros [->|Hs].
      * discriminate E.
      * subst s1. rewrite Hs in E. discriminate E.
Qed.

(** ** The rate limit tracker *)

(** C2: [record_429] adds one to the count of consecutive throttles, stamps
    the time of the throttle, sets the rotation flag once the count has
    reached 3 (and leaves it as it was below 3), and moves the deadline to
    the clock plus [min(2 * 2^(count - 1), 60)] seconds, [count] being the
    new count; [record_success] puts the count back to 0 and the flag back
    to false. *)
Theorem record_429_record_success_spec (self : RateLimitTracker)
    (t1 t2 : float) :
  let throttled := record_429 t1 t2 self in
  consecutive_429s throttled = consecutive_429s self + 1 /\
  last_429_time throttled = t1 /\
  ip_rotation_needed throttled
    = (if 3 <=? consecutive_429s throttled then true
       else ip_rotation_needed self) /\
  backoff_until throttled
    = (t2 + float_of_Z (backoff_seconds (consecutive_429s throttled)))%float /\
  consecutive_429s (record_success self) = 0 /\
  ip_rotation_needed (record_success self) = false.
Proof.
  simpl. repeat split. lia.
Qed.

Lemma throttles_count clock n self :
  consecutive_429s (throttles clock n self) = consecutive_429s self + n.
Proof. induction n as [|n IH]; simpl; [lia|]. rewrite IH. lia. Qed.

(** After three or more throttles in a row rotation is needed, and the next
    success clears both the flag and the count. *)
Lemma throttles_need_rotation clock n self :
  3 ≤ n ->
  ip_rotation_needed (throttles clock n self) = true /\
  ip_rotation_needed (record_success (throttles clock n self)) = false /\
  consecutive_429s (record_success (throttles clock n self)) = 0.
Proof.
  intros Hn. split; [|done].
  destruct n as [|n]; [lia|]. cbn [throttles].
  unfold record_429. cbn [ip_rotation_needed]. rewrite throttles_count.
  destruct (Nat.leb_spec RATE_LIMIT_THRESHOLD
              (S (consecutive_429s self + n))) as [|Hlt]; [done|].
  unfold RATE_LIMIT_THRESHOLD in Hlt. lia.
Qed.

(** The backoff doubles from 2 seconds and stays at 60: 2, 4, 8, 16, 32, 60,
    60, ... *)
Lemma backoff_seconds_values :
  map backoff_seconds [1; 2; 3; 4; 5; 6; 7; 8]
  = [2; 4; 8; 16; 32; 60; 60; 60]%Z.
Proof. reflexivity. Qed.

Lemma backoff_seconds_monotone (m n : nat) :
  1 ≤ m -> m ≤ n ->
  (backoff_seconds m <= backoff_seconds n <= 60)%Z.
Proof.
  intros Hm Hmn. unfold backoff_seconds.
  assert (2 ^ (Z.of_nat m - 1) <= 2 ^ (Z.of_nat n - 1))%Z
    by (apply Z.pow_le_mono_r; lia).
  lia.
Qed.

End V3_facts.

(** * The retry loop of [download_video] *)

Section V3_retry_facts.
Import V3.
Local Open Scope py_scope.

Lemma bind_ok {S A B} (m : M S A) (k : A -> M S B) (s s1 : S) (a : A) :
  m s = (inr a, s1) -> bind m k s = k a s1.
Proof. intros H. unfold bind. by rewrite H. Qed.

Lemma bind_raise {S A B} (m : M S A) (k : A -> M S B) (s s1 : S) (e : pystr) :
  m s = (inl e, s1) -> bind m k s = (inl e, s1).
Proof. intros H. unfold bind. by rewrite H. Qed.

Lemma failed_result_eq env url start error retries ip s :
  failed_result env url start error retries ip s
  = (inr (failure env url start error retries ip s), tick s).
Proof. reflexivity. Qed.

Lemma classify_cases (msg : pystr) :
  match classify msg with
  | RateLimited => is_429 msg = true
  | Unavailable => is_429 msg = false /\ is_unavailable msg = true
  | AccessRestricted =>
      is_429 msg = false /\ is_unavailable msg = false /\
      is_age_restricted msg = true
  | Unknown =>
      is_429 msg = false /\ is_unavailable msg = false /\
      is_age_restricted msg = false
  end.
Proof.
  unfold classify.
  destruct (is_429 msg), (is_unavailable msg), (is_age_restricted msg); auto.
Qed.

(** Enter the [try] block of an iteration whose backoff wait went through,
    with the tool raising [CalledProcessError] with a text that decodes. *)
Ltac enter_called_process_error Hb Hr He :=
  cbn [retry_loop];
  rewrite (bind_ok _ _ _ _ _ Hb);
  rewrite (bind_ok (emit _) _ _ (attempted _ _) tt eq_refl);
  rewrite Hr, He;
  rewrite (bind_ok (of_sum (inr _)) _ _ _ _ eq_refl).

Lemma before_attempt_no_wait env attempt s :
  (clock env (ticks s)
     <? backoff_until (others_waiting (attempt_env env attempt) (limiter s)))%float
    = false ->
  before_attempt env attempt s
  = (inr tt,
     {| limiter := others_waiting (attempt_env env attempt) (limiter s);
        ticks := S (ticks s); trace := trace s |}).
Proof.
  intros Hw.
  unfold before_attempt, should_wait, update_limiter, modify, now, get,
    bind, ret; simpl.
  by rewrite Hw.
Qed.

(** C3: an iteration whose tool run is classified Unavailable or
    AccessRestricted returns at once a result with status ['failed'] and the
    fixed text of the classification: no sleep and no further attempt follow
    the attempt, and the tracker is left as it was.  In particular, when no
    rate-limit wait is due and the first run of the tool reports
    "Video unavailable", [download_video] returns status ['failed'], error
    ['Video unavailable'] and [retries = 1] (the counter counts the failed
    attempts), and the thread has made one attempt and slept not at all. *)
Theorem terminal_failure_stops_retry_loop :
  (forall env url audio video transcripts start attempt todo retries s s1
       stderr str_e msg,
     before_attempt env attempt s = (inr tt, s1) ->
     run_tool audio video transcripts (attempt_env env attempt)
       = Some (CalledProcessError stderr str_e) ->
     error_message stderr str_e = inr msg ->
     classify msg = Unavailable \/ classify msg = AccessRestricted ->
     retry_loop env url audio video transcripts start (attempt :: todo)
       retries s
     = (inr (failure env url start (terminal_text (classify msg)) (S retries)
               [] (attempted attempt s1)),
        tick (attempted attempt s1)))
  /\
  (forall env url audio video transcripts s stderr str_e msg,
     (clock env (S (ticks s))
        <? backoff_until (others_waiting (attempt_env env 0) (limiter s)))%float
       = false ->
     run_tool audio video transcripts (attempt_env env 0)
       = Some (CalledProcessError stderr str_e) ->
     error_message stderr str_e = inr msg ->
     classify msg = Unavailable ->
     exists r s',
       download_video env url audio video transcripts s = (inr r, s') /\
       DownloadResult.status r = lit "failed" /\
       DownloadResult.error r = Some (lit "Video unavailable") /\
       DownloadResult.retries r = 1 /\
       trace s' = EvAttempt 0 :: trace s).
Proof.
  split.
  - intros * Hb Hr He Hc.
    enter_called_process_error Hb Hr He.
    pose proof (classify_cases msg) as Hm.
    destruct Hc as [Hc|Hc]; rewrite Hc in *.
    + destruct Hm as [-> ->]. reflexivity.
    + destruct Hm as (-> & -> & ->). reflexivity.
  - intros * Hw Hr He Hc.
    unfold download_video.
    rewrite (bind_ok (now env) _ s (tick s) _ eq_refl).
    pose proof (before_attempt_no_wait env 0 (tick s) Hw) as Hb.
    change (seq 0 MAX_RETRIES) with [0; 1; 2].
    enter_called_process_error Hb Hr He.
    pose proof (classify_cases msg) as Hm. rewrite Hc in Hm.
    destruct Hm as [-> ->].
    eexists _, _. split; [reflexivity|]. done.
Qed.

(** The 429 branch up to the read of the rotation flag. *)
Lemma throttle_branch {A} env f (k : DvState -> M DvState A) s :
  (update_limiter f ;; rate_limiter_record_429 env ;;
   let! s0 := get in k s0) s
  = let s2 := {| limiter := record_429 (clock env (ticks s))
                              (clock env (S (ticks s))) (f (limiter s));
                 ticks := S (S (ticks s)); trace := trace s |} in
    k s2 s2.
Proof. reflexivity. Qed.

(** C4: an iteration whose tool run is classified RateLimited records a
    throttle on the shared tracker; if the rotation flag is then set, the
    item returns at once a result with status ['failed'] and the error
    ['Rate limited - IP rotation needed'], without sleeping or trying again.
    Otherwise it sleeps and retries while attempts remain, and on the last
    attempt goes on to the remaining tests. *)
Theorem rate_limited_records_throttle
    env url audio video transcripts start attempt todo retries s s1
    stderr str_e msg :
  before_attempt env attempt s = (inr tt, s1) ->
  run_tool audio video transcripts (attempt_env env attempt)
    = Some (CalledProcessError stderr str_e) ->
  error_message stderr str_e = inr msg ->
  classify msg = RateLimited ->
  let a := attempt_env env attempt in
  let throttled :=
    record_429 (clock env (ticks s1)) (clock env (S (ticks s1)))
      (others_running a (limiter s1)) in
  let s2 := {| limiter := throttled; ticks := S (S (ticks s1));
               trace := EvAttempt attempt :: trace s1 |} in
  let run :=
    retry_loop env url audio video transcripts start (attempt :: todo)
      retries s in
  consecutive_429s throttled
    = S (consecutive_429s (others_running a (limiter s1))) /\
  if ip_rotation_needed throttled then
    run = (inr (failure env url start
                  (lit "Rate limited - IP rotation needed") (S retries)
                  (tor_ip a) s2),
           tick s2)
  else if attempt <? MAX_RETRIES - 1 then
    run = (retry_sleep attempt ;;
           retry_loop env url audio video transcripts start todo (S retries))
            s2
  else
    run = (if is_unavailable msg then
             failed_result env url start (lit "Video unavailable")
               (S retries) []
           else if is_age_restricted msg then
             failed_result env url start
               (lit "Age-restricted (need cookies)") (S retries) []
           else
             failed_result env url start (take 150 msg) (S retries) [])
            s2.
Proof.
  intros Hb Hr He Hc a throttled s2 run.
  split; [reflexivity|].
  subst run.
  enter_called_process_error Hb Hr He.
  pose proof (classify_cases msg) as Hm. rewrite Hc in Hm.
  cbv beta iota in Hm. rewrite Hm.
  rewrite throttle_branch.
  change (ip_rotation_needed (limiter _)) with (ip_rotation_needed throttled).
  destruct (ip_rotation_needed throttled); [reflexivity|].
  destruct (attempt <? MAX_RETRIES - 1); reflexivity.
Qed.

(** *** The number of attempts *)

Lemma at_most_ret {A} n (a : A) : at_most n (ret a).
Proof. intros s. simpl. lia. Qed.

Lemma at_most_raise {A} n e : at_most n (raise (A := A) e).
Proof. intros s. simpl. lia. Qed.

Lemma at_most_of_sum {A} n (r : pystr + A) : at_most n (of_sum r).
Proof. intros s. simpl. lia. Qed.

Lemma at_most_get n : at_most n get.
Proof. intros s. simpl. lia. Qed.

Lemma at_most_now n env : at_most n (now env).
Proof. intros s. simpl. lia. Qed.

Lemma at_most_update_limiter n f : at_most n (update_limiter f).
Proof. intros s. simpl. lia. Qed.

Lemma at_most_sleep n d : at_most n (sleep d).
Proof. intros s. unfold sleep. destruct (d <? 0)%float; simpl; lia. Qed.

Lemma at_most_bind {A B} n (m : M DvState A) (k : A -> M DvState B) :
  at_most 0 m -> (forall a, at_most n (k a)) -> at_most n (bind m k).
Proof.
  intros Hm Hk s. unfold bind.
  specialize (Hm s). destruct (m s) as [[e|a] s1]; simpl in *.
  - lia.
  - specialize (Hk a s1). lia.
Qed.

Lemma at_most_attempt {A} n attempt (k : M DvState A) :
  at_most n k -> at_most (S n) (emit (EvAttempt attempt) ;; k).
Proof.
  intros Hk s. unfold bind, emit, modify.
  match goal with |- context [k ?s1] => specialize (Hk s1) end.
  simpl in *. lia.
Qed.

Ltac at_most_step :=
  match goal with
  | |- at_most _ (bind (emit (EvAttempt _)) _) => apply at_most_attempt
  | |- at_most _ (bind _ _) => apply at_most_bind; [|intros]
  | |- at_most _ (ret _) => apply at_most_ret
  | |- at_most _ (raise _) => apply at_most_raise
  | |- at_most _ (of_sum _) => apply at_most_of_sum
  | |- at_most _ get => apply at_most_get
  | |- at_most _ (now _) => apply at_most_now
  | |- at_most _ (update_limiter _) => apply at_most_update_limiter
  | |- at_most _ (sleep _) => apply at_most_sleep
  | |- at_most _ (retry_sleep _) => apply at_most_sleep
  | |- at_most _ (if ?b then _ else _) => destruct b
  | |- at_most _ (match ?x with _ => _ end) => destruct x
  end.

Lemma at_most_failed_result n env url start error retries ip :
  at_most n (failed_result env url start error retries ip).
Proof. unfold failed_result. repeat at_most_step. Qed.

Lemma at_most_before_attempt env attempt : at_most 0 (before_attempt env attempt).
Proof. unfold before_attempt, should_wait. repeat at_most_step. Qed.

Lemma at_most_record_429 n env : at_most n (rate_limiter_record_429 env).
Proof. unfold rate_limiter_record_429. repeat at_most_step. Qed.

Lemma retry_loop_at_most env url audio video transcripts start todo retries :
  at_most (length todo)
    (retry_loop env url audio video transcripts start todo retries).
Proof.
  revert retries. induction todo as [|attempt todo IH]; intros retries.
  - apply at_most_failed_result.
  - cbn [retry_loop length].
    apply at_most_bind; [apply at_most_before_attempt|intros _].
    apply at_most_attempt.
    repeat first
      [ apply IH
      | apply at_most_failed_result
      | apply at_most_record_429
      | at_most_step ].
Qed.

(** The last iteration never continues: what follows it is not run. *)
Lemma retry_loop_ignores_rest env url audio video transcripts start todo
    attempt more more' retries s :
  (attempt <? MAX_RETRIES - 1) = false ->
  retry_loop env url audio video transcripts start (todo ++ attempt :: more)
    retries s
  = retry_loop env url audio video transcripts start
      (todo ++ attempt :: more') retries s.
Proof.
  intros Hlast. revert retries s.
  induction todo as [|a todo IH]; intros retries s.
  - cbn [app retry_loop]. rewrite Hlast. reflexivity.
  - cbn [app retry_loop].
    repeat first
      [ apply IH
      | reflexivity
      | apply bind_ext; intros
      | match goal with
        | |- (if ?b then _ else _) _ = _ => destruct b
        | |- (match ?x with _ => _ end) _ = _ => destruct x
        end ].
Qed.

Lemma failed_result_reports env url audio video transcripts start error
    attempt ip :
  attempt < MAX_RETRIES ->
  error ∈ attempt_errors audio video transcripts (attempt_env env attempt)
            (negb (attempt <? MAX_RETRIES - 1)) ->
  hoare (fun _ => True)
    (failed_result env url start error (S attempt) ip)
    (fun r _ => DownloadResult.status r = lit "failed" ->
                reports_last_attempt env audio video transcripts r)
    (fun _ => True).
Proof.
  intros Hlt Hin s _. cbn. intros _. by exists attempt, error.
Qed.

Lemma retry_loop_reports env url audio video transcripts start n k :
  k + n = MAX_RETRIES -> 1 ≤ n ->
  hoare (fun _ => True)
    (retry_loop env url audio video transcripts start (seq k n) k)
    (fun r _ => DownloadResult.status r = lit "failed" ->
                reports_last_attempt env audio video transcripts r)
    (fun _ => True).
Proof.
  revert k. induction n as [|n IH]; intros k Hk Hn; [lia|].
  cbn [seq retry_loop].
  assert (k < MAX_RETRIES) as Hlt by lia.
  apply hoare_seq; [apply hoare_any|intros _].
  apply hoare_seq; [apply hoare_any|intros _].
  pose proof (failed_result_reports env url audio video transcripts start)
    as Hfail.
  specialize (fun e ip => Hfail e k ip Hlt).
  (* an exception without a classification: one more iteration, or the
     error of this one *)
  assert (forall e : pystr,
    ((k <? MAX_RETRIES - 1) = false ->
     e ∈ attempt_errors audio video transcripts (attempt_env env k) true) ->
    hoare (fun _ => True)
      (if k <? MAX_RETRIES - 1
       then retry_sleep k ;;
            retry_loop env url audio video transcripts start (seq (S k) n)
              (S k)
       else failed_result env url start e (S k) [])
      (fun r _ => DownloadResult.status r = lit "failed" ->
                  reports_last_attempt env audio video transcripts r)
      (fun _ => True)) as Hnext.
  { intros e He. destruct (k <? MAX_RETRIES - 1) eqn:Hlast.
    - apply hoare_seq; [apply hoare_any|intros _].
      apply Nat.ltb_lt in Hlast. unfold MAX_RETRIES in *.
      apply IH; lia.
    - apply Hfail. by apply He. }
  unfold attempt_errors in Hfail, Hnext.
  destruct (run_tool audio video transcripts (attempt_env env k))
    as [[stderr str_e| |str_e]|].
  - (* CalledProcessError *)
    destruct (error_message stderr str_e) as [decode_error|error_msg];
      [by intros s _|].
    apply (hoare_bind _ _ _ (fun a _ => a = error_msg)); [by intros s _|].
    intros ?. apply hoare_pure. intros ->.
    assert (((k <? MAX_RETRIES - 1) = false \/ is_429 error_msg = false) ->
      hoare (fun _ => True)
      (if is_unavailable error_msg
       then failed_result env url start (lit "Video unavailable") (S k) []
       else if is_age_restricted error_msg
       then failed_result env url start (lit "Age-restricted (need cookies)")
              (S k) []
       else if k <? MAX_RETRIES - 1
       then retry_sleep k ;;
            retry_loop env url audio video transcripts start (seq (S k) n)
              (S k)
       else failed_result env url start (take 150 error_msg) (S k) [])
      (fun r _ => DownloadResult.status r = lit "failed" ->
                  reports_last_attempt env audio video transcripts r)
      (fun _ => True)) as Hrest.
    { intros Hreach.
      assert (is_429 error_msg && negb (negb (k <? MAX_RETRIES - 1)) = false)
        as Hguard.
      { destruct Hreach as [-> | ->]; [by rewrite andb_false_r|done]. }
      assert (is_429 error_msg && negb true = false) as Hguard'.
      { by rewrite andb_false_r. }
      destruct (is_unavailable error_msg).
      { apply Hfail. rewrite Hguard. apply elem_of_app. right.
        apply list_elem_of_here. }
      destruct (is_age_restricted error_msg).
      { apply Hfail. rewrite Hguard. apply elem_of_app. right.
        apply list_elem_of_here. }
      apply Hnext. intros _. rewrite Hguard'. apply elem_of_app. right.
      apply list_elem_of_here. }
    destruct (is_429 error_msg); [|apply Hrest; by right].
    apply hoare_seq; [apply hoare_any|intros _].
    apply hoare_seq; [apply hoare_any|intros _].
    apply hoare_seq; [apply hoare_any|intros s].
    destruct (ip_rotation_needed (limiter s)).
    { apply Hfail. apply elem_of_app. left. apply list_elem_of_here. }
    destruct (k <? MAX_RETRIES - 1) eqn:Hlast; [|apply Hrest; by left].
    apply hoare_seq; [apply hoare_any|intros _].
    apply Nat.ltb_lt in Hlast. unfold MAX_RETRIES in *. apply IH; lia.
  - (* TimeoutExpired *)
    specialize (Hnext (lit "Timeout - video too large or connection slow")).
    destruct (k <? MAX_RETRIES - 1) eqn:Hlast.
    + apply Hnext. done.
    + apply Hfail. apply list_elem_of_here.
  - apply Hnext. intros _. apply list_elem_of_here.
  - (* the tool ran *)
    apply hoare_seq; [apply hoare_any|intros _].
    apply hoare_seq; [apply hoare_any|intros _].
    destruct (if audio then audio_size (attempt_env env k) else inr 0%float)
      as [str_e|size].
    + apply Hnext. intros _. apply list_elem_of_here.
    + intros s _. cbn. intros E. by vm_compute in E.
Qed.

(** C5: [download_video] always ends, with a result or an exception, after
    at most [MAX_RETRIES = 3] attempts.  Its loop over [range(MAX_RETRIES)]
    never runs to its end: whatever followed the third iteration, the run
    would be the same, so the return of ['Max retries exceeded'] after the
    loop is not reached.  Every failed result comes from an iteration of
    the loop, counted as the last retry, and carries an error of that
    iteration: the rotation text, one of the two classification texts, or,
    in the third iteration only, the timeout text or the first 150
    characters of the diagnostic. *)
Theorem retry_loop_bounded :
  (forall env url audio video transcripts s,
     exists out s',
       download_video env url audio video transcripts s = (out, s') /\
       count_attempts (trace s') ≤ count_attempts (trace s) + MAX_RETRIES)
  /\
  (forall env url audio video transcripts start more retries s,
     retry_loop env url audio video transcripts start
       (seq 0 MAX_RETRIES ++ more) retries s
     = retry_loop env url audio video transcripts start (seq 0 MAX_RETRIES)
         retries s)
  /\
  (forall env url audio video transcripts s r s',
     download_video env url audio video transcripts s = (inr r, s') ->
     DownloadResult.status r = lit "failed" ->
     reports_last_attempt env audio video transcripts r).
Proof.
  split; [|split].
  - intros. eexists _, _. split; [apply surjective_pairing|].
    unfold download_video.
    pose proof (retry_loop_at_most env url audio video transcripts
                  (clock env (ticks s)) (seq 0 MAX_RETRIES) 0 (tick s)) as H.
    exact H.
  - intros.
    exact (retry_loop_ignores_rest env url audio video transcripts start
             [0; 1] 2 more [] retries s eq_refl).
  - intros * Hrun.
    pose proof (retry_loop_reports env url audio video transcripts
                  (clock env (ticks s)) MAX_RETRIES 0 eq_refl
                  ltac:(unfold MAX_RETRIES; lia) (tick s) I) as H.
    unfold download_video in Hrun.
    change (bind (now env) _ s) with
      (retry_loop env url audio video transcripts (clock env (ticks s))
         (seq 0 MAX_RETRIES) 0 (tick s)) in Hrun.
    by rewrite Hrun in H.
Qed.
End V3_retry_facts.

(** *** Instances *)

Section V3_retry_instances.
Import V3 Examples.

Lemma terminal_failure_stops_retry_loop_witness :
  retry_loop item_unavailable video_url true false false 0%float [0; 1; 2] 0
    (tick fresh_thread)
  = (inr (failure item_unavailable video_url 0%float
            (lit "Video unavailable") 1 []
            (attempted 0 fresh_thread_checked)),
     tick (attempted 0 fresh_thread_checked))
  /\
  exists r s',
    download_video item_unavailable video_url true false false fresh_thread
      = (inr r, s') /\
    DownloadResult.status r = lit "failed" /\
    DownloadResult.error r = Some (lit "Video unavailable") /\
    DownloadResult.retries r = 1 /\
    trace s' = EvAttempt 0 :: trace fresh_thread.
Proof.
  destruct terminal_failure_stops_retry_loop as [Hloop Hscenario].
  split.
  - apply (Hloop item_unavailable video_url true false false 0%float 0
             [1; 2] 0 (tick fresh_thread) fresh_thread_checked
             (StderrText unavailable_text) exit_status_text
             unavailable_text);
      [reflexivity|reflexivity|reflexivity|left; reflexivity].
  - apply (Hscenario item_unavailable video_url true false false fresh_thread
             (StderrText unavailable_text) exit_status_text
             unavailable_text); reflexivity.
Defined.

(** The scenario of the claim as the program runs it: one attempt, no
    sleep, and a retry counter of one, not zero. *)
Lemma video_unavailable_retries_not_zero :
  exists r s',
    download_video item_unavailable video_url true false false fresh_thread
      = (inr r, s') /\
    DownloadResult.status r = lit "failed" /\
    DownloadResult.error r = Some (lit "Video unavailable") /\
    trace s' = [EvAttempt 0] /\
    DownloadResult.retries r = 1 /\
    DownloadResult.retries r <> 0.
Proof.
  eexists _, _. split; [vm_compute; reflexivity|].
  repeat split; done.
Qed.

Lemma rate_limited_records_throttle_witness :
  retry_loop item_throttled video_url true false false 0%float [0; 1; 2] 0
    thread_two_throttles
  = (inr (failure item_throttled video_url 0%float
            (lit "Rate limited - IP rotation needed") 1
            (lit "185.220.101.7")
            {| limiter := record_429 1%float 2%float tracker_two_throttles;
               ticks := 3; trace := [EvAttempt 0] |}),
     {| limiter := record_429 1%float 2%float tracker_two_throttles;
        ticks := 4; trace := [EvAttempt 0] |}).
Proof.
  exact (proj2 (rate_limited_records_throttle item_throttled video_url
                  true false false 0%float 0 [1; 2] 0 thread_two_throttles
                  {| limiter := tracker_two_throttles; ticks := 1;
                     trace := [] |}
                  (StderrText throttled_text) exit_status_text throttled_text
                  eq_refl eq_refl eq_refl eq_refl)).
Defined.

Lemma retry_loop_bounded_witness :
  reports_last_attempt item_timeouts true false false
    (failure item_timeouts video_url 0%float
       (lit "Timeout - video too large or connection slow") 3 []
       thread_after_timeouts).
Proof.
  destruct retry_loop_bounded as (_ & _ & Hlast).
  apply (Hlast item_timeouts video_url true false false fresh_thread _
           (tick thread_after_timeouts)); reflexivity.
Defined.

(** Three timeouts in a row exhaust the attempts: the error of the result
    is the timeout text, not ['Max retries exceeded']. *)
Lemma exhausted_retries_report_last_error :
  exists r s',
    download_video item_timeouts video_url true false false fresh_thread
      = (inr r, s') /\
    count_attempts (trace s') = 3 /\
    DownloadResult.status r = lit "failed" /\
    DownloadResult.error r
      = Some (lit "Timeout - video too large or connection slow") /\
    DownloadResult.error r <> Some (lit "Max retries exceeded").
Proof.
  eexists _, _. split; [vm_compute; reflexivity|].
  repeat split; done.
Qed.

End V3_retry_instances.

(** * The worker of the Tor-backed engine *)

Section V3_worker_facts.
Import V3.
Local Open Scope py_scope.

#[local] Arguments lit : simpl never.
#[local] Arguments show : simpl never.
#[local] Arguments progress_percent : simpl never.

(** ** Every result of [download_video] is a success or a failure *)

Lemma returns_ret {S A} (P : A -> Prop) (a : A) : P a -> returns (S := S) P (ret a).
Proof. intros Ha s a' s' [= <- _]. done. Qed.

Lemma returns_bind {S A B} (P : B -> Prop) (m : M S A) (k : A -> M S B) :
  (forall a, returns P (k a)) -> returns P (bind m k).
Proof.
  intros Hk s b s'. unfold bind.
  destruct (m s) as [[e|a] s1]; [done|]. apply Hk.
Qed.

Lemma returns_failed_result env url start error retries ip :
  returns status_ok (failed_result env url start error retries ip).
Proof. intros s r s' [= <- _]. by right. Qed.

Lemma retry_loop_status env url audio video transcripts start todo retries :
  returns status_ok
    (retry_loop env url audio video transcripts start todo retries).
Proof.
  revert retries. induction todo as [|attempt todo IH]; intros retries.
  - apply returns_failed_result.
  - cbn [retry_loop].
    repeat first
      [ apply IH
      | apply returns_failed_result
      | apply returns_bind; intros
      | apply returns_ret; by left
      | match goal with
        | |- returns _ (if ?b then _ else _) => destruct b
        | |- returns _ (match ?x with _ => _ end) => destruct x
        end ].
Qed.

Lemma download_video_status env url audio video transcripts :
  returns status_ok (download_video env url audio video transcripts).
Proof. apply returns_bind. intros. apply retry_loop_status. Qed.

(** ** Invariants of the job *)

Lemma downloading_not_complete : lit "downloading" <> lit "complete".
Proof. discriminate. Qed.

Lemma failed_not_complete : lit "failed" <> lit "complete".
Proof. discriminate. Qed.

Lemma queued_not_complete : lit "queued" <> lit "complete".
Proof. discriminate. Qed.

Lemma success_not_failed : lit "success" <> lit "failed".
Proof. discriminate. Qed.

Lemma not_complete_ok (j : JobState.t) :
  JobState.status j <> lit "complete" -> complete_ok j.
Proof. intros H Hc. done. Qed.

Lemma hoare_assign (P : WorkerState -> Prop) f (Q : unit -> WorkerState -> Prop)
    (E : WorkerState -> Prop) :
  (forall w, P w ->
     Q tt {| job := f (job w); history := f (job w) :: history w;
             events := events w |}) ->
  hoare P (assign f) Q E.
Proof. intros H. by apply hoare_modify. Qed.

Lemma hoare_effect (P : WorkerState -> Prop) ev
    (Q : unit -> WorkerState -> Prop) (E : WorkerState -> Prop) :
  (forall w, P w ->
     Q tt {| job := job w; history := history w; events := ev :: events w |}) ->
  hoare P (effect ev) Q E.
Proof. intros H. by apply hoare_modify. Qed.

Lemma future_result_state req env i url w :
  (future_result req env i url w).2 = w.
Proof.
  unfold future_result.
  by destruct (download_video _ _ _ _ _ _) as [[e|r] s].
Qed.

Lemma future_result_status req env i url w r w' :
  future_result req env i url w = (inr r, w') -> status_ok r.
Proof.
  unfold future_result.
  destruct (download_video _ _ _ _ _ _) as [[e|r'] s] eqn:Hd; [done|].
  intros [= <- _]. by eapply download_video_status.
Qed.

Lemma hoare_future_result req env i url (P : WorkerState -> Prop) :
  hoare P (future_result req env i url) (fun r w => P w /\ status_ok r) P.
Proof.
  intros w Hw.
  pose proof (future_result_state req env i url w) as Hst.
  destruct (future_result req env i url w) as [[e|r] w1] eqn:Hf;
    simpl in Hst; subst w1; [done|].
  split; [done|]. by eapply future_result_status.
Qed.

Lemma downloading_complete_ok (j : JobState.t) :
  JobState.status j = lit "downloading" -> complete_ok j.
Proof.
  intros Hj. apply not_complete_ok. rewrite Hj.
  apply downloading_not_complete.
Qed.

(** An assignment that leaves the status, the total, the counters and the
    results alone keeps [looping]. *)
Lemma assign_keeps_looping n k f (E : WorkerState -> Prop) :
  (forall j,
     JobState.status (f j) = JobState.status j /\
     JobState.total_videos (f j) = JobState.total_videos j /\
     JobState.completed_videos (f j) = JobState.completed_videos j /\
     JobState.failed_videos (f j) = JobState.failed_videos j /\
     JobState.results (f j) = JobState.results j) ->
  hoare (looping n k) (assign f) (fun _ => looping n k) E.
Proof.
  intros Hf. apply hoare_assign.
  intros w (Hst & Htot & Hcnt & Hlen & Hh).
  destruct (Hf (job w)) as (E1 & E2 & E3 & E4 & E5).
  unfold looping, counts_ok, history_ok in *. cbn [job history].
  rewrite E1, E2, E3, E4, E5. repeat split; try done.
  constructor; [|done]. apply downloading_complete_ok. by rewrite E1.
Qed.

Lemma effect_keeps n k ev (E : WorkerState -> Prop) :
  hoare (looping n k) (effect ev) (fun _ => looping n k) E.
Proof. apply hoare_effect. by intros w H. Qed.

Ltac keep_looping :=
  first [ apply assign_keeps_looping; intros; by repeat split
        | apply effect_keeps
        | apply hoare_ret; by intros ].

(** One per-item update: a result is appended and counted, or the future
    raises and the job is left as it was. *)
Lemma item_update_looping req env results n k i url :
  results !! i = Some url ->
  hoare (looping n k) (item_update req env results k i)
    (fun _ => looping n (k + 1)) (looping n k).
Proof.
  intros Hi. unfold item_update. rewrite Hi.
  eapply hoare_bind; [apply hoare_future_result|]. intros r.
  (* job.results.append(result) *)
  apply (hoare_bind _ _ _ (fun _ w => appended n k w /\ status_ok r)).
  { apply hoare_assign. intros w ((Hst & Htot & Hcnt & Hlen & Hh) & Hr).
    split; [|done]. unfold appended, counts_ok, history_ok in *.
    cbn. rewrite length_app. cbn.
    repeat split; try done; try lia.
    constructor; [|done]. by apply downloading_complete_ok. }
  intros _.
  (* the counters *)
  apply (hoare_bind _ _ _ (fun _ => looping n (k + 1))).
  { intros w (Hw & [Hs|Hs]); revert w Hw; rewrite Hs.
    - rewrite bool_decide_eq_true_2 by done.
      apply hoare_assign. intros w (Hst & Htot & Hcnt & Hlen & Hh).
      unfold looping, counts_ok, history_ok. cbn.
      repeat split; try done; try lia.
      constructor; [|done]. by apply downloading_complete_ok.
    - rewrite bool_decide_eq_false_2 by apply not_eq_sym, success_not_failed.
      rewrite bool_decide_eq_true_2 by done.
      apply hoare_assign. intros w (Hst & Htot & Hcnt & Hlen & Hh).
      unfold looping, counts_ok, history_ok. cbn.
      repeat split; try done; try lia.
      constructor; [|done]. by apply downloading_complete_ok. }
  intros _.
  (* progress, message and the rotation of the circuit *)
  apply hoare_seq; [keep_looping|intros _].
  apply hoare_seq.
  { apply hoare_bind with (R := fun _ => looping n (k + 1)).
    - apply hoare_get. by intros.
    - intros w. by apply hoare_ret. }
  intros j.
  apply hoare_seq; [keep_looping|intros _].
  destruct (rotation_flag env (k + 1)); [|keep_looping].
  apply hoare_seq; [keep_looping|intros _].
  apply hoare_seq; [keep_looping|intros _].
  apply hoare_seq; [destruct (rotate_tor env (k + 1)); keep_looping|intros _].
  keep_looping.
Qed.

Lemma completion_loop_looping req env results n todo k :
  Forall (fun i => i < length results) todo ->
  hoare (looping n k) (completion_loop req env results todo k)
    (fun _ => looping n (k + length todo)) history_ok.
Proof.
  intros Htodo. revert k.
  induction Htodo as [|i todo Hi Htodo IH]; intros k;
    cbn [completion_loop length].
  - apply hoare_ret. intros w Hw. by rewrite Nat.add_0_r.
  - apply lookup_lt_is_Some_2 in Hi as [url Hurl].
    apply (hoare_bind _ _ _ (fun _ => looping n (k + 1))).
    + eapply hoare_consequence;
        [by apply (item_update_looping req env results n k i url)
        |done|done|].
      by intros w (_ & _ & _ & _ & Hh).
    + intros _.
      eapply hoare_consequence; [apply IH|done| |done].
      intros u w Hw. by replace (k + S (length todo))
                           with (k + 1 + length todo) by lia.
Qed.

(** ** From the request to the list of URLs *)

Lemma assign_keeps_started f (E : WorkerState -> Prop) :
  (forall j,
     JobState.status (f j) = JobState.status j /\
     JobState.completed_videos (f j) = JobState.completed_videos j /\
     JobState.failed_videos (f j) = JobState.failed_videos j /\
     JobState.results (f j) = JobState.results j) ->
  hoare started (assign f) (fun _ => started) E.
Proof.
  intros Hf. apply hoare_assign.
  intros w (Hst & Hc & Hfl & Hr & Hh).
  destruct (Hf (job w)) as (E1 & E2 & E3 & E4).
  unfold started, history_ok in *. cbn [job history].
  rewrite E1, E2, E3, E4. repeat split; try done.
  constructor; [|done]. apply downloading_complete_ok. by rewrite E1.
Qed.

Lemma hoare_search_youtube senv max_results (P : WorkerState -> Prop) :
  hoare P (search_youtube senv max_results)
    (fun results w =>
       P w /\
       exists found,
         first_results [search_ytdlp senv; search_duckduckgo senv;
                        search_youtube_direct senv; search_bing senv]
           = Some found /\
         results = slice_to max_results found)
    P.
Proof.
  intros w Hw. unfold search_youtube.
  destruct (first_results _) as [found|] eqn:Hfound; simpl; [|done].
  split; [done|]. by exists found.
Qed.

Lemma resolve_looping req env :
  hoare started (resolve req env)
    (fun results w =>
       resolved_urls req env = inr results /\ looping (length results) 0 w)
    history_ok.
Proof.
  intros w (Hst & Hc & Hfl & Hr & Hh).
  assert (forall m,
            complete_ok (JobState.set_message m (job w))) as Hmsg.
  { intros m. by apply downloading_complete_ok. }
  assert (forall m n,
            complete_ok (JobState.set_total_videos n
                           (JobState.set_message m (job w)))) as Htot.
  { intros m n. by apply downloading_complete_ok. }
  unfold resolve, resolved_urls, search_youtube.
  destruct (DownloadRequest.urls req) as [[|u us]|];
    [destruct (DownloadRequest.is_url req);
       [|destruct (first_results _) as [found|]]
    |
    |destruct (DownloadRequest.is_url req);
       [|destruct (first_results _) as [found|]]];
    cbn -[lit show slice_to strip];
    unfold looping, counts_ok, history_ok; cbn -[lit show slice_to strip];
    rewrite ?Hc, ?Hfl, ?Hr;
    repeat split; try done;
    repeat (constructor; try done).
Qed.

(** ** The worker *)

Lemma worker_start_fresh job_id query now :
  fresh (worker_start (JobState.new job_id query (lit "queued") now)).
Proof.
  repeat split. constructor; [|constructor].
  apply not_complete_ok, queued_not_complete.
Qed.

Lemma submit_all_looping n k i results (E : WorkerState -> Prop) :
  hoare (looping n k) (submit_all i results) (fun _ => looping n k) E.
Proof.
  revert i. induction results as [|url results IH]; intros i; simpl.
  - apply hoare_ret. by intros.
  - apply hoare_seq; [apply effect_keeps|intros _; apply IH].
Qed.

Lemma pool_block_looping req env results n order :
  Forall (fun i => i < length results) order ->
  hoare (looping n 0) (pool_block req env results order)
    (fun _ => looping n (length order)) history_ok.
Proof.
  intros Horder. unfold pool_block.
  apply (hoare_bind _ _ _ (fun _ => looping n 0)).
  { destruct (pool_size req <=? 0)%Z.
    - apply hoare_raise. by intros w (_ & _ & _ & _ & Hh).
    - apply effect_keeps. }
  intros _.
  apply (hoare_bind _ _ _ (fun _ => looping n 0));
    [by apply submit_all_looping|intros _].
  by apply (completion_loop_looping req env results n order 0).
Qed.

Lemma order_prefix_valid req env results order later :
  as_completed_ok req env ->
  resolved_urls req env = inr results ->
  completion_order env = order ++ later ->
  Forall (fun i => i < length results) order /\
  length order + length later = length results.
Proof.
  intros Hok Hres Hsplit. specialize (Hok results Hres).
  rewrite Hsplit in Hok. split.
  - apply Forall_forall. intros i Hi.
    assert (i ∈ seq 0 (length results)) as Hin.
    { rewrite <- Hok. apply elem_of_app. by left. }
    apply elem_of_seq in Hin. lia.
  - apply Permutation_length in Hok.
    rewrite length_app, length_seq in Hok. done.
Qed.

(** The worker cut after the completions of [order], a prefix of the
    completion order: when it got that far, the job is between two
    updates. *)
Lemma worker_until_looping req env order later :
  as_completed_ok req env ->
  completion_order env = order ++ later ->
  hoare fresh (worker_until req env order)
    (fun reached w =>
       reached = Some tt ->
       exists results,
         resolved_urls req env = inr results /\
         length order + length later = length results /\
         looping (length results) (length order) w)
    (fun _ => True).
Proof.
  intros Hok Hsplit. unfold worker_until, try_block_until.
  apply (hoare_bind _ _ _ (fun _ => started)).
  { apply hoare_assign. intros w (Hc & Hfl & Hr & Hh).
    repeat split; try done. constructor; [|done].
    by apply downloading_complete_ok. }
  intros _.
  eapply hoare_bind.
  { eapply hoare_consequence; [apply resolve_looping|done|done|done]. }
  intros [|u us].
  - intros w _. done.
  - intros w (Hres & Hloop).
    destruct (order_prefix_valid _ _ _ _ _ Hok Hres Hsplit) as [Hvalid Hlen].
    pose proof (pool_block_looping req env (u :: us) _ order Hvalid w Hloop)
      as Hpool.
    unfold bind.
    destruct (pool_block req env (u :: us) order w) as [[e|[]] w1]; [done|].
    intros _. by exists (u :: us).
Qed.

Lemma assign_keeps_settled f (E : WorkerState -> Prop) :
  (forall j, complete_ok j -> complete_ok (f j)) ->
  hoare settled (assign f) (fun _ => settled) E.
Proof.
  intros Hf. apply hoare_assign. intros w [Hj Hh].
  split; [by apply Hf|]. constructor; [by apply Hf|done].
Qed.

Lemma finish_settled env n :
  hoare (looping n n) (finish env) (fun _ => settled) settled.
Proof.
  unfold finish.
  apply (hoare_bind _ _ _ (fun _ => settled)).
  { apply hoare_assign. intros w (Hst & Htot & Hcnt & Hlen & Hh).
    assert (complete_ok (JobState.set_status (lit "complete") (job w))).
    { intros _. unfold counts_ok in Hcnt. cbn. lia. }
    split; [done|by constructor]. }
  intros _.
  apply hoare_seq; [by apply assign_keeps_settled|intros _].
  apply hoare_seq.
  { apply hoare_bind with (R := fun _ => settled).
    - apply hoare_get. by intros.
    - intros w. by apply hoare_ret. }
  intros j.
  apply hoare_seq; [by apply assign_keeps_settled|intros _].
  destruct (save_log env).
  - apply hoare_raise. by intros.
  - apply hoare_effect. by intros w Hw.
Qed.

Lemma fatal_history_ok e :
  hoare history_ok (fatal e) (fun _ => history_ok) history_ok.
Proof.
  unfold fatal.
  apply (hoare_bind _ _ _
           (fun _ w => JobState.status (job w) = lit "failed" /\ history_ok w)).
  - apply hoare_assign. intros w Hh. split; [done|].
    constructor; [|done]. apply not_complete_ok, failed_not_complete.
  - intros _. apply hoare_assign. intros w [Hst Hh].
    constructor; [|done]. apply not_complete_ok.
    cbn. rewrite Hst. apply failed_not_complete.
Qed.

(** Whatever the worker does, no state the job goes through has the status
    ['complete'] without a counted result for every item. *)
Lemma download_worker_history_ok req env :
  as_completed_ok req env ->
  hoare fresh (_download_worker req env) (fun _ => history_ok) history_ok.
Proof.
  intros Hok. unfold _download_worker.
  apply (hoare_bind _ _ _ (fun _ => started)).
  { apply hoare_assign. intros w (Hc & Hfl & Hr & Hh).
    repeat split; try done. constructor; [|done].
    by apply downloading_complete_ok. }
  intros _.
  apply (hoare_try_except _ _ _ _ history_ok); [|apply fatal_history_ok].
  unfold try_block_until.
  apply (hoare_bind _ _ _
           (fun reached w =>
              match reached with
              | None => history_ok w
              | Some _ => exists n, looping n n w
              end)).
  - eapply hoare_bind.
    { eapply hoare_consequence; [apply resolve_looping|done|done|done]. }
    intros [|u us].
    + intros w (_ & Hst & _ & _ & _ & Hh). cbn.
      repeat constructor; try done;
        apply not_complete_ok, failed_not_complete.
    + intros w (Hres & Hloop).
      destruct (order_prefix_valid _ _ _ _ [] Hok Hres
                  (eq_sym (app_nil_r _))) as [Hvalid Hlen].
      pose proof (pool_block_looping req env (u :: us) _ _ Hvalid w Hloop)
        as Hpool.
      unfold bind.
      destruct (pool_block req env (u :: us) (completion_order env) w)
        as [[e|[]] w1]; [done|].
      cbn. exists (length (u :: us)).
      by replace (length (u :: us)) with (length (completion_order env))
        at 2 by (cbn in *; lia).
  - intros [[]|].
    + intros w [n Hn].
      pose proof (finish_settled env n w Hn) as Hfin.
      destruct (finish env w) as [[e|[]] w1]; by destruct Hfin.
    + apply hoare_ret. by intros.
Qed.

End V3_worker_facts.

(** * A query that resolves to no item *)

Section V3_zero_items.
Import V3 Examples.
Local Open Scope py_scope.

Lemma first_results_nonempty methods found :
  first_results methods = Some found -> found <> [].
Proof.
  induction methods as [|[e|[|u us]] methods IH]; simpl; try done.
  by intros [= <-].
Qed.

(** For a request that passed validation [resolve] never returns an empty
    list: a list of URLs of the client is used only when it is not empty,
    a direct URL gives one item, and [search_youtube] raises instead of
    returning nothing. *)
Lemma resolved_urls_nonempty req env results :
  DownloadRequest.valid req = true ->
  resolved_urls req env = inr results -> results <> [].
Proof.
  intros Hvalid. unfold resolved_urls.
  assert (1 <= DownloadRequest.max_results req)%Z as Hmax.
  { unfold DownloadRequest.valid in Hvalid.
    repeat (apply andb_prop in Hvalid as [Hvalid ?]). lia. }
  assert ((if DownloadRequest.is_url req
           then inr [strip (DownloadRequest.query req)]
           else
             match first_results
                     [search_ytdlp (search_env env);
                      search_duckduckgo (search_env env);
                      search_youtube_direct (search_env env);
                      search_bing (search_env env)] with
             | Some found =>
                 inr (slice_to (DownloadRequest.max_results req) found)
             | None => inl (lit "All search methods failed")
             end) = inr results -> results <> []) as Hrest.
  { destruct (DownloadRequest.is_url req); [by intros [= <-]|].
    destruct (first_results _) as [found|] eqn:Hfound; [|done].
    intros [= <-]. apply first_results_nonempty in Hfound.
    destruct found as [|u us]; [done|].
    unfold slice_to. destruct (Z.leb_spec 0 (DownloadRequest.max_results req));
      [|lia].
    destruct (Z.to_nat (DownloadRequest.max_results req)) eqn:Hn; [lia|done]. }
  destruct (DownloadRequest.urls req) as [[|u us]|]; try done.
  by intros [= <-].
Qed.

(** So the [return] before the pool, the one that sets the message
    ['No videos found'], is never taken. *)
Lemma no_videos_found_branch_dead req env order w w' :
  DownloadRequest.valid req = true ->
  fresh w ->
  worker_until req env order w <> (inr None, w').
Proof.
  intros Hvalid Hw Hrun. unfold worker_until, try_block_until in Hrun.
  set (w1 := {| job := JobState.set_status (lit "downloading") (job w);
                history := JobState.set_status (lit "downloading") (job w)
                           :: history w;
                events := events w |}) in *.
  rewrite (bind_ok (assign _) _ w w1 tt eq_refl) in Hrun.
  assert (started w1) as Hs.
  { destruct Hw as (Hc & Hf & Hr & Hh). repeat split; try done.
    constructor; [|done]. by apply downloading_complete_ok. }
  pose proof (resolve_looping req env w1 Hs) as Hres.
  unfold bind in Hrun at 1.
  destruct (resolve req env w1) as [[e|[|u us]] w2]; [done| |].
  - destruct Hres as [Hres _].
    by apply (resolved_urls_nonempty req env [] Hvalid).
  - unfold bind in Hrun.
    by destruct (pool_block req env (u :: us) order w2) as [[e|[]] w3].
Qed.

(** C8: when no search method finds anything the job fails, its progress
    stays 0 and no pool is created and nothing submitted; its message is
    ['Error: All search methods failed'], the text of the exception
    [search_youtube] raises, and not ['No videos found']. *)
Theorem zero_items_fail_the_job :
  let w := (_download_worker request_search worker_nothing_found
              (worker_start queued_search)).2 in
  JobState.status (job w) = lit "failed" /\
  JobState.message (job w) = lit "Error: All search methods failed" /\
  JobState.message (job w) <> lit "No videos found" /\
  JobState.progress (job w) = 0%Z /\
  JobState.total_videos (job w) = 0 /\
  events w = [].
Proof. vm_compute. repeat split; done. Qed.

End V3_zero_items.

(** * The order of the results *)

Section V3_result_order.
Import V3.
Local Open Scope py_scope.

#[local] Arguments lit : simpl never.
#[local] Arguments show : simpl never.
#[local] Arguments progress_percent : simpl never.

Lemma retry_loop_url env url audio video transcripts start todo retries :
  returns (fun r => DownloadResult.url r = url)
    (retry_loop env url audio video transcripts start todo retries).
Proof.
  assert (forall error n ip,
            returns (fun r => DownloadResult.url r = url)
              (failed_result env url start error n ip)) as Hfail.
  { intros error n ip s r s' [= <- _]. done. }
  revert retries. induction todo as [|attempt todo IH]; intros retries.
  - apply Hfail.
  - cbn [retry_loop].
    repeat first
      [ apply IH
      | apply Hfail
      | apply returns_bind; intros
      | apply returns_ret; reflexivity
      | match goal with
        | |- returns _ (if ?b then _ else _) => destruct b
        | |- returns _ (match ?x with _ => _ end) => destruct x
        end ].
Qed.

Lemma download_video_url env url audio video transcripts :
  returns (fun r => DownloadResult.url r = url)
    (download_video env url audio video transcripts).
Proof. apply returns_bind. intros. apply retry_loop_url. Qed.

Lemma future_result_url req env i url w r w' :
  future_result req env i url w = (inr r, w') -> DownloadResult.url r = url.
Proof.
  unfold future_result.
  destruct (download_video _ _ _ _ _ _) as [[e|r'] s] eqn:Hd; [done|].
  intros [= <- _]. by eapply download_video_url.
Qed.

Lemma assign_keeps_results urls f (E : WorkerState -> Prop) :
  (forall j, JobState.results (f j) = JobState.results j) ->
  hoare (results_are urls) (assign f) (fun _ => results_are urls) E.
Proof.
  intros Hf. apply hoare_assign. intros w Hw.
  unfold results_are in *. cbn [job]. by rewrite Hf.
Qed.

Ltac keep_results :=
  first [ apply assign_keeps_results; by intros
        | apply hoare_effect; by intros
        | apply hoare_ret; by intros ].

Lemma item_update_results req env results k i done :
  hoare (results_are done) (item_update req env results k i)
    (fun _ => results_are (done ++ omap (fun i => results !! i) [i]))
    (fun _ => True).
Proof.
  unfold item_update.
  change (omap (fun i => results !! i) [i])
    with (match results !! i with Some u => [u] | None => [] end).
  destruct (results !! i) as [url|].
  2:{ apply hoare_ret. intros w Hw. by rewrite app_nil_r. }
  apply (hoare_bind _ _ _
           (fun r w => results_are done w /\ DownloadResult.url r = url)).
  { intros w Hw.
    pose proof (future_result_state req env i url w) as Hst.
    destruct (future_result req env i url w) as [[e|r] w1] eqn:Hf;
      simpl in Hst; subst w1; [done|].
    split; [done|]. by eapply future_result_url. }
  intros r.
  apply (hoare_bind _ _ _ (fun _ => results_are (done ++ [url]))).
  { apply hoare_assign. intros w [Hw Hurl]. unfold results_are in *.
    cbn. by rewrite map_app, Hw, <- Hurl. }
  intros _.
  apply hoare_seq.
  { destruct (bool_decide _); [keep_results|].
    destruct (bool_decide _); keep_results. }
  intros _.
  apply hoare_seq; [keep_results|intros _].
  apply hoare_seq.
  { apply hoare_bind with (R := fun _ => results_are (done ++ [url])).
    - apply hoare_get. by intros.
    - intros w. by apply hoare_ret. }
  intros j.
  apply hoare_seq; [keep_results|intros _].
  destruct (rotation_flag env (k + 1)); [|keep_results].
  apply hoare_seq; [keep_results|intros _].
  apply hoare_seq; [keep_results|intros _].
  apply hoare_seq; [destruct (rotate_tor env (k + 1)); keep_results|intros _].
  keep_results.
Qed.

Lemma completion_loop_results req env results todo k done :
  hoare (results_are done) (completion_loop req env results todo k)
    (fun _ => results_are (done ++ omap (fun i => results !! i) todo))
    (fun _ => True).
Proof.
  revert k done. induction todo as [|i todo IH]; intros k done;
    cbn [completion_loop].
  - apply hoare_ret. intros w Hw. cbn. by rewrite app_nil_r.
  - apply (hoare_bind _ _ _
             (fun _ => results_are
                         (done ++ omap (fun i => results !! i) [i])));
      [apply item_update_results|intros _].
    eapply hoare_consequence; [apply IH|done| |done].
    intros u w Hw. unfold results_are in *. rewrite Hw, <- app_assoc.
    f_equal. cbn. by destruct (results !! i).
Qed.

Lemma submit_all_results urls i results (E : WorkerState -> Prop) :
  hoare (results_are urls) (submit_all i results)
    (fun _ => results_are urls) E.
Proof.
  revert i. induction results as [|url results IH]; intros i; simpl.
  - apply hoare_ret. by intros.
  - apply hoare_seq; [keep_results|intros _; apply IH].
Qed.

(** The results of a job that reached ['complete'] are those of the
    submitted URLs in the order in which their futures completed. *)
Lemma download_worker_completion_order req env :
  hoare fresh (_download_worker req env)
    (fun _ w =>
       JobState.status (job w) = lit "complete" ->
       exists urls,
         resolved_urls req env = inr urls /\
         results_are (omap (fun i => urls !! i) (completion_order env)) w)
    (fun _ => False).
Proof.
  unfold _download_worker.
  apply (hoare_bind _ _ _ (fun _ => started)).
  { apply hoare_assign. intros w (Hc & Hfl & Hr & Hh).
    repeat split; try done. constructor; [|done].
    by apply downloading_complete_ok. }
  intros _.
  apply (hoare_try_except _ _ _ _ (fun _ => True)).
  2:{ intros e. unfold fatal.
      apply (hoare_bind _ _ _
               (fun _ w => JobState.status (job w) = lit "failed")).
      - apply hoare_assign. by intros.
      - intros _. apply hoare_assign. intros w Hw. cbn. rewrite Hw.
        intros Hc. discriminate Hc. }
  set (ordered := fun w =>
         exists urls,
           resolved_urls req env = inr urls /\
           results_are (omap (fun i => urls !! i) (completion_order env)) w).
  apply (hoare_bind _ _ _
           (fun reached w =>
              match reached with
              | None => JobState.status (job w) = lit "failed"
              | Some _ => ordered w
              end)).
  - unfold try_block_until.
    eapply hoare_bind.
    { eapply hoare_consequence; [apply resolve_looping|done|done|done]. }
    intros [|u us].
    + intros w _. done.
    + intros w (Hres & _ & _ & _ & Hlen & _).
      assert (results_are [] w) as Hnil.
      { unfold results_are. by destruct (JobState.results (job w)). }
      assert (hoare (results_are [])
                (pool_block req env (u :: us) (completion_order env))
                (fun _ => results_are
                            (omap (fun i => (u :: us) !! i)
                               (completion_order env)))
                (fun _ => True)) as Hpool.
      { unfold pool_block. apply hoare_seq.
        { destruct (pool_size req <=? 0)%Z;
            [by apply hoare_raise|keep_results]. }
        intros _. apply hoare_seq; [apply submit_all_results|intros _].
        apply (completion_loop_results req env (u :: us) _ 0 []). }
      specialize (Hpool w Hnil). unfold bind.
      destruct (pool_block req env (u :: us) (completion_order env) w)
        as [[e|[]] w1]; [done|].
      by exists (u :: us).
  - intros [[]|].
    + unfold finish.
      apply (hoare_bind _ _ _
               (fun _ w => ordered w)).
      { apply hoare_assign. by intros w Hw. }
      intros _.
      apply (hoare_bind _ _ _ (fun _ w => ordered w)).
      { apply hoare_assign. by intros w Hw. }
      intros _.
      apply (hoare_bind _ _ _ (fun _ w => ordered w)).
      { apply hoare_bind with (R := fun _ => ordered).
        - apply hoare_get. by intros.
        - intros w. by apply hoare_ret. }
      intros j.
      apply (hoare_bind _ _ _ (fun _ w => ordered w)).
      { apply hoare_assign. by intros w Hw. }
      intros _. destruct (save_log env).
      * by apply hoare_raise.
      * apply hoare_effect. by intros w Hw _.
    + apply hoare_ret. intros w Hw Hc. rewrite Hw in Hc. discriminate Hc.
Qed.

End V3_result_order.

(** * What a poll can see *)

Section V3_observable.
Import V3.
Local Open Scope py_scope.

#[local] Arguments lit : simpl never.
#[local] Arguments show : simpl never.
#[local] Arguments progress_percent : simpl never.

Lemma stable_bind {A B} P (m : M WorkerState A) (k : A -> M WorkerState B) :
  stable P m -> (forall a, stable P (k a)) -> stable P (bind m k).
Proof. intros Hm Hk. by apply (hoare_bind _ _ _ (fun _ => P)). Qed.

Lemma stable_ret {A} P (a : A) : stable P (ret a).
Proof. by apply hoare_ret. Qed.

Lemma stable_raise {A} P e : stable P (raise (A := A) e).
Proof. by apply hoare_raise. Qed.

Lemma stable_assign P f : write_proof P -> stable P (assign f).
Proof. intros [Ha _]. apply hoare_assign. intros w Hw. by apply Ha. Qed.

Lemma stable_effect P ev : write_proof P -> stable P (effect ev).
Proof. intros [_ He]. apply hoare_effect. intros w Hw. by apply He. Qed.

Lemma stable_read_job P : stable P read_job.
Proof.
  apply stable_bind; [apply hoare_get; by intros|intros; apply stable_ret].
Qed.

Lemma stable_future_result P req env i url :
  stable P (future_result req env i url).
Proof.
  eapply hoare_consequence; [apply hoare_future_result|done| |done].
  by intros r w [Hw _].
Qed.

Lemma stable_search_youtube P senv max_results :
  stable P (search_youtube senv max_results).
Proof.
  intros w Hw. unfold search_youtube. by destruct (first_results _).
Qed.

Lemma stable_try_except {A} P (m : M WorkerState A) h :
  stable P m -> (forall e, stable P (h e)) -> stable P (try_except m h).
Proof. intros Hm Hh. by apply (hoare_try_except _ _ _ _ P). Qed.

Ltac stable_step HP :=
  match goal with
  | |- stable _ (if ?b then _ else _) => destruct b
  | |- stable _ (match ?x with _ => _ end) => destruct x
  | |- stable _ (bind _ _) => apply stable_bind; [|intros]
  | |- stable _ (ret _) => apply stable_ret
  | |- stable _ (raise _) => apply stable_raise
  | |- stable _ (assign _) => apply (stable_assign _ _ HP)
  | |- stable _ (effect _) => apply (stable_effect _ _ HP)
  | |- stable _ read_job => apply stable_read_job
  | |- stable _ (future_result _ _ _ _) => apply stable_future_result
  | |- stable _ (search_youtube _ _) => apply stable_search_youtube
  end.

Lemma stable_item_update P req env results k i :
  write_proof P -> stable P (item_update req env results k i).
Proof. intros HP. unfold item_update. repeat stable_step HP. Qed.

Lemma stable_completion_loop P req env results todo k :
  write_proof P -> stable P (completion_loop req env results todo k).
Proof.
  intros HP. revert k. induction todo as [|i todo IH]; intros k;
    cbn [completion_loop].
  - apply stable_ret.
  - apply stable_bind; [by apply stable_item_update|intros; apply IH].
Qed.

Lemma stable_finish P env : write_proof P -> stable P (finish env).
Proof. intros HP. unfold finish. repeat stable_step HP. Qed.

Lemma stable_fatal P e : write_proof P -> stable P (fatal e).
Proof. intros HP. unfold fatal. repeat stable_step HP. Qed.

(** The loop over a completion order is the loop over a prefix followed by
    the loop over the rest. *)
Lemma completion_loop_app req env results order later k w :
  completion_loop req env results (order ++ later) k w
  = (completion_loop req env results order k ;;
     completion_loop req env results later (k + length order)) w.
Proof.
  revert k w. induction order as [|i order IH]; intros k w;
    cbn [app completion_loop length].
  - unfold bind, ret. by rewrite Nat.add_0_r.
  - unfold bind.
    destruct (item_update req env results k i w) as [[e|[]] w1]; [done|].
    rewrite IH. unfold bind.
    by replace (k + 1 + length order) with (k + S (length order)) by lia.
Qed.

Lemma stable_submit_all P i results :
  write_proof P -> stable P (submit_all i results).
Proof.
  intros HP. revert i. induction results as [|url results IH]; intros i;
    cbn [submit_all].
  - apply stable_ret.
  - apply stable_bind; [apply (stable_effect _ _ HP)|intros; apply IH].
Qed.

Lemma stable_resolve P req env : write_proof P -> stable P (resolve req env).
Proof. intros HP. unfold resolve. repeat stable_step HP. Qed.

Lemma stable_pool_block P req env results order :
  write_proof P -> stable P (pool_block req env results order).
Proof.
  intros HP. unfold pool_block.
  apply stable_bind; [repeat stable_step HP|intros].
  apply stable_bind; [by apply stable_submit_all|intros].
  by apply stable_completion_loop.
Qed.

Lemma stable_try_block_until P req env order :
  write_proof P -> stable P (try_block_until req env order).
Proof.
  intros HP. unfold try_block_until.
  apply stable_bind; [by apply stable_resolve|intros [|u us]].
  - repeat stable_step HP.
  - apply stable_bind; [by apply stable_pool_block|intros; apply stable_ret].
Qed.

Lemma bind_congr {S A B} (m m' : M S A) (k : A -> M S B) (s s' : S) :
  m s = m' s' -> bind m k s = bind m' k s'.
Proof. intros H. unfold bind. by rewrite H. Qed.

Lemma try_except_congr {S A} (m m' : M S A) h (s s' : S) :
  m s = m' s' -> try_except m h s = try_except m' h s'.
Proof. intros H. unfold try_except. by rewrite H. Qed.

(** A [try] block that got through the completions of [order] goes on, in
    the whole run, with the completions that follow. *)
Lemma try_block_until_split req env order later w1 w :
  try_block_until req env order w1 = (inr (Some tt), w) ->
  exists results,
    try_block_until req env (order ++ later) w1
    = (completion_loop req env results later (length order) ;;
       ret (Some tt)) w.
Proof.
  unfold try_block_until. intros H.
  unfold bind in H at 1. unfold bind at 1.
  destruct (resolve req env w1) as [[e|[|u us]] w2]; try done.
  exists (u :: us).
  assert (pool_block req env (u :: us) order w2 = (inr tt, w)) as Hpool.
  { unfold bind in H.
    destruct (pool_block req env (u :: us) order w2) as [[e|[]] w3];
      [done|].
    unfold ret in H. by injection H as ->. }
  clear H. apply bind_congr.
  unfold pool_block in *.
  unfold bind in Hpool at 1. unfold bind at 1.
  destruct ((if (pool_size req <=? 0)%Z
             then raise (lit "max_workers must be greater than 0")
             else effect (PoolCreated (pool_size req))) w2)
    as [[e|[]] w3]; [done|].
  unfold bind in Hpool at 1. unfold bind at 1.
  destruct (submit_all 0 (u :: us) w3) as [[e|[]] w4]; [done|].
  rewrite completion_loop_app. unfold bind at 1. by rewrite Hpool.
Qed.

Lemma head_is_job_write_proof : write_proof head_is_job.
Proof.
  split.
  - intros f w _. by eexists.
  - intros ev w Hw. done.
Qed.

Lemma remembers_write_proof h : write_proof (remembers h).
Proof.
  split; [|done]. intros f w Hw. by apply suffix_cons_r.
Qed.

(** The job as it is after any per-item update is a state the job goes
    through in the whole run: a poll can see it. *)
Lemma update_states_are_observable req env order later w0 w out w_end :
  completion_order env = order ++ later ->
  worker_until req env order w0 = (inr (Some tt), w) ->
  _download_worker req env w0 = (out, w_end) ->
  job w ∈ history w_end.
Proof.
  intros Hsplit Huntil Hrun.
  set (w1 := {| job := JobState.set_status (lit "downloading") (job w0);
                history := JobState.set_status (lit "downloading") (job w0)
                           :: history w0;
                events := events w0 |}).
  unfold worker_until in Huntil. unfold _download_worker in Hrun.
  rewrite (bind_ok (assign _) _ w0 w1 tt eq_refl) in Huntil.
  rewrite (bind_ok (assign _) _ w0 w1 tt eq_refl) in Hrun.
  (* the history of [w] starts with its job *)
  assert (head_is_job w) as [h Hh].
  { pose proof (stable_try_block_until head_is_job req env order
                  head_is_job_write_proof w1) as Hhead.
    rewrite Huntil in Hhead. apply Hhead. by eexists. }
  (* the rest of the run keeps the history of [w] *)
  destruct (try_block_until_split req env order later w1 w Huntil)
    as [results Hrest].
  rewrite Hsplit in Hrun.
  erewrite try_except_congr in Hrun by (apply bind_congr, Hrest).
  assert (remembers (history w) w_end) as Hmem.
  { set (P := remembers (history w)).
    assert (write_proof P) as HP by apply remembers_write_proof.
    assert (stable P
              (try_except
                 (let! reached :=
                    completion_loop req env results later (length order) ;;
                    ret (Some tt) in
                  match reached with
                  | None => ret tt
                  | Some _ => finish env
                  end) fatal)) as Hstable.
    { apply stable_try_except; [|intros; by apply stable_fatal].
      apply stable_bind.
      - apply stable_bind; [by apply stable_completion_loop|].
        intros. apply stable_ret.
      - intros [[]|]; [by apply stable_finish|apply stable_ret]. }
    assert (P w) as Hw by (unfold P, remembers; reflexivity).
    specialize (Hstable w Hw). rewrite Hrun in Hstable.
    by destruct out. }
  destruct Hmem as [newer Hnewer]. rewrite Hnewer, Hh.
  apply elem_of_app. right. apply list_elem_of_here.
Qed.

End V3_observable.

(** * The engine without Tor *)

Section V4_facts.
Import V4.
Local Open Scope py_scope.

#[local] Arguments lit : simpl never.
#[local] Arguments show : simpl never.
#[local] Arguments V4.progress_percent : simpl never.

Lemma downloading_complete_ok4 (j : Job.t) :
  Job.status j = lit "downloading" -> complete_ok4 j.
Proof. intros Hj Hc. rewrite Hj in Hc. discriminate Hc. Qed.

Lemma hoare_assign4 (P : WorkerState -> Prop) f
    (Q : unit -> WorkerState -> Prop) (E : WorkerState -> Prop) :
  (forall w, P w ->
     Q tt {| job := f (job w); history := f (job w) :: history w;
             events := events w |}) ->
  hoare P (assign f) Q E.
Proof. intros H. by apply hoare_modify. Qed.

Lemma hoare_effect4 (P : WorkerState -> Prop) ev
    (Q : unit -> WorkerState -> Prop) (E : WorkerState -> Prop) :
  (forall w, P w ->
     Q tt {| job := job w; history := history w; events := ev :: events w |}) ->
  hoare P (effect ev) Q E.
Proof. intros H. by apply hoare_modify. Qed.

Lemma assign_keeps_looping4 n k f (E : WorkerState -> Prop) :
  (forall j,
     Job.status (f j) = Job.status j /\
     Job.total_videos (f j) = Job.total_videos j /\
     Job.completed_videos (f j) = Job.completed_videos j /\
     Job.failed_videos (f j) = Job.failed_videos j /\
     Job.results (f j) = Job.results j) ->
  hoare (looping4 n k) (assign f) (fun _ => looping4 n k) E.
Proof.
  intros Hf. apply hoare_assign4.
  intros w (Hst & Htot & Hcnt & Hlen & Hh).
  destruct (Hf (job w)) as (E1 & E2 & E3 & E4 & E5).
  unfold looping4, counts_ok4, history_ok4 in *. cbn [job history].
  rewrite E1, E2, E3, E4, E5. repeat split; try done.
  constructor; [|done]. apply downloading_complete_ok4. by rewrite E1.
Qed.

(** One per-item update: the result is appended and counted as a success
    or, whatever else its status is, as a failure. *)
Lemma item_update_looping4 env audio video transcripts n k i url
    (E : WorkerState -> Prop) :
  hoare (looping4 n k) (item_update env audio video transcripts i url)
    (fun _ => looping4 n (k + 1)) E.
Proof.
  unfold item_update.
  set (result := download_single_video _ _ _ _ _ _).
  apply (hoare_bind _ _ _
           (fun _ w =>
              Job.status (job w) = lit "downloading" /\
              Job.total_videos (job w) = n /\
              Job.completed_videos (job w) + Job.failed_videos (job w) + 1
                = length (Job.results (job w)) /\
              length (Job.results (job w)) = k + 1 /\
              history_ok4 w)).
  { apply hoare_assign4. intros w (Hst & Htot & Hcnt & Hlen & Hh).
    unfold counts_ok4, history_ok4 in *. cbn. rewrite length_app. cbn.
    repeat split; try done; try lia.
    constructor; [|done]. by apply downloading_complete_ok4. }
  intros _.
  apply (hoare_bind _ _ _ (fun _ => looping4 n (k + 1))).
  { destruct (bool_decide _);
      apply hoare_assign4; intros w (Hst & Htot & Hcnt & Hlen & Hh);
      unfold looping4, counts_ok4, history_ok4; cbn;
      (repeat split; try done; try lia);
      (constructor; [|done]); by apply downloading_complete_ok4. }
  intros _.
  apply hoare_seq.
  { apply hoare_bind with (R := fun _ => looping4 n (k + 1)).
    - apply hoare_get. by intros.
    - intros w. by apply hoare_ret. }
  intros j.
  apply hoare_seq;
    [apply assign_keeps_looping4; intros; by repeat split|intros _].
  apply assign_keeps_looping4; intros; by repeat split.
Qed.

Lemma result_loop_looping4 env audio video transcripts n k i urls
    (E : WorkerState -> Prop) :
  hoare (looping4 n k) (result_loop env audio video transcripts i urls)
    (fun _ => looping4 n (k + length urls)) E.
Proof.
  revert k i. induction urls as [|url urls IH]; intros k i;
    cbn [result_loop length].
  - apply hoare_ret. intros w Hw. by rewrite Nat.add_0_r.
  - apply (hoare_bind _ _ _ (fun _ => looping4 n (k + 1)));
      [apply item_update_looping4|intros _].
    eapply hoare_consequence; [apply IH|done| |done].
    intros u w Hw. by replace (k + S (length urls))
                         with (k + 1 + length urls) by lia.
Qed.

Lemma submit_all_looping4 n k i urls (E : WorkerState -> Prop) :
  hoare (looping4 n k) (submit_all i urls) (fun _ => looping4 n k) E.
Proof.
  revert i. induction urls as [|url urls IH]; intros i; simpl.
  - apply hoare_ret. by intros.
  - apply hoare_seq; [|intros _; apply IH].
    apply hoare_effect4. by intros w Hw.
Qed.

(** The job cut after the first [k] futures: when it got that far, the job
    is between two updates, with [k] results. *)
Lemma job_until_looping4 env audio video transcripts concurrent urls k :
  k ≤ length urls ->
  hoare history_ok4
    (job_until env audio video transcripts concurrent urls k)
    (fun _ => looping4 (length urls) k) history_ok4.
Proof.
  intros Hk. unfold job_until.
  set (n := length urls).
  set (A1 := fun w : WorkerState =>
               Job.status (job w) = lit "downloading" /\ history_ok4 w).
  set (A3 := fun w => A1 w /\ Job.total_videos (job w) = n).
  set (A4 := fun w => A3 w /\ Job.completed_videos (job w) = 0).
  set (A5 := fun w => A4 w /\ Job.failed_videos (job w) = 0).
  assert (forall w j, A1 w -> Job.status j = lit "downloading" ->
            history_ok4 {| job := j; history := j :: history w;
                           events := events w |}) as Hpush.
  { intros w j [_ Hh] Hj. constructor; [|done].
    by apply downloading_complete_ok4. }
  apply (hoare_bind _ _ _ (fun _ => A1)).
  { apply hoare_assign4. intros w Hh. split; [done|].
    constructor; [|done]. by apply downloading_complete_ok4. }
  intros _. apply (hoare_bind _ _ _ (fun _ => A1)).
  { apply hoare_assign4. intros w Hw. split; [apply Hw|].
    apply Hpush; [done|apply Hw]. }
  intros _. apply (hoare_bind _ _ _ (fun _ => A1)).
  { destruct (make_dirs env).
    - apply hoare_raise. by intros w [_ Hh].
    - by apply hoare_ret. }
  intros _. apply (hoare_bind _ _ _ (fun _ => A3)).
  { apply hoare_assign4. intros w Hw. repeat split; try apply Hw.
    apply Hpush; [done|apply Hw]. }
  intros _. apply (hoare_bind _ _ _ (fun _ => A4)).
  { apply hoare_assign4. intros w Hw. repeat split; try apply Hw.
    apply Hpush; [apply Hw|apply Hw]. }
  intros _. apply (hoare_bind _ _ _ (fun _ => A5)).
  { apply hoare_assign4. intros w Hw. repeat split; try apply Hw.
    apply Hpush; [apply Hw|apply Hw]. }
  intros _. apply (hoare_bind _ _ _ (fun _ => looping4 n 0)).
  { apply hoare_assign4. intros w ((((Hst & Hh) & Htot) & Hc) & Hf).
    unfold looping4, counts_ok4. cbn. rewrite Hc, Hf.
    repeat split; try done. by apply Hpush. }
  intros _. apply (hoare_bind _ _ _ (fun _ => looping4 n 0)).
  { destruct (pool_size env concurrent <=? 0)%Z.
    - apply hoare_raise. by intros w (_ & _ & _ & _ & Hh).
    - apply hoare_effect4. by intros w Hw. }
  intros _. apply (hoare_bind _ _ _ (fun _ => looping4 n 0));
    [apply submit_all_looping4|intros _].
  eapply hoare_consequence;
    [apply (result_loop_looping4 env audio video transcripts n 0 0
              (take k urls) history_ok4)|done| |done].
  intros u w Hw. rewrite length_take in Hw.
  by replace (0 + k `min` length urls) with k in Hw by lia.
Qed.

(** Whatever the job does, no state it goes through has the status
    ['complete'] without a counted result for every item. *)
Lemma process_download_job_history_ok env audio video transcripts concurrent
    urls :
  hoare history_ok4
    (process_download_job env audio video transcripts concurrent urls)
    (fun _ => history_ok4) history_ok4.
Proof.
  unfold process_download_job.
  set (ok := fun w => complete_ok4 (job w) /\ history_ok4 w).
  assert (forall f, (forall j, complete_ok4 j -> complete_ok4 (f j)) ->
            hoare ok (assign f) (fun _ => ok) history_ok4) as Hkeep.
  { intros f Hf. apply hoare_assign4. intros w [Hj Hh].
    split; [by apply Hf|]. constructor; [by apply Hf|done]. }
  apply (hoare_bind _ _ _ (fun _ => looping4 (length urls) (length urls)));
    [by apply job_until_looping4|intros _].
  apply (hoare_bind _ _ _ (fun _ => ok)).
  { apply hoare_assign4. intros w (Hst & Htot & Hcnt & Hlen & Hh).
    assert (complete_ok4 (Job.set_status (lit "complete") (job w))).
    { intros _. unfold counts_ok4 in Hcnt. cbn. lia. }
    split; [done|by constructor]. }
  intros _.
  apply (hoare_bind _ _ _ (fun _ => ok)).
  { apply hoare_bind with (R := fun _ => ok).
    - apply hoare_get. by intros.
    - intros w. by apply hoare_ret. }
  intros j.
  apply (hoare_bind _ _ _ (fun _ => ok)); [by apply Hkeep|intros _].
  eapply hoare_consequence; [by apply Hkeep|done| |done].
  by intros u w [_ Hh].
Qed.

(** ** The order of the results *)

Lemma assign_keeps_results4 urls f (E : WorkerState -> Prop) :
  (forall j, Job.results (f j) = Job.results j) ->
  hoare (results_are4 urls) (assign f) (fun _ => results_are4 urls) E.
Proof.
  intros Hf. apply hoare_assign4. intros w Hw.
  unfold results_are4 in *. cbn [job]. by rewrite Hf.
Qed.

Lemma download_single_video_url e url audio video transcripts ip :
  Result.url (download_single_video e url audio video transcripts ip) = url.
Proof. unfold download_single_video. by destruct (run_tool _ _ _ _). Qed.

Lemma item_update_results4 env audio video transcripts i url done
    (E : WorkerState -> Prop) :
  hoare (results_are4 done) (item_update env audio video transcripts i url)
    (fun _ => results_are4 (done ++ [url])) E.
Proof.
  unfold item_update.
  apply (hoare_bind _ _ _ (fun _ => results_are4 (done ++ [url]))).
  { apply hoare_assign4. intros w Hw. unfold results_are4 in *. cbn.
    by rewrite map_app, Hw; cbn; rewrite download_single_video_url. }
  intros _.
  apply hoare_seq.
  { destruct (bool_decide _); by apply assign_keeps_results4. }
  intros _.
  apply hoare_seq.
  { apply hoare_bind with (R := fun _ => results_are4 (done ++ [url])).
    - apply hoare_get. by intros.
    - intros w. by apply hoare_ret. }
  intros j.
  apply hoare_seq; [by apply assign_keeps_results4|intros _].
  by apply assign_keeps_results4.
Qed.

Lemma result_loop_results4 env audio video transcripts i urls done
    (E : WorkerState -> Prop) :
  hoare (results_are4 done) (result_loop env audio video transcripts i urls)
    (fun _ => results_are4 (done ++ urls)) E.
Proof.
  revert i done. induction urls as [|url urls IH]; intros i done;
    cbn [result_loop].
  - apply hoare_ret. intros w Hw. by rewrite app_nil_r.
  - apply (hoare_bind _ _ _ (fun _ => results_are4 (done ++ [url])));
      [apply item_update_results4|intros _].
    eapply hoare_consequence; [apply IH|done| |done].
    intros u w Hw. unfold results_are4 in *. by rewrite Hw, <- app_assoc.
Qed.

Lemma submit_all_results4 urls0 i urls (E : WorkerState -> Prop) :
  hoare (results_are4 urls0) (submit_all i urls)
    (fun _ => results_are4 urls0) E.
Proof.
  revert i. induction urls as [|url urls IH]; intros i; simpl.
  - apply hoare_ret. by intros.
  - apply hoare_seq; [|intros _; apply IH].
    apply hoare_effect4. by intros w Hw.
Qed.

(** The results of a job are those of its URLs in the order of submission,
    whatever the order in which the downloads complete. *)
Lemma process_download_job_submission_order env audio video transcripts
    concurrent urls :
  hoare (fun _ => True)
    (process_download_job env audio video transcripts concurrent urls)
    (fun _ => results_are4 urls) (fun _ => True).
Proof.
  unfold process_download_job.
  apply (hoare_bind _ _ _ (fun _ => results_are4 urls)).
  { unfold job_until.
    do 2 (apply hoare_seq; [apply hoare_assign4; by intros|intros _]).
    apply hoare_seq;
      [destruct (make_dirs env); [by apply hoare_raise|by apply hoare_ret]
      |intros _].
    do 3 (apply hoare_seq; [apply hoare_assign4; by intros|intros _]).
    apply (hoare_bind _ _ _ (fun _ => results_are4 []));
      [apply hoare_assign4; by intros|intros _].
    rewrite firstn_all.
    apply hoare_seq.
    { destruct (pool_size env concurrent <=? 0)%Z;
        [by apply hoare_raise|apply hoare_effect4; by intros]. }
    intros _. apply hoare_seq; [apply submit_all_results4|intros _].
    apply (result_loop_results4 env audio video transcripts 0 urls []). }
  intros _.
  apply hoare_seq; [by apply assign_keeps_results4|intros _].
  apply hoare_seq.
  { apply hoare_bind with (R := fun _ => results_are4 urls).
    - apply hoare_get. by intros.
    - intros w. by apply hoare_ret. }
  intros j.
  apply hoare_seq; [by apply assign_keeps_results4|intros _].
  by apply assign_keeps_results4.
Qed.

End V4_facts.

(** * The job counters, in both engines *)

Section job_counters.

Lemma v3_counts_after_update req env job_id query now order later w :
  as_completed_ok req env ->
  V3.completion_order env = order ++ later ->
  V3.worker_until req env order
    (V3.worker_start (V3.JobState.new job_id query (lit "queued") now))
    = (inr (Some tt), w) ->
  let j := V3.job w in
  V3.JobState.completed_videos j + V3.JobState.failed_videos j
    = length (V3.JobState.results j) /\
  length (V3.JobState.results j) ≤ V3.JobState.total_videos j /\
  (V3.JobState.completed_videos j + V3.JobState.failed_videos j
     = V3.JobState.total_videos j <-> later = []) /\
  V3.JobState.status j = lit "downloading".
Proof.
  intros Hok Hsplit Hrun.
  pose proof (worker_until_looping req env order later Hok Hsplit _
                (worker_start_fresh job_id query now)) as H.
  rewrite Hrun in H.
  destruct (H eq_refl) as (results & _ & Hlen & Hst & Htot & Hcnt & Hk & _).
  unfold counts_ok in Hcnt. simpl.
  repeat split; try done; try lia.
  - intros Heq. apply length_zero_iff_nil. lia.
  - intros ->. simpl in Hlen. lia.
Qed.

Lemma v3_complete_has_all_results req env job_id query now out w j :
  as_completed_ok req env ->
  V3._download_worker req env
    (V3.worker_start (V3.JobState.new job_id query (lit "queued") now))
    = (out, w) ->
  j ∈ V3.history w ->
  V3.JobState.status j = lit "complete" ->
  V3.JobState.completed_videos j + V3.JobState.failed_videos j
    = V3.JobState.total_videos j.
Proof.
  intros Hok Hrun Hj Hc.
  pose proof (download_worker_history_ok req env Hok _
                (worker_start_fresh job_id query now)) as H.
  rewrite Hrun in H.
  assert (history_ok w) as Hh by (by destruct out).
  unfold history_ok in Hh. rewrite Forall_forall in Hh.
  by destruct (Hh j Hj Hc).
Qed.

Lemma queued_job_history_ok4 job_id query urls :
  history_ok4 (V4.worker_start (V4.queued_job job_id query urls)).
Proof. constructor; [|constructor]. intros Hc. discriminate Hc. Qed.

Lemma v4_counts_after_update env audio video transcripts concurrent
    job_id query urls k w :
  k ≤ length urls ->
  V4.job_until env audio video transcripts concurrent urls k
    (V4.worker_start (V4.queued_job job_id query urls)) = (inr tt, w) ->
  let j := V4.job w in
  V4.Job.completed_videos j + V4.Job.failed_videos j
    = length (V4.Job.results j) /\
  length (V4.Job.results j) ≤ V4.Job.total_videos j /\
  (V4.Job.completed_videos j + V4.Job.failed_videos j
     = V4.Job.total_videos j <-> k = length urls) /\
  V4.Job.status j = lit "downloading".
Proof.
  intros Hk Hrun.
  pose proof (job_until_looping4 env audio video transcripts concurrent urls
                k Hk _ (queued_job_history_ok4 job_id query urls)) as H.
  rewrite Hrun in H.
  destruct H as (Hst & Htot & Hcnt & Hlen & _).
  unfold counts_ok4 in Hcnt. simpl.
  repeat split; try done; lia.
Qed.

Lemma v4_complete_has_all_results env audio video transcripts concurrent
    job_id query urls out w j :
  V4.process_download_job env audio video transcripts concurrent urls
    (V4.worker_start (V4.queued_job job_id query urls)) = (out, w) ->
  j ∈ V4.history w ->
  V4.Job.status j = lit "complete" ->
  V4.Job.completed_videos j + V4.Job.failed_videos j = V4.Job.total_videos j.
Proof.
  intros Hrun Hj Hc.
  pose proof (process_download_job_history_ok env audio video transcripts
                concurrent urls _ (queued_job_history_ok4 job_id query urls))
    as H.
  rewrite Hrun in H.
  assert (history_ok4 w) as Hh by (by destruct out).
  unfold history_ok4 in Hh. rewrite Forall_forall in Hh.
  by destruct (Hh j Hj Hc).
Qed.

(** C1: in both engines, after every per-item update
    [succeeded + failed == len(results)] and [len(results) <= total] hold.
    The sum reaches [total] exactly at the update of the last item, when the
    status is still ['downloading']; and every state of the job whose
    status is ['complete'] has [succeeded + failed == total]. *)
Theorem job_counts_after_every_update :
  (forall req env job_id query now order later w,
     as_completed_ok req env ->
     V3.completion_order env = order ++ later ->
     V3.worker_until req env order
       (V3.worker_start (V3.JobState.new job_id query (lit "queued") now))
       = (inr (Some tt), w) ->
     let j := V3.job w in
     V3.JobState.completed_videos j + V3.JobState.failed_videos j
       = length (V3.JobState.results j) /\
     length (V3.JobState.results j) ≤ V3.JobState.total_videos j /\
     (V3.JobState.completed_videos j + V3.JobState.failed_videos j
        = V3.JobState.total_videos j <-> later = []) /\
     V3.JobState.status j = lit "downloading")
  /\
  (forall req env job_id query now out w j,
     as_completed_ok req env ->
     V3._download_worker req env
       (V3.worker_start (V3.JobState.new job_id query (lit "queued") now))
       = (out, w) ->
     j ∈ V3.history w ->
     V3.JobState.status j = lit "complete" ->
     V3.JobState.completed_videos j + V3.JobState.failed_videos j
       = V3.JobState.total_videos j)
  /\
  (forall env audio video transcripts concurrent job_id query urls k w,
     k ≤ length urls ->
     V4.job_until env audio video transcripts concurrent urls k
       (V4.worker_start (V4.queued_job job_id query urls)) = (inr tt, w) ->
     let j := V4.job w in
     V4.Job.completed_videos j + V4.Job.failed_videos j
       = length (V4.Job.results j) /\
     length (V4.Job.results j) ≤ V4.Job.total_videos j /\
     (V4.Job.completed_videos j + V4.Job.failed_videos j
        = V4.Job.total_videos j <-> k = length urls) /\
     V4.Job.status j = lit "downloading")
  /\
  (forall env audio video transcripts concurrent job_id query urls out w j,
     V4.process_download_job env audio video transcripts concurrent urls
       (V4.worker_start (V4.queued_job job_id query urls)) = (out, w) ->
     j ∈ V4.history w ->
     V4.Job.status j = lit "complete" ->
     V4.Job.completed_videos j + V4.Job.failed_videos j
       = V4.Job.total_videos j).
Proof.
  split; [|split; [|split]].
  - apply v3_counts_after_update.
  - apply v3_complete_has_all_results.
  - apply v4_counts_after_update.
  - apply v4_complete_has_all_results.
Qed.

End job_counters.

Section job_counters_instances.
Import Examples.

Lemma worker_one_ok_as_completed : as_completed_ok request_one_url worker_one_ok.
Proof. intros results [= <-]. reflexivity. Qed.

Lemma job_counts_after_every_update_witness :
  (let j := V3.job (V3.worker_until request_one_url worker_one_ok [0]
                      (V3.worker_start queued_one)).2 in
   V3.JobState.completed_videos j + V3.JobState.failed_videos j
     = length (V3.JobState.results j) /\
   length (V3.JobState.results j) ≤ V3.JobState.total_videos j /\
   (V3.JobState.completed_videos j + V3.JobState.failed_videos j
      = V3.JobState.total_videos j <-> @nil nat = []) /\
   V3.JobState.status j = lit "downloading")
  /\
  (let j := V3.job (V3._download_worker request_one_url worker_one_ok
                      (V3.worker_start queued_one)).2 in
   V3.JobState.status j = lit "complete" /\
   V3.JobState.completed_videos j + V3.JobState.failed_videos j
     = V3.JobState.total_videos j)
  /\
  (let j := V4.job (V4.job_until worker_ok4 true false false (Some 3%Z)
                      [video_url] 1 (V4.worker_start queued_one4)).2 in
   V4.Job.completed_videos j + V4.Job.failed_videos j
     = length (V4.Job.results j) /\
   length (V4.Job.results j) ≤ V4.Job.total_videos j /\
   (V4.Job.completed_videos j + V4.Job.failed_videos j
      = V4.Job.total_videos j <-> 1 = length [video_url]) /\
   V4.Job.status j = lit "downloading")
  /\
  (let j := V4.job (V4.process_download_job worker_ok4 true false false
                      (Some 3%Z) [video_url]
                      (V4.worker_start queued_one4)).2 in
   V4.Job.status j = lit "complete" /\
   V4.Job.completed_videos j + V4.Job.failed_videos j
     = V4.Job.total_videos j).
Proof.
  destruct job_counts_after_every_update as (A3 & B3 & A4 & B4).
  split; [|split; [|split]].
  - apply (A3 request_one_url worker_one_ok job_one (lit "one video")
             100%float [0] []);
      [apply worker_one_ok_as_completed|reflexivity|vm_compute; reflexivity].
  - split; [vm_compute; reflexivity|].
    apply (B3 request_one_url worker_one_ok job_one (lit "one video")
             100%float (inr tt)
             (V3._download_worker request_one_url worker_one_ok
                (V3.worker_start queued_one)).2);
      [apply worker_one_ok_as_completed|vm_compute; reflexivity
      |vm_compute; left|vm_compute; reflexivity].
  - apply (A4 worker_ok4 true false false (Some 3%Z) job_one
             (lit "one video") [video_url] 1);
      [simpl; lia|vm_compute; reflexivity].
  - split; [vm_compute; reflexivity|].
    apply (B4 worker_ok4 true false false (Some 3%Z) job_one
             (lit "one video") [video_url] (inr tt)
             (V4.process_download_job worker_ok4 true false false (Some 3%Z)
                [video_url] (V4.worker_start queued_one4)).2);
      [vm_compute; reflexivity|vm_compute; left|vm_compute; reflexivity].
Defined.

(** After the update of the only item of a job the sum has reached the
    total, and the status is ['downloading']: the sum equals the total
    while the status is not terminal. *)
Lemma sum_reaches_total_before_terminal :
  let j := V3.job (V3.worker_until request_one_url worker_one_ok [0]
                     (V3.worker_start queued_one)).2 in
  V3.JobState.completed_videos j + V3.JobState.failed_videos j
    = V3.JobState.total_videos j /\
  V3.JobState.status j = lit "downloading" /\
  ~ (V3.JobState.completed_videos j + V3.JobState.failed_videos j
       = V3.JobState.total_videos j <-> terminal (V3.JobState.status j)).
Proof.
  split; [vm_compute; reflexivity|]. split; [vm_compute; reflexivity|].
  intros [Hiff _].
  destruct (Hiff ltac:(vm_compute; reflexivity)) as [H|H];
    vm_compute in H; discriminate H.
Qed.

End job_counters_instances.

(** * The progress endpoint *)

Section progress_claims.
Local Open Scope py_scope.

#[local] Arguments lit : simpl never.
#[local] Arguments show : simpl never.

(** ** What a poll returns *)

Lemma v3_results_in_completion_order req env job_id query now out w :
  V3._download_worker req env
    (V3.worker_start (V3.JobState.new job_id query (lit "queued") now))
    = (out, w) ->
  V3.JobState.status (V3.job w) = lit "complete" ->
  exists urls,
    resolved_urls req env = inr urls /\
    map V3.DownloadResult.url (V3.JobState.results (V3.job w))
      = omap (fun i => urls !! i) (V3.completion_order env).
Proof.
  intros Hrun Hc.
  pose proof (download_worker_completion_order req env _
                (worker_start_fresh job_id query now)) as H.
  rewrite Hrun in H. destruct out as [e|[]]; [done|]. by apply H.
Qed.

Lemma v4_results_in_submission_order env audio video transcripts concurrent
    job_id query urls w :
  V4.process_download_job env audio video transcripts concurrent urls
    (V4.worker_start (V4.queued_job job_id query urls)) = (inr tt, w) ->
  map V4.Result.url (V4.Job.results (V4.job w)) = urls.
Proof.
  intros Hrun.
  pose proof (process_download_job_submission_order env audio video
                transcripts concurrent urls
                (V4.worker_start (V4.queued_job job_id query urls)) I) as H.
  by rewrite Hrun in H.
Qed.

(** C9: the progress endpoint answers 404 for a job it does not know.  For
    a job it knows, the Tor-backed engine returns the identifier of the
    request, the status, the progress, the message, the three counters and
    the start time of the job, and an elapsed time computed from the clock
    of the poll; it does not return the query.  The engine without Tor
    returns the identifier, the query, the status, the progress, the
    message, the three counters and the stored elapsed time; it does not
    return the start time.  Both return the results only when the status
    of the job is ['complete']: otherwise an empty list (Tor-backed engine)
    or [null] (engine without Tor).  The results of a completed job are in
    the order of completion in the Tor-backed engine, and in the order of
    submission in the engine without Tor. *)
Theorem progress_endpoint_snapshot :
  (forall (jobs : gmap pystr V3.JobState.t) job_id now,
     jobs !! job_id = None ->
     V3.api_progress jobs job_id now
       = inl {| V3.status_code := 404; V3.detail := lit "Job not found" |})
  /\
  (forall (jobs : gmap pystr V3.JobState.t) job_id now job,
     jobs !! job_id = Some job ->
     exists resp,
       V3.api_progress jobs job_id now = inr resp /\
       V3.ProgressResponse.job_id resp = job_id /\
       V3.ProgressResponse.status resp = V3.JobState.status job /\
       V3.ProgressResponse.progress resp = V3.JobState.progress job /\
       V3.ProgressResponse.message resp = V3.JobState.message job /\
       V3.ProgressResponse.total_videos resp = V3.JobState.total_videos job /\
       V3.ProgressResponse.completed resp = V3.JobState.completed_videos job /\
       V3.ProgressResponse.failed resp = V3.JobState.failed_videos job /\
       V3.ProgressResponse.start_time resp = V3.JobState.start_time job /\
       V3.ProgressResponse.elapsed resp
         = (now - V3.JobState.start_time job)%float /\
       V3.ProgressResponse.results resp
         = if bool_decide (V3.JobState.status job = lit "complete")
           then V3.JobState.results job else [])
  /\
  (forall (jobs : gmap pystr V3.JobState.t) job_id now job query,
     jobs !! job_id = Some job ->
     V3.api_progress (<[job_id := with_query query job]> jobs) job_id now
     = V3.api_progress jobs job_id now)
  /\
  (forall req env job_id query now out w,
     V3._download_worker req env
       (V3.worker_start (V3.JobState.new job_id query (lit "queued") now))
       = (out, w) ->
     V3.JobState.status (V3.job w) = lit "complete" ->
     exists urls,
       resolved_urls req env = inr urls /\
       map V3.DownloadResult.url (V3.JobState.results (V3.job w))
         = omap (fun i => urls !! i) (V3.completion_order env))
  /\
  (forall (jobs : gmap pystr V4.Job.t) job_id,
     jobs !! job_id = None ->
     V4.get_progress jobs job_id
       = inl {| V4.status_code := 404; V4.detail := lit "Job not found" |})
  /\
  (forall (jobs : gmap pystr V4.Job.t) job_id job,
     jobs !! job_id = Some job ->
     exists resp,
       V4.get_progress jobs job_id = inr resp /\
       V4.ProgressResponse.job_id resp = V4.Job.job_id job /\
       V4.ProgressResponse.query resp = V4.Job.query job /\
       V4.ProgressResponse.status resp = V4.Job.status job /\
       V4.ProgressResponse.progress resp = V4.Job.progress job /\
       V4.ProgressResponse.message resp = V4.Job.message job /\
       V4.ProgressResponse.total_videos resp = V4.Job.total_videos job /\
       V4.ProgressResponse.completed_videos resp
         = V4.Job.completed_videos job /\
       V4.ProgressResponse.failed_videos resp = V4.Job.failed_videos job /\
       V4.ProgressResponse.elapsed resp = V4.Job.elapsed job /\
       V4.ProgressResponse.results resp
         = if bool_decide (V4.Job.status job = lit "complete")
           then Some (V4.Job.results job) else None)
  /\
  (forall (jobs : gmap pystr V4.Job.t) job_id job start_time,
     jobs !! job_id = Some job ->
     V4.get_progress (<[job_id := V4.Job.set_start_time start_time job]> jobs)
       job_id
     = V4.get_progress jobs job_id)
  /\
  (forall env audio video transcripts concurrent job_id query urls w,
     V4.process_download_job env audio video transcripts concurrent urls
       (V4.worker_start (V4.queued_job job_id query urls)) = (inr tt, w) ->
     map V4.Result.url (V4.Job.results (V4.job w)) = urls).
Proof.
  repeat split.
  - intros jobs job_id now Hnone. unfold V3.api_progress. by rewrite Hnone.
  - intros jobs job_id now job Hjob. unfold V3.api_progress. rewrite Hjob.
    eexists. split; [reflexivity|]. repeat split.
  - intros jobs job_id now job query Hjob. unfold V3.api_progress.
    by rewrite lookup_insert_eq, Hjob.
  - apply v3_results_in_completion_order.
  - intros jobs job_id Hnone. unfold V4.get_progress. by rewrite Hnone.
  - intros jobs job_id job Hjob. unfold V4.get_progress. rewrite Hjob.
    eexists. split; [reflexivity|]. repeat split.
  - intros jobs job_id job start_time Hjob. unfold V4.get_progress.
    by rewrite lookup_insert_eq, Hjob.
  - apply v4_results_in_submission_order.
Qed.

End progress_claims.

(** ** The registry between two polls *)

Section v3_history.
Import V3.

Lemma stable_download_worker P req env :
  write_proof P -> stable P (_download_worker req env).
Proof.
  intros HP. unfold _download_worker.
  apply stable_bind; [by apply stable_assign|intros _].
  apply stable_try_except; [|intros; by apply stable_fatal].
  apply stable_bind; [by apply stable_try_block_until|].
  intros [[]|]; [by apply stable_finish|apply stable_ret].
Qed.

End v3_history.

Section v3_server_facts.
Import V3 V3_server.

Lemma states_shape (t : Task) :
  exists later,
    states t = created t :: later /\
    last (states t)
      = Some (job (_download_worker (req t) (env t)
                     (worker_start (created t))).2).
Proof.
  unfold states.
  set (w0 := worker_start (created t)).
  pose proof (stable_download_worker head_is_job (req t) (env t)
                head_is_job_write_proof w0) as Hhead.
  pose proof (stable_download_worker (remembers [created t]) (req t) (env t)
                (remembers_write_proof _) w0) as Hmem.
  destruct (_download_worker (req t) (env t) w0) as [out w]. cbn [snd].
  assert (head_is_job w) as [h Hh].
  { destruct out; apply Hhead; by eexists. }
  assert (remembers [created t] w) as [newer Hnewer].
  { destruct out; apply Hmem; unfold remembers; reflexivity. }
  exists (reverse newer). split.
  - rewrite Hnewer, reverse_app. reflexivity.
  - rewrite Hh, reverse_cons, last_snoc. reflexivity.
Qed.

Lemma current_created (t : Task) : written t = 0 -> current t = created t.
Proof.
  intros H0. unfold current. rewrite H0.
  destruct (states_shape t) as (later & -> & _). reflexivity.
Qed.

Lemma current_returned (t : Task) :
  returned t ->
  current t
  = job (_download_worker (req t) (env t) (worker_start (created t))).2.
Proof.
  intros Hret. unfold current, returned in *.
  destruct (states_shape t) as (later & _ & Hlast).
  rewrite last_lookup in Hlast. rewrite <- Hret in Hlast. cbn [pred] in Hlast.
  by rewrite Hlast.
Qed.

Lemma step_keeps_returned tasks a job_id t :
  tasks !! job_id = Some t -> returned t -> draws job_id a = false ->
  step tasks a !! job_id = Some t.
Proof.
  intros Ht Hret Hdraw. destruct a as [r e uuid now|other| |]; cbn [step].
  - destruct (api_download r uuid now (jobs tasks)) as [|[_ j]]; [done|].
    cbn [draws] in Hdraw. apply bool_decide_eq_false_1 in Hdraw.
    by rewrite lookup_insert_ne.
  - destruct (tasks !! other) as [t'|] eqn:Hother; [|done].
    destruct (S (written t') <? length (states t')) eqn:Hmore; [|done].
    destruct (decide (other = job_id)) as [->|Hne].
    + rewrite Ht in Hother. injection Hother as <-.
      apply Nat.ltb_lt in Hmore. unfold returned in Hret. lia.
    + by rewrite lookup_insert_ne.
  - done.
  - done.
Qed.

Lemma run_keeps_returned actions tasks job_id t :
  tasks !! job_id = Some t -> returned t ->
  existsb (draws job_id) actions = false ->
  run actions tasks !! job_id = Some t.
Proof.
  revert tasks. induction actions as [|a actions IH]; intros tasks Ht Hret Hd;
    cbn [run foldl]; [done|].
  cbn [existsb] in Hd. apply orb_false_elim in Hd as [Ha Hd].
  apply IH; [|done|done]. by apply step_keeps_returned.
Qed.

(** Given its turns, the worker of a registered job makes its last
    assignment. *)
Lemma worker_reaches_return (tasks : gmap pystr Task) job_id t :
  tasks !! job_id = Some t ->
  written t < length (states t) ->
  exists t',
    run (replicate (length (states t) - S (written t)) (Assign job_id)) tasks
      !! job_id = Some t' /\
    returned t' /\
    req t' = req t /\ env t' = env t /\ created t' = created t.
Proof.
  remember (length (states t) - S (written t)) as n eqn:Hn.
  revert tasks t Hn. induction n as [|n IH]; intros tasks t Hn Ht Hlt.
  - exists t. cbn. repeat split; [done|]. unfold returned. lia.
  - cbn [replicate run foldl step]. rewrite Ht.
    assert ((S (written t) <? length (states t)) = true) as ->
      by (apply Nat.ltb_lt; lia).
    set (t1 := {| req := req t; env := env t; created := created t;
                  written := S (written t) |}).
    destruct (IH (<[job_id := t1]> tasks) t1) as (t' & H1 & H2 & H3);
      [cbn; change (states t1) with (states t); lia
      |apply lookup_insert_eq
      |cbn; change (states t1) with (states t); lia|].
    exists t'. change (states t1) with (states t) in H1.
    replace (length (states t) - S (written t1)) with n in H1
      by (cbn; lia).
    done.
Qed.
(** What [api_download] stores is what the registry shows next. *)
Lemma download_registers tasks r e uuid now jobs' j :
  api_download r uuid now (jobs tasks) = inr (jobs', j) ->
  jobs (step tasks (Download r e uuid now)) = jobs'.
Proof.
  intros Hd. cbn [step]. rewrite Hd.
  unfold api_download in Hd. destruct (negb _); [done|].
  injection Hd as <- <-. unfold jobs. rewrite fmap_insert.
  by rewrite current_created.
Qed.

End v3_server_facts.

Section v4_history.
Import V4.

Ltac keeps4_step HP :=
  match goal with
  | |- hoare _ (if ?b then _ else _) _ _ => destruct b
  | |- hoare _ (match ?x with _ => _ end) _ _ => destruct x
  | |- hoare ?P (bind _ _) _ _ => apply (hoare_bind P _ _ (fun _ => P)); [|intros]
  | |- hoare _ (ret _) _ _ => by apply hoare_ret
  | |- hoare _ (raise _) _ _ => by apply hoare_raise
  | |- hoare _ (assign _) _ _ =>
      apply hoare_assign4; intros; by apply (proj1 HP)
  | |- hoare _ (effect _) _ _ =>
      apply hoare_effect4; intros; by apply (proj2 HP)
  | |- hoare _ read_job _ _ => unfold read_job
  | |- hoare _ get _ _ => by apply hoare_get
  end.

Lemma keeps4_submit_all P i urls :
  write_proof4 P -> hoare P (submit_all i urls) (fun _ => P) P.
Proof.
  intros HP. revert i. induction urls as [|url urls IH]; intros i;
    cbn [submit_all].
  - by apply hoare_ret.
  - apply (hoare_bind P _ _ (fun _ => P)); [keeps4_step HP|intros; apply IH].
Qed.

Lemma keeps4_result_loop P env audio video transcripts i urls :
  write_proof4 P ->
  hoare P (result_loop env audio video transcripts i urls) (fun _ => P) P.
Proof.
  intros HP. revert i. induction urls as [|url urls IH]; intros i;
    cbn [result_loop].
  - by apply hoare_ret.
  - apply (hoare_bind P _ _ (fun _ => P)); [|intros; apply IH].
    unfold item_update. repeat keeps4_step HP.
Qed.

Lemma keeps4_process_download_job P env audio video transcripts concurrent
    urls :
  write_proof4 P ->
  hoare P (process_download_job env audio video transcripts concurrent urls)
    (fun _ => P) P.
Proof.
  intros HP. unfold process_download_job, job_until.
  repeat first
    [ apply (keeps4_submit_all _ _ _ HP)
    | apply (keeps4_result_loop _ _ _ _ _ _ _ HP)
    | keeps4_step HP ].
Qed.

Lemma head_is_job4_write_proof : write_proof4 head_is_job4.
Proof.
  split.
  - intros f w _. by eexists.
  - intros ev w Hw. done.
Qed.

Lemma remembers4_write_proof h : write_proof4 (remembers4 h).
Proof.
  split; [|done]. intros f w Hw. by apply suffix_cons_r.
Qed.

End v4_history.

Section v4_server_facts.
Import V4 V4_server.

Lemma states_shape4 (t : Task) :
  exists later,
    states t = created t :: later /\
    last (states t)
      = Some (job (process_download_job (env t)
                     (DownloadRequest.audio (req t))
                     (DownloadRequest.video (req t))
                     (DownloadRequest.transcripts (req t))
                     (DownloadRequest.concurrent_downloads (req t)) (urls t)
                     (worker_start (created t))).2).
Proof.
  unfold states.
  set (w0 := worker_start (created t)).
  set (m := process_download_job _ _ _ _ _ _).
  pose proof (keeps4_process_download_job head_is_job4 (env t)
                (DownloadRequest.audio (req t))
                (DownloadRequest.video (req t))
                (DownloadRequest.transcripts (req t))
                (DownloadRequest.concurrent_downloads (req t)) (urls t)
                head_is_job4_write_proof w0) as Hhead.
  pose proof (keeps4_process_download_job (remembers4 [created t]) (env t)
                (DownloadRequest.audio (req t))
                (DownloadRequest.video (req t))
                (DownloadRequest.transcripts (req t))
                (DownloadRequest.concurrent_downloads (req t)) (urls t)
                (remembers4_write_proof _) w0) as Hmem.
  fold m in Hhead, Hmem.
  destruct (m w0) as [out w]. cbn [snd].
  assert (head_is_job4 w) as [h Hh].
  { destruct out; apply Hhead; by eexists. }
  assert (remembers4 [created t] w) as [newer Hnewer].
  { destruct out; apply Hmem; unfold remembers4; reflexivity. }
  exists (reverse newer). split.
  - rewrite Hnewer, reverse_app. reflexivity.
  - rewrite Hh, reverse_cons, last_snoc. reflexivity.
Qed.

Lemma current_created4 (t : Task) : written t = 0 -> current t = created t.
Proof.
  intros H0. unfold current. rewrite H0.
  destruct (states_shape4 t) as (later & -> & _). reflexivity.
Qed.

Lemma current_returned4 (t : Task) :
  returned t ->
  current t
  = job (process_download_job (env t)
           (DownloadRequest.audio (req t)) (DownloadRequest.video (req t))
           (DownloadRequest.transcripts (req t))
           (DownloadRequest.concurrent_downloads (req t)) (urls t)
           (worker_start (created t))).2.
Proof.
  intros Hret. unfold current, returned in *.
  destruct (states_shape4 t) as (later & _ & Hlast).
  rewrite last_lookup in Hlast. rewrite <- Hret in Hlast. cbn [pred] in Hlast.
  by rewrite Hlast.
Qed.

Lemma step_keeps_returned4 tasks a job_id t :
  tasks !! job_id = Some t -> returned t -> draws job_id a = false ->
  step tasks a !! job_id = Some t.
Proof.
  intros Ht Hret Hdraw. destruct a as [r found e uuid|other|]; cbn [step].
  - destruct (api_download r found uuid (jobs tasks)) as [|[_ us]]; [done|].
    cbn [draws] in Hdraw. apply bool_decide_eq_false_1 in Hdraw.
    by rewrite lookup_insert_ne.
  - destruct (tasks !! other) as [t'|] eqn:Hother; [|done].
    destruct (S (written t') <? length (states t')) eqn:Hmore; [|done].
    destruct (decide (other = job_id)) as [->|Hne].
    + rewrite Ht in Hother. injection Hother as <-.
      apply Nat.ltb_lt in Hmore. unfold returned in Hret. lia.
    + by rewrite lookup_insert_ne.
  - done.
Qed.

Lemma run_keeps_returned4 actions tasks job_id t :
  tasks !! job_id = Some t -> returned t ->
  existsb (draws job_id) actions = false ->
  run actions tasks !! job_id = Some t.
Proof.
  revert tasks. induction actions as [|a actions IH]; intros tasks Ht Hret Hd;
    cbn [run foldl]; [done|].
  cbn [existsb] in Hd. apply orb_false_elim in Hd as [Ha Hd].
  apply IH; [|done|done]. by apply step_keeps_returned4.
Qed.

(** Given its turns, the worker of a registered job makes its last
    assignment. *)
Lemma worker_reaches_return4 (tasks : gmap pystr Task) job_id t :
  tasks !! job_id = Some t ->
  written t < length (states t) ->
  exists t',
    run (replicate (length (states t) - S (written t)) (Assign job_id)) tasks
      !! job_id = Some t' /\
    returned t' /\
    req t' = req t /\ urls t' = urls t /\ env t' = env t /\
    created t' = created t.
Proof.
  remember (length (states t) - S (written t)) as n eqn:Hn.
  revert tasks t Hn. induction n as [|n IH]; intros tasks t Hn Ht Hlt.
  - exists t. cbn. repeat split; [done|]. unfold returned. lia.
  - cbn [replicate run foldl step]. rewrite Ht.
    assert ((S (written t) <? length (states t)) = true) as ->
      by (apply Nat.ltb_lt; lia).
    set (t1 := {| req := req t; urls := urls t; env := env t;
                  created := created t; written := S (written t) |}).
    destruct (IH (<[job_id := t1]> tasks) t1) as (t' & H1 & H2 & H3);
      [cbn; change (states t1) with (states t); lia
      |apply lookup_insert_eq
      |cbn; change (states t1) with (states t); lia|].
    exists t'. change (states t1) with (states t) in H1.
    replace (length (states t) - S (written t1)) with n in H1
      by (cbn; lia).
    done.
Qed.
Lemma download_registers4 tasks r found e uuid jobs' us :
  api_download r found uuid (jobs tasks) = inr (jobs', us) ->
  jobs (step tasks (Download r found e uuid)) = jobs'.
Proof.
  intros Hd. cbn [step]. rewrite Hd.
  unfold api_download in Hd. destruct (negb _); [done|].
  destruct (if bool_decide _ then _ else _) as [|[|u us']]; try done.
  injection Hd as <- <-. unfold jobs. rewrite fmap_insert.
  by rewrite current_created4.
Qed.

End v4_server_facts.

(** ** Repeated polls *)

Section repeated_polls.

#[local] Arguments lit : simpl never.
#[local] Arguments show : simpl never.

Lemma assign_keeps_status st f (E : V3.WorkerState -> Prop) :
  (forall j, V3.JobState.status (f j) = V3.JobState.status j) ->
  hoare (fun w => V3.JobState.status (V3.job w) = st) (V3.assign f)
    (fun _ w => V3.JobState.status (V3.job w) = st) E.
Proof.
  intros Hf. apply hoare_assign. intros w Hw. cbn [V3.job]. by rewrite Hf.
Qed.

(** The worker always returns, and leaves the job ['complete'] or
    ['failed']. *)
Lemma v3_worker_ends_terminal req env :
  hoare (fun _ => True) (V3._download_worker req env)
    (fun _ w => terminal (V3.JobState.status (V3.job w))) (fun _ => False).
Proof.
  unfold V3._download_worker.
  apply hoare_seq; [apply hoare_assign; by intros|intros _].
  apply (hoare_try_except _ _ _ _ (fun _ => True)).
  2:{ intros e. unfold V3.fatal.
      apply (hoare_bind _ _ _
               (fun _ w => V3.JobState.status (V3.job w) = lit "failed")).
      - apply hoare_assign. by intros.
      - intros _. apply hoare_assign. intros w Hw. by right. }
  apply (hoare_bind _ _ _
           (fun reached w =>
              reached = None ->
              V3.JobState.status (V3.job w) = lit "failed")).
  - unfold V3.try_block_until.
    apply (hoare_bind _ _ _ (fun _ _ => True)); [apply hoare_any|].
    intros [|u us].
    + apply (hoare_bind _ _ _
               (fun _ w => V3.JobState.status (V3.job w) = lit "failed"));
        [apply hoare_assign; by intros|intros _].
      apply (hoare_bind _ _ _
               (fun _ w => V3.JobState.status (V3.job w) = lit "failed"));
        [by apply assign_keeps_status|intros _].
      apply hoare_ret. by intros.
    + apply (hoare_bind _ _ _ (fun _ _ => True)); [apply hoare_any|].
      intros _. by apply hoare_ret.
  - intros [[]|].
    + unfold V3.finish.
      set (done := fun w : V3.WorkerState =>
                     V3.JobState.status (V3.job w) = lit "complete").
      apply (hoare_bind _ _ _ (fun _ => done));
        [apply hoare_assign; by intros|intros _].
      apply (hoare_bind _ _ _ (fun _ => done));
        [by apply assign_keeps_status|intros _].
      apply (hoare_bind _ _ _ (fun _ => done)).
      { apply hoare_bind with (R := fun _ => done).
        - apply hoare_get. by intros.
        - intros w. by apply hoare_ret. }
      intros j.
      apply (hoare_bind _ _ _ (fun _ => done));
        [by apply assign_keeps_status|intros _].
      destruct (V3.save_log env).
      * by apply hoare_raise.
      * apply hoare_effect. intros w Hw. by left.
    + apply hoare_ret. intros w Hw. right. by apply Hw.
Qed.

(** The job of the engine without Tor ends ['complete'], unless the pool
    could not be created. *)
Lemma v4_job_ends_complete env audio video transcripts concurrent urls :
  hoare (fun _ => True)
    (V4.process_download_job env audio video transcripts concurrent urls)
    (fun _ w => V4.Job.status (V4.job w) = lit "complete") (fun _ => True).
Proof.
  unfold V4.process_download_job.
  apply (hoare_bind _ _ _ (fun _ _ => True)); [apply hoare_any|intros _].
  apply (hoare_bind _ _ _
           (fun _ w => V4.Job.status (V4.job w) = lit "complete"));
    [apply hoare_assign4; by intros|intros _].
  apply (hoare_bind _ _ _
           (fun _ w => V4.Job.status (V4.job w) = lit "complete")).
  { apply hoare_bind
      with (R := fun _ w => V4.Job.status (V4.job w) = lit "complete").
    - apply hoare_get. by intros.
    - intros w. by apply hoare_ret. }
  intros j.
  apply (hoare_bind _ _ _
           (fun _ w => V4.Job.status (V4.job w) = lit "complete"));
    [apply hoare_assign4; by intros|intros _].
  apply hoare_assign4. by intros.
Qed.

(** C7: once the worker of a job has made its last assignment, nothing
    the server does changes what a poll of the job returns, as long as
    [uuid4] does not draw the identifier of the job again: the other
    requests for downloads, the assignments of the other workers and the
    polls leave the job as it is.  Two polls of the Tor-backed engine then
    agree on every field except [elapsed], which is computed from the clock
    at each poll, and show a status ['complete'] or ['failed']; two polls
    of the engine without Tor, which stores [elapsed] when the job ends,
    return the same response, with the status ['complete'] when the worker
    has returned without an exception.  Given its turns, the worker of a
    registered job makes its last assignment.  The worker of the Tor-backed
    engine always returns and leaves its job ['complete'] or ['failed'];
    the job of the engine without Tor ends ['complete']. *)
Theorem polls_agree_except_elapsed :
  (forall (tasks : gmap pystr V3_server.Task) job_id t actions now1 now2,
     tasks !! job_id = Some t ->
     V3_server.returned t ->
     existsb (V3_server.draws job_id) actions = false ->
     exists r1 r2,
       V3.api_progress (V3_server.jobs tasks) job_id now1 = inr r1 /\
       V3.api_progress (V3_server.jobs (V3_server.run actions tasks))
         job_id now2 = inr r2 /\
       stable_fields r1 = stable_fields r2 /\
       V3.ProgressResponse.elapsed r1
         = (now1 - V3.ProgressResponse.start_time r1)%float /\
       V3.ProgressResponse.elapsed r2
         = (now2 - V3.ProgressResponse.start_time r2)%float /\
       terminal (V3.ProgressResponse.status r1))
  /\
  (forall (tasks : gmap pystr V4_server.Task) job_id t actions,
     tasks !! job_id = Some t ->
     V4_server.returned t ->
     existsb (V4_server.draws job_id) actions = false ->
     exists r,
       V4.get_progress (V4_server.jobs tasks) job_id = inr r /\
       V4.get_progress (V4_server.jobs (V4_server.run actions tasks)) job_id
         = inr r /\
       ((V4.process_download_job (V4_server.env t)
           (V4.DownloadRequest.audio (V4_server.req t))
           (V4.DownloadRequest.video (V4_server.req t))
           (V4.DownloadRequest.transcripts (V4_server.req t))
           (V4.DownloadRequest.concurrent_downloads (V4_server.req t))
           (V4_server.urls t) (V4.worker_start (V4_server.created t))).1
        = inr tt ->
        V4.ProgressResponse.status r = lit "complete"))
  /\
  (forall (tasks : gmap pystr V3_server.Task) job_id t,
     tasks !! job_id = Some t ->
     V3_server.written t < length (V3_server.states t) ->
     exists t',
       V3_server.run
         (replicate (length (V3_server.states t) - S (V3_server.written t))
            (V3_server.Assign job_id)) tasks !! job_id = Some t' /\
       V3_server.returned t' /\
       V3_server.req t' = V3_server.req t /\
       V3_server.env t' = V3_server.env t /\
       V3_server.created t' = V3_server.created t)
  /\
  (forall (tasks : gmap pystr V4_server.Task) job_id t,
     tasks !! job_id = Some t ->
     V4_server.written t < length (V4_server.states t) ->
     exists t',
       V4_server.run
         (replicate (length (V4_server.states t) - S (V4_server.written t))
            (V4_server.Assign job_id)) tasks !! job_id = Some t' /\
       V4_server.returned t' /\
       V4_server.req t' = V4_server.req t /\
       V4_server.urls t' = V4_server.urls t /\
       V4_server.env t' = V4_server.env t /\
       V4_server.created t' = V4_server.created t)
  /\
  (forall req env w0,
     exists w,
       V3._download_worker req env w0 = (inr tt, w) /\
       terminal (V3.JobState.status (V3.job w)))
  /\
  (forall env audio video transcripts concurrent urls w0 w,
     V4.process_download_job env audio video transcripts concurrent urls w0
       = (inr tt, w) ->
     V4.Job.status (V4.job w) = lit "complete").
Proof.
  split; [|split; [|split; [|split; [|split]]]];
    [| |apply worker_reaches_return|apply worker_reaches_return4| |].
  - intros tasks job_id t actions now1 now2 Ht Hret Hd.
    pose proof (run_keeps_returned actions tasks job_id t Ht Hret Hd) as Ht'.
    unfold V3.api_progress, V3_server.jobs.
    rewrite !lookup_fmap, Ht, Ht'. cbn [fmap option_fmap option_map].
    eexists _, _. split; [reflexivity|]. split; [reflexivity|].
    split; [reflexivity|]. split; [reflexivity|]. split; [reflexivity|].
    cbn [V3.ProgressResponse.status]. rewrite (current_returned t Hret).
    pose proof (v3_worker_ends_terminal (V3_server.req t) (V3_server.env t)
                  (V3.worker_start (V3_server.created t)) I) as H.
    by destruct (V3._download_worker _ _ _) as [[e|[]] w].
  - intros tasks job_id t actions Ht Hret Hd.
    pose proof (run_keeps_returned4 actions tasks job_id t Ht Hret Hd) as Ht'.
    unfold V4.get_progress, V4_server.jobs.
    rewrite !lookup_fmap, Ht, Ht'. cbn [fmap option_fmap option_map].
    eexists. split; [reflexivity|]. split; [reflexivity|].
    cbn [V4.ProgressResponse.status]. rewrite (current_returned4 t Hret).
    pose proof (v4_job_ends_complete (V4_server.env t)
                  (V4.DownloadRequest.audio (V4_server.req t))
                  (V4.DownloadRequest.video (V4_server.req t))
                  (V4.DownloadRequest.transcripts (V4_server.req t))
                  (V4.DownloadRequest.concurrent_downloads (V4_server.req t))
                  (V4_server.urls t)
                  (V4.worker_start (V4_server.created t)) I) as H.
    destruct (V4.process_download_job _ _ _ _ _ _ _) as [[e|[]] w];
      [done|by intros _].
  - intros req env w0.
    pose proof (v3_worker_ends_terminal req env w0 I) as H.
    destruct (V3._download_worker req env w0) as [[e|[]] w]; [done|].
    by exists w.
  - intros env audio video transcripts concurrent urls w0 w Hrun.
    pose proof (v4_job_ends_complete env audio video transcripts concurrent
                  urls w0 I) as H.
    by rewrite Hrun in H.
Qed.

End repeated_polls.

Section progress_instances.
Import Examples.

Lemma progress_endpoint_snapshot_witness :
  V3.api_progress ∅ job_one 150%float
    = inl {| V3.status_code := 404; V3.detail := lit "Job not found" |}
  /\
  (exists resp,
     V3.api_progress {[job_one := finished_one]} job_one 150%float = inr resp /\
     V3.ProgressResponse.status resp = V3.JobState.status finished_one /\
     V3.ProgressResponse.results resp
       = if bool_decide (V3.JobState.status finished_one = lit "complete")
         then V3.JobState.results finished_one else [])
  /\
  V3.api_progress
    (<[job_one := with_query (lit "another query") finished_one]>
       {[job_one := finished_one]}) job_one 150%float
  = V3.api_progress {[job_one := finished_one]} job_one 150%float
  /\
  (exists urls,
     resolved_urls request_one_url worker_one_ok = inr urls /\
     map V3.DownloadResult.url (V3.JobState.results finished_one)
       = omap (fun i => urls !! i) (V3.completion_order worker_one_ok))
  /\
  V4.get_progress ∅ job_one
    = inl {| V4.status_code := 404; V4.detail := lit "Job not found" |}
  /\
  (exists resp,
     V4.get_progress {[job_one := finished_one4]} job_one = inr resp /\
     V4.ProgressResponse.results resp
       = if bool_decide (V4.Job.status finished_one4 = lit "complete")
         then Some (V4.Job.results finished_one4) else None)
  /\
  V4.get_progress
    (<[job_one := V4.Job.set_start_time 0%float finished_one4]>
       {[job_one := finished_one4]}) job_one
  = V4.get_progress {[job_one := finished_one4]} job_one
  /\
  map V4.Result.url (V4.Job.results finished_one4) = [video_url].
Proof.
  destruct progress_endpoint_snapshot
    as (U3 & K3 & Q3 & O3 & U4 & K4 & S4 & O4).
  split; [|split; [|split; [|split; [|split; [|split; [|split]]]]]].
  - apply U3, lookup_empty.
  - destruct (K3 {[job_one := finished_one]} job_one 150%float finished_one
                (lookup_singleton_eq _ _))
      as (resp & Hresp & _ & Hst & _ & _ & _ & _ & _ & _ & _ & Hres).
    by exists resp.
  - apply (Q3 _ _ _ finished_one), lookup_singleton_eq.
  - apply (O3 request_one_url worker_one_ok job_one (lit "one video")
             100%float (inr tt)
             (V3._download_worker request_one_url worker_one_ok
                (V3.worker_start queued_one)).2);
      vm_compute; reflexivity.
  - apply U4, lookup_empty.
  - destruct (K4 {[job_one := finished_one4]} job_one finished_one4
                (lookup_singleton_eq _ _))
      as (resp & Hresp & _ & _ & _ & _ & _ & _ & _ & _ & _ & Hres).
    by exists resp.
  - apply (S4 _ _ finished_one4), lookup_singleton_eq.
  - apply (O4 worker_ok4 true false false (Some 3%Z) job_one
             (lit "one video") [video_url]).
    vm_compute; reflexivity.
Defined.

(** A job that is still ['downloading'] has a result, and the endpoint
    returns none. *)
Lemma running_job_results_withheld :
  exists resp,
    V3.api_progress {[job_one := updated_one]} job_one 150%float = inr resp /\
    V3.JobState.status updated_one = lit "downloading" /\
    length (V3.JobState.results updated_one) = 1 /\
    V3.ProgressResponse.results resp = [] /\
    V3.ProgressResponse.results resp <> V3.JobState.results updated_one.
Proof.
  unfold V3.api_progress. rewrite lookup_singleton_eq.
  eexists. split; [reflexivity|].
  split; [vm_compute; reflexivity|]. split; [vm_compute; reflexivity|].
  cbn [V3.ProgressResponse.results].
  assert (V3.JobState.status updated_one <> lit "complete") as Hst
    by (vm_compute; discriminate).
  rewrite bool_decide_eq_false_2 by done.
  split; [done|]. intros H.
  apply (f_equal length) in H. vm_compute in H. discriminate H.
Qed.

Lemma polls_agree_except_elapsed_witness :
  (exists r1 r2,
     V3.api_progress (V3_server.jobs server_one) job_one 200%float = inr r1 /\
     V3.api_progress
       (V3_server.jobs (V3_server.run between_polls server_one))
       job_one 201%float = inr r2 /\
     stable_fields r1 = stable_fields r2 /\
     V3.ProgressResponse.elapsed r1
       = (200 - V3.ProgressResponse.start_time r1)%float /\
     V3.ProgressResponse.elapsed r2
       = (201 - V3.ProgressResponse.start_time r2)%float /\
     terminal (V3.ProgressResponse.status r1))
  /\
  (exists r,
     V4.get_progress (V4_server.jobs server_one4) job_one = inr r /\
     V4.get_progress
       (V4_server.jobs (V4_server.run between_polls4 server_one4))
       job_one = inr r /\
     V4.ProgressResponse.status r = lit "complete").
Proof.
  destruct polls_agree_except_elapsed as (P3 & P4 & _).
  split.
  - apply (P3 server_one job_one task_one between_polls);
      vm_compute; reflexivity.
  - destruct (P4 server_one4 job_one task_one4 between_polls4)
      as (r & H1 & H2 & Hst); [vm_compute; reflexivity..|].
    exists r. split; [done|]. split; [done|].
    apply Hst. vm_compute. reflexivity.
Defined.

(** Two polls of a completed job of the Tor-backed engine, one second
    apart, return different responses: [elapsed] has moved on. *)
Lemma polls_of_complete_job_differ :
  V3.JobState.status finished_one = lit "complete" /\
  V3.api_progress {[job_one := finished_one]} job_one 200%float
    <> V3.api_progress {[job_one := finished_one]} job_one 201%float.
Proof.
  split; [vm_compute; reflexivity|].
  unfold V3.api_progress. rewrite lookup_singleton_eq. intros H.
  apply (f_equal (fun r =>
           match r with
           | inr resp => PrimFloat.eqb (V3.ProgressResponse.elapsed resp) 100
           | inl _ => false
           end)) in H.
  vm_compute in H. discriminate H.
Qed.

(** In the engine without Tor the status becomes ['complete'] before the
    elapsed time and the final message are written: two states of the job
    with the status ['complete'] give different responses. *)
Lemma complete_status_precedes_last_writes :
  exists j1 j2,
    j1 ∈ V4.history (V4.process_download_job worker_ok4 true false false
                       (Some 3%Z) [video_url]
                       (V4.worker_start queued_one4)).2 /\
    j2 ∈ V4.history (V4.process_download_job worker_ok4 true false false
                       (Some 3%Z) [video_url]
                       (V4.worker_start queued_one4)).2 /\
    V4.Job.status j1 = lit "complete" /\
    V4.Job.status j2 = lit "complete" /\
    V4.Job.message j1 <> V4.Job.message j2.
Proof.
  eexists _, _. split; [vm_compute; apply list_elem_of_here|].
  split; [vm_compute; apply list_elem_of_further, list_elem_of_further,
            list_elem_of_here|].
  split; [reflexivity|]. split; [reflexivity|]. discriminate.
Qed.

End progress_instances.

(** * Scenarios *)

Section scenarios.
Import Examples.

(** Five items, two at a time, all successful at the first attempt: the job
    ends ['complete'] at 100 percent with five successes, no failure and
    five results, in the order of completion; the first thing the worker
    did besides writing to the job was to create a pool of two workers. *)
Lemma five_items_all_succeed :
  let w := (V3._download_worker request_five worker_five_ok
              (V3.worker_start queued_five)).2 in
  V3.JobState.status (V3.job w) = lit "complete" /\
  V3.JobState.progress (V3.job w) = 100%Z /\
  V3.JobState.completed_videos (V3.job w) = 5 /\
  V3.JobState.failed_videos (V3.job w) = 0 /\
  map V3.DownloadResult.url (V3.JobState.results (V3.job w))
    = [lit "https://youtu.be/b"; lit "https://youtu.be/a";
       lit "https://youtu.be/d"; lit "https://youtu.be/c";
       lit "https://youtu.be/e"] /\
  last (V3.events w) = Some (V3.PoolCreated 2).
Proof. vm_compute. repeat split. Qed.

(** An exception that escapes [download_video] fails the whole job: its
    status is ['failed'] with fewer counted results than items. *)
Lemma failed_job_may_miss_results :
  let w := (V3._download_worker request_five worker_first_raises
              (V3.worker_start queued_five)).2 in
  V3.JobState.status (V3.job w) = lit "failed" /\
  V3.JobState.total_videos (V3.job w) = 5 /\
  V3.JobState.completed_videos (V3.job w)
    + V3.JobState.failed_videos (V3.job w) = 0 /\
  V3.JobState.message (V3.job w)
    = lit "Error: 'utf-8' codec can't decode byte 0xff in position 0".
Proof. vm_compute. repeat split. Qed.

(** The percentage is computed in binary64 and truncated: 29 of 100 items
    give 28. *)
Lemma progress_percent_in_binary64 :
  V3.progress_percent 29 100 = 28%Z /\
  V3.progress_percent 1 3 = 33%Z /\
  V3.progress_percent 5 5 = 100%Z.
Proof. vm_compute. repeat split. Qed.

(** [sanitize_name] on a query with a colon, runs of blanks and a
    question mark. *)
Lemma sanitize_name_example :
  V3.sanitize_name (lit "  Kiss: Greatest   Hits? ") 80
  = lit "Kiss_Greatest_Hits".
Proof. vm_compute. reflexivity. Qed.

End scenarios.
(** * The name sanitizers *)

Section sanitizer_facts.
Import V3.

Lemma lstrip_head (s : pystr) :
  match lstrip s with [] => True | c :: _ => is_space c = false end.
Proof.
  induction s as [|a s IH]; simpl; [done|].
  by destruct (is_space a) eqn:Ha; [|simpl].
Qed.

Lemma lstrip_fixed (s : pystr) :
  match s with [] => True | c :: _ => is_space c = false end -> lstrip s = s.
Proof. destruct s as [|a s]; simpl; [done|]. by intros ->. Qed.

Lemma lstrip_idem (s : pystr) : lstrip (lstrip s) = lstrip s.
Proof. apply lstrip_fixed, lstrip_head. Qed.

Lemma lstrip_suffix (s : pystr) : lstrip s `suffix_of` s.
Proof.
  induction s as [|a s IH]; simpl; [done|].
  destruct (is_space a); [|done]. by apply suffix_cons_r.
Qed.

Lemma strip_idem (s : pystr) : strip (strip s) = strip s.
Proof.
  unfold strip. set (t := lstrip (reverse (lstrip s))).
  assert (lstrip (reverse t) = reverse t) as ->.
  { apply lstrip_fixed.
    destruct (lstrip_suffix (reverse (lstrip s))) as [p Hp]. fold t in Hp.
    apply (f_equal reverse) in Hp. rewrite reverse_involutive, reverse_app in Hp.
    pose proof (lstrip_head s) as Hh. rewrite Hp in Hh.
    by destruct (reverse t). }
  rewrite reverse_involutive. unfold t. by rewrite lstrip_idem.
Qed.

Lemma strip_no_space (s : pystr) :
  Forall (fun c => is_space c = false) s -> strip s = s.
Proof.
  intros Hs. unfold strip.
  assert (forall t : pystr, Forall (fun c => is_space c = false) t -> lstrip t = t) as Hl.
  { intros t Ht. apply lstrip_fixed. by destruct Ht. }
  rewrite (Hl s Hs), Hl, reverse_involutive; [done|].
  by apply Forall_reverse.
Qed.

Lemma sub_whitespace_runs_no_space (s : pystr) :
  Forall (fun c => is_space c = false) s -> sub_whitespace_runs false s = s.
Proof.
  induction 1 as [|c s Hc _ IH]; simpl; [done|]. by rewrite Hc, IH.
Qed.

Lemma filter_all {A} (p : A -> bool) (l : list A) :
  Forall (fun x => p x = true) l -> List.filter p l = l.
Proof. induction 1 as [|x l Hx _ IH]; simpl; [done|]. by rewrite Hx, IH. Qed.

End sanitizer_facts.

Section sanitizer_theorems.
Import V3.

Lemma sanitize_name_clean (s : pystr) (max_len : Z) :
  Forall (fun c => in_class removed_class c = false /\ is_space c = false)
    (sanitize_name s max_len).
Proof.
  unfold sanitize_name. set (s1 := List.filter _ s).
  destruct (sub_whitespace_runs false (strip s1)) as [|a t] eqn:E.
  - apply (bool_decide_unpack _). by vm_compute.
  - apply Forall_forall. intros c Hc.
    apply slice_to_subset in Hc. rewrite <- E in Hc.
    apply sub_whitespace_runs_elem in Hc as [->|[Hc Hsp]]; [done|].
    split; [|done]. apply strip_subset in Hc.
    apply list_elem_of_In, filter_In in Hc as [_ Hc].
    by apply negb_true_iff in Hc.
Qed.

(** [sanitize_name] is idempotent when [max_len] is at least 14, the length
    of the fallback name: a name that went through it once comes out of a
    second pass unchanged. *)
Theorem sanitize_name_idempotent (s : pystr) (max_len : Z) :
  (14 <= max_len)%Z ->
  sanitize_name (sanitize_name s max_len) max_len = sanitize_name s max_len.
Proof.
  intros Hmax.
  pose proof (sanitize_name_clean s max_len) as Hclean.
  assert (sanitize_name s max_len <> [] /\
          length (sanitize_name s max_len) ≤ Z.to_nat max_len) as [Hne Hlen].
  { unfold sanitize_name.
    destruct (sub_whitespace_runs false (strip _)) as [|a t].
    - split; [done|]. change (length (lit "search_results")) with 14. lia.
    - split; [|apply slice_to_length; lia].
      unfold slice_to. destruct (Z.leb_spec 0 max_len); [|lia].
      destruct (Z.to_nat max_len) eqn:Hn; [lia|done]. }
  set (r := sanitize_name s max_len) in *.
  unfold sanitize_name at 1.
  rewrite filter_all.
  2:{ eapply Forall_impl; [exact Hclean|]. intros c [-> _]. done. }
  assert (Forall (fun c => is_space c = false) r) as Hsp.
  { eapply Forall_impl; [exact Hclean|]. by intros c [_ ?]. }
  rewrite (strip_no_space r Hsp), (sub_whitespace_runs_no_space r Hsp).
  destruct r as [|a t]; [done|].
  unfold slice_to. destruct (Z.leb_spec 0 max_len); [|lia].
  by apply take_ge.
Qed.

Lemma sanitize_name_idempotent_witness :
  sanitize_name (sanitize_name (lit "a: b?") 80) 80
  = sanitize_name (lit "a: b?") 80.
Proof. apply sanitize_name_idempotent. lia. Defined.

(** Below 14 the fallback name does not survive a second pass. *)
Lemma sanitize_name_short_limit (max_len : Z) :
  (0 <= max_len < 14)%Z ->
  sanitize_name (sanitize_name [] max_len) max_len <> sanitize_name [] max_len.
Proof.
  intros H.
  assert (Z.to_nat max_len < 14) as Hn by lia.
  rewrite <- (Z2Nat.id max_len) by lia.
  generalize dependent (Z.to_nat max_len). intros k Hk.
  do 14 (destruct k as [|k]; [by vm_compute|]). lia.
Qed.

(** What [sanitize_dirname] leaves. *)
Lemma sanitize_dirname_clean (s : pystr) :
  Forall (fun c => existsb (N.eqb c) forbidden_chars = false /\ c <> 32%N)
    (V4.sanitize_dirname s).
Proof.
  unfold V4.sanitize_dirname.
  set (s1 := List.filter _ s). set (s2 := map _ s1).
  assert (Forall (fun c => existsb (N.eqb c) forbidden_chars = false
                           /\ c <> 32%N) (strip s2)) as H.
  { apply Forall_forall. intros c Hc. apply strip_subset in Hc.
    apply list_elem_of_fmap in Hc as (b & -> & Hb).
    apply list_elem_of_In, filter_In in Hb as [_ Hb].
    apply negb_true_iff in Hb.
    destruct (N.eqb_spec b 32) as [->|Hn]; [done|]. done. }
  destruct (strip s2) as [|a t] eqn:E; [|done].
  apply (bool_decide_unpack _). by vm_compute.
Qed.

Lemma sanitize_dirname_stripped (s : pystr) :
  V4.sanitize_dirname s <> [] /\
  strip (V4.sanitize_dirname s) = V4.sanitize_dirname s.
Proof.
  unfold V4.sanitize_dirname.
  set (s2 := map _ (List.filter _ s)).
  destruct (strip s2) as [|a t] eqn:E.
  - split; [done|by vm_compute].
  - split; [done|]. rewrite <- E. apply strip_idem.
Qed.

(** [sanitize_dirname] never returns an empty name; the name holds none of
    less-than, greater-than, colon, double quote, slash, backslash, bar,
    question mark and star and no space character, and neither starts nor
    ends with whitespace. *)
Theorem sanitize_dirname_spec (s : pystr) :
  let r := V4.sanitize_dirname s in
  r <> [] /\
  (forall c, c ∈ r -> (c ∉ forbidden_chars) /\ c <> 32%N) /\
  strip r = r.
Proof.
  cbv zeta. destruct (sanitize_dirname_stripped s) as [Hne Hstrip].
  split; [done|]. split; [|done].
  intros c Hc.
  pose proof (sanitize_dirname_clean s) as H.
  rewrite Forall_forall in H. destruct (H c Hc) as [H1 H2].
  split; [|done]. by apply in_class_false_notin.
Qed.

(** [sanitize_dirname] is idempotent: a name that went through it once
    comes out of a second pass unchanged. *)
Theorem sanitize_dirname_idempotent (s : pystr) :
  V4.sanitize_dirname (V4.sanitize_dirname s) = V4.sanitize_dirname s.
Proof.
  pose proof (sanitize_dirname_clean s) as Hclean.
  destruct (sanitize_dirname_stripped s) as [Hne Hstrip].
  set (r := V4.sanitize_dirname s) in *.
  unfold V4.sanitize_dirname at 1.
  rewrite filter_all.
  2:{ eapply Forall_impl; [exact Hclean|]. intros c [H _].
      apply negb_true_iff. exact H. }
  assert (map (fun c : N => if (c =? 32)%N then 95%N else c) r = r) as ->.
  { clear -Hclean. induction Hclean as [|c r [_ Hc] _ IH]; simpl; [done|].
    rewrite IH. by destruct (N.eqb_spec c 32). }
  rewrite Hstrip. by destruct r.
Qed.

End sanitizer_theorems.
(** * What [download_video] returns *)

Section download_video_facts.
Import V3.
Local Open Scope py_scope.

#[local] Arguments lit : simpl never.

Lemma quiet_now n env (E : DvState -> Prop) :
  hoare (attempts_are n) (now env) (fun _ => attempts_are n) E.
Proof. by intros s Hs. Qed.

Lemma quiet_update_limiter n f (E : DvState -> Prop) :
  hoare (attempts_are n) (update_limiter f) (fun _ => attempts_are n) E.
Proof. by intros s Hs. Qed.

Lemma quiet_sleep n d :
  hoare (attempts_are n) (sleep d) (fun _ => attempts_are n) (fun _ => True).
Proof. intros s Hs. unfold sleep. by destruct (d <? 0)%float. Qed.

Lemma quiet_before_attempt n env attempt :
  hoare (attempts_are n) (before_attempt env attempt)
    (fun _ => attempts_are n) (fun _ => True).
Proof.
  unfold before_attempt, should_wait.
  apply hoare_seq; [apply quiet_update_limiter|intros _].
  apply (hoare_bind _ _ _ (fun _ => attempts_are n)).
  - apply hoare_seq; [apply quiet_now|intros t1].
    apply hoare_seq; [by apply hoare_get|intros s].
    destruct (t1 <? _)%float.
    + apply hoare_seq; [apply quiet_now|intros t2]. by apply hoare_ret.
    + by apply hoare_ret.
  - intros [[] d]; [apply quiet_sleep|by apply hoare_ret].
Qed.

Lemma quiet_record_429 n env :
  hoare (attempts_are n) (rate_limiter_record_429 env)
    (fun _ => attempts_are n) (fun _ => True).
Proof.
  unfold rate_limiter_record_429.
  apply hoare_seq; [apply quiet_now|intros t1].
  apply hoare_seq; [apply quiet_now|intros t2].
  apply quiet_update_limiter.
Qed.

Lemma failed_result_accounted env url start error retries ip base :
  hoare (attempts_are (base + retries))
    (failed_result env url start error retries ip)
    (fun r s => accounted env url base r s) (fun _ => True).
Proof.
  intros s Hs. cbn. unfold accounted, result_shape, succeeded, attempts_are.
  unfold attempts_are in Hs.
  cbn. rewrite bool_decide_eq_false_2 by (intros E; by vm_compute in E).
  split; [split; [done|]; split; [done|]; split; [done|]; by right|].
  split; [lia|done].
Qed.

Lemma retry_loop_accounted env url audio video transcripts start todo
    retries base :
  hoare (attempts_are (base + retries))
    (retry_loop env url audio video transcripts start todo retries)
    (fun r s => accounted env url base r s) (fun _ => True).
Proof.
  revert retries. induction todo as [|attempt todo IH]; intros retries.
  - apply failed_result_accounted.
  - cbn [retry_loop].
    apply hoare_seq; [apply quiet_before_attempt|intros _].
    apply (hoare_bind _ _ _ (fun _ => attempts_are (base + S retries))).
    { intros s Hs. unfold attempts_are in *. cbn. lia. }
    intros _.
    assert (forall e : pystr,
      hoare (attempts_are (base + S retries))
        (if attempt <? MAX_RETRIES - 1
         then retry_sleep attempt ;;
              retry_loop env url audio video transcripts start todo (S retries)
         else failed_result env url start e (S retries) [])
        (fun r s => accounted env url base r s) (fun _ => True)) as Hnext.
    { intros e. destruct (attempt <? MAX_RETRIES - 1).
      - apply hoare_seq; [apply quiet_sleep|intros _]. apply IH.
      - apply failed_result_accounted. }
    destruct (run_tool audio video transcripts (attempt_env env attempt))
      as [[stderr str_e| |str_e]|].
    + (* CalledProcessError *)
      apply hoare_seq; [by apply hoare_of_sum; intros s Hs; destruct error_message|].
      intros error_msg.
      assert (hoare (attempts_are (base + S retries))
        (if is_unavailable error_msg
         then failed_result env url start (lit "Video unavailable") (S retries) []
         else if is_age_restricted error_msg
         then failed_result env url start (lit "Age-restricted (need cookies)")
                (S retries) []
         else if attempt <? MAX_RETRIES - 1
         then retry_sleep attempt ;;
              retry_loop env url audio video transcripts start todo (S retries)
         else failed_result env url start (take 150 error_msg) (S retries) [])
        (fun r s => accounted env url base r s) (fun _ => True)) as Hrest.
      { destruct (is_unavailable error_msg); [apply failed_result_accounted|].
        destruct (is_age_restricted error_msg);
          [apply failed_result_accounted|]. apply Hnext. }
      destruct (is_429 error_msg); [|exact Hrest].
      apply hoare_seq; [apply quiet_update_limiter|intros _].
      apply hoare_seq; [apply quiet_record_429|intros _].
      apply hoare_seq; [by apply hoare_get|intros s].
      destruct (ip_rotation_needed (limiter s));
        [apply failed_result_accounted|].
      destruct (attempt <? MAX_RETRIES - 1); [|exact Hrest].
      exact (Hnext []).
    + (* TimeoutExpired *)
      specialize (Hnext (lit "Timeout - video too large or connection slow")).
      destruct (attempt <? MAX_RETRIES - 1); [exact Hnext|].
      apply failed_result_accounted.
    + apply Hnext.
    + (* the tool ran *)
      apply hoare_seq; [apply quiet_update_limiter|intros _].
      apply (hoare_bind _ _ _
               (fun _ s => attempts_are (base + S retries) s /\
                           reset (limiter s))).
      { intros s Hs. by split. }
      intros _.
      destruct (if audio then audio_size (attempt_env env attempt)
                else inr 0%float) as [str_e|size].
      * eapply hoare_consequence; [apply (Hnext (take 150 str_e))| |done|done].
        by intros s [Hs _].
      * intros s [Hs Hreset]. cbn.
        unfold accounted, result_shape, succeeded, attempts_are. cbn.
        unfold attempts_are in Hs.
        rewrite bool_decide_eq_true_2 by done.
        split; [split; [done|]; split; [done|]; split; [done|]; by left|].
        split; [lia|]. intros _. by exists attempt, (limiter s).
Qed.

Lemma download_video_accounted env url audio video transcripts s :
  match download_video env url audio video transcripts s with
  | (inr r, s') => accounted env url (count_attempts (trace s)) r s'
  | (inl _, _) => True
  end.
Proof.
  unfold download_video.
  apply (hoare_bind (attempts_are (count_attempts (trace s) + 0)) _ _
           (fun _ => attempts_are (count_attempts (trace s) + 0))
           (fun r s' => accounted env url (count_attempts (trace s)) r s')
           (fun _ => True)).
  - apply quiet_now.
  - intros start. apply retry_loop_accounted.
  - unfold attempts_are. lia.
Qed.

(** Every result [download_video(url, ...)] returns carries the URL and
    the title of the item, and is either a success without an error text or
    a failure with an error text and a size of 0. *)
Theorem download_video_result_fields env url audio video transcripts s r s' :
  download_video env url audio video transcripts s = (inr r, s') ->
  DownloadResult.url r = url /\
  DownloadResult.title r = video_title env /\
  ((DownloadResult.status r = lit "success" /\ DownloadResult.error r = None)
   \/
   (DownloadResult.status r = lit "failed" /\
    DownloadResult.error r <> None /\
    DownloadResult.size_mb r = 0%float)).
Proof.
  intros Hrun.
  pose proof (download_video_accounted env url audio video transcripts s) as H.
  rewrite Hrun in H. destruct H as ((Hu & Ht & _ & Hst) & _). done.
Qed.

(** The [retries] of a result count the attempts that failed: a success
    comes after [retries] failed attempts and one more, a failure after
    exactly [retries] attempts; a success has at most 2 retries and a
    failure at most 3. *)
Theorem retries_count_failed_attempts env url audio video transcripts s r s' :
  download_video env url audio video transcripts s = (inr r, s') ->
  count_attempts (trace s')
    = count_attempts (trace s) + DownloadResult.retries r
      + (if succeeded r then 1 else 0) /\
  DownloadResult.retries r + (if succeeded r then 1 else 0) ≤ 3.
Proof.
  intros Hrun.
  pose proof (download_video_accounted env url audio video transcripts s) as H.
  rewrite Hrun in H. destruct H as (_ & Hn & _). unfold attempts_are in Hn.
  split; [done|].
  assert (at_most 3 (download_video env url audio video transcripts)) as Hmax.
  { unfold download_video.
    apply at_most_bind; [apply at_most_now|intros start].
    apply (retry_loop_at_most env url audio video transcripts start
             (seq 0 MAX_RETRIES) 0). }
  specialize (Hmax s). rewrite Hrun in Hmax. cbn [snd] in Hmax. lia.
Qed.

(** A download that succeeds resets the shared tracker: when no other
    thread writes to the tracker between the [record_success()] of the
    successful attempt and the return, [download_video] leaves it with no
    throttle counted and the rotation flag down, whatever the tracker held
    before.  No lock guards the tracker: a throttle that another thread
    records in between is what the tracker shows at the return. *)
Theorem success_resets_tracker env url audio video transcripts s r s' :
  download_video env url audio video transcripts s = (inr r, s') ->
  DownloadResult.status r = lit "success" ->
  (exists attempt tracker,
     consecutive_429s tracker = 0 /\
     ip_rotation_needed tracker = false /\
     limiter s' = others_returning (attempt_env env attempt) tracker) /\
  ((forall attempt tracker,
      others_returning (attempt_env env attempt) tracker = tracker) ->
   consecutive_429s (limiter s') = 0 /\
   ip_rotation_needed (limiter s') = false).
Proof.
  intros Hrun Hok.
  pose proof (download_video_accounted env url audio video transcripts s) as H.
  rewrite Hrun in H. destruct H as (_ & _ & Hreset).
  destruct Hreset as (attempt & tracker & [Hcount Hflag] & Hs).
  { unfold succeeded. by apply bool_decide_eq_true_2. }
  split.
  - by exists attempt, tracker.
  - intros Halone. by rewrite Hs, Halone.
Qed.

End download_video_facts.

Section download_video_instances.
Import V3 Examples.

Lemma download_video_result_fields_witness :
  let r := failure item_unavailable video_url 0%float
             (lit "Video unavailable") 1 []
             (attempted 0 fresh_thread_checked) in
  DownloadResult.url r = video_url /\
  DownloadResult.title r = video_title item_unavailable /\
  ((DownloadResult.status r = lit "success" /\ DownloadResult.error r = None)
   \/
   (DownloadResult.status r = lit "failed" /\
    DownloadResult.error r <> None /\
    DownloadResult.size_mb r = 0%float)).
Proof.
  apply (download_video_result_fields item_unavailable video_url true false
           false fresh_thread _ (tick (attempted 0 fresh_thread_checked))).
  reflexivity.
Defined.

Lemma retries_count_failed_attempts_witness :
  let r := failure item_timeouts video_url 0%float
             (lit "Timeout - video too large or connection slow") 3 []
             thread_after_timeouts in
  count_attempts (trace (tick thread_after_timeouts))
    = count_attempts (trace fresh_thread) + DownloadResult.retries r
      + (if succeeded r then 1 else 0) /\
  DownloadResult.retries r + (if succeeded r then 1 else 0) ≤ 3.
Proof.
  apply (retries_count_failed_attempts item_timeouts video_url true false
           false fresh_thread).
  reflexivity.
Defined.

Lemma success_resets_tracker_witness :
  consecutive_429s (limiter thread_two_throttles) = 2 /\
  consecutive_429s (limiter thread_after_success) = 0 /\
  ip_rotation_needed (limiter thread_after_success) = false.
Proof.
  split; [reflexivity|].
  apply (success_resets_tracker item_ok video_url true false false
           thread_two_throttles success_first_try thread_after_success);
    [reflexivity|reflexivity|by intros attempt tracker].
Defined.

(** Another thread records a throttle while the successful download sums
    the file sizes: the tracker shows one throttle when [download_video]
    returns its success. *)
Lemma success_may_return_a_throttled_tracker :
  exists r s',
    download_video item_overtaken video_url true false false
      thread_two_throttles = (inr r, s') /\
    DownloadResult.status r = lit "success" /\
    consecutive_429s (limiter s') = 1.
Proof. eexists _, _. split; [vm_compute; reflexivity|]. by split. Qed.

End download_video_instances.
(** * The counters of a job *)

Section V3_tally.
Import V3.
Local Open Scope py_scope.

#[local] Arguments lit : simpl never.
#[local] Arguments show : simpl never.
#[local] Arguments progress_percent : simpl never.

Lemma with_status_snoc status rs r :
  with_status status (rs ++ [r])
  = with_status status rs
    + (if bool_decide (DownloadResult.status r = status) then 1 else 0).
Proof.
  unfold with_status. rewrite List.filter_app, length_app. cbn.
  by destruct (bool_decide _).
Qed.

Lemma tallied_assign f (E : WorkerState -> Prop) :
  (forall j,
     JobState.completed_videos (f j) = JobState.completed_videos j /\
     JobState.failed_videos (f j) = JobState.failed_videos j /\
     JobState.results (f j) = JobState.results j) ->
  hoare (fun w => tallied (job w)) (assign f) (fun _ w => tallied (job w)) E.
Proof.
  intros Hf. apply hoare_assign. intros w Hw.
  destruct (Hf (job w)) as (E1 & E2 & E3).
  unfold tallied in *. cbn [job]. by rewrite E1, E2, E3.
Qed.

Lemma tallied_effect ev (E : WorkerState -> Prop) :
  hoare (fun w => tallied (job w)) (effect ev) (fun _ w => tallied (job w)) E.
Proof. apply hoare_effect. by intros w Hw. Qed.

Ltac keep_tally :=
  first [ apply tallied_assign; intros; by repeat split
        | apply tallied_effect
        | apply hoare_ret; by intros ].

Lemma item_update_tallied req env results k i :
  stable (fun w => tallied (job w)) (item_update req env results k i).
Proof.
  unfold stable, item_update. destruct (results !! i) as [url|]; [|keep_tally].
  eapply hoare_bind; [apply hoare_future_result|]. intros r.
  apply (hoare_bind _ _ _
           (fun _ w =>
              (exists old,
                 JobState.results (job w) = old ++ [r] /\
                 JobState.completed_videos (job w)
                   = with_status (lit "success") old /\
                 JobState.failed_videos (job w)
                   = with_status (lit "failed") old) /\
              status_ok r)).
  { apply hoare_assign. intros w ([Hc Hf] & Hr). split; [|done].
    by exists (JobState.results (job w)). }
  intros _.
  apply (hoare_bind _ _ _ (fun _ w => tallied (job w))).
  { intros w ((old & Hres & Hc & Hf) & [Hs|Hs]); revert w Hres Hc Hf;
      rewrite Hs.
    - rewrite bool_decide_eq_true_2 by done. intros w Hres Hc Hf.
      unfold tallied. cbn -[with_status]. rewrite Hres, !with_status_snoc, Hs, Hc, Hf.
      rewrite bool_decide_eq_true_2 by done.
      rewrite bool_decide_eq_false_2 by apply success_not_failed.
      split; lia.
    - rewrite bool_decide_eq_false_2 by apply not_eq_sym, success_not_failed.
      rewrite bool_decide_eq_true_2 by done. intros w Hres Hc Hf.
      unfold tallied. cbn -[with_status]. rewrite Hres, !with_status_snoc, Hs, Hc, Hf.
      rewrite bool_decide_eq_false_2 by apply not_eq_sym, success_not_failed.
      rewrite bool_decide_eq_true_2 by done.
      split; lia. }
  intros _.
  apply hoare_seq; [keep_tally|intros _].
  apply hoare_seq.
  { apply hoare_bind with (R := fun _ w => tallied (job w)).
    - apply hoare_get. by intros.
    - intros w. by apply hoare_ret. }
  intros j.
  apply hoare_seq; [keep_tally|intros _].
  destruct (rotation_flag env (k + 1)); [|keep_tally].
  apply hoare_seq; [keep_tally|intros _].
  apply hoare_seq; [keep_tally|intros _].
  apply hoare_seq; [destruct (rotate_tor env (k + 1)); keep_tally|intros _].
  keep_tally.
Qed.

Lemma completion_loop_tallied req env results todo k :
  stable (fun w => tallied (job w)) (completion_loop req env results todo k).
Proof.
  revert k. induction todo as [|i todo IH]; intros k; cbn [completion_loop].
  - by apply hoare_ret.
  - apply hoare_seq; [apply item_update_tallied|intros _; apply IH].
Qed.

Lemma submit_all_tallied i results :
  stable (fun w => tallied (job w)) (submit_all i results).
Proof.
  revert i. induction results as [|url results IH]; intros i; cbn [submit_all].
  - by apply hoare_ret.
  - apply hoare_seq; [apply tallied_effect|intros _; apply IH].
Qed.

Lemma download_worker_tallied req env :
  stable (fun w => tallied (job w)) (_download_worker req env).
Proof.
  unfold stable, _download_worker.
  apply hoare_seq; [keep_tally|intros _].
  apply (hoare_try_except _ _ _ _ (fun w => tallied (job w))).
  2:{ intros e. unfold fatal. apply hoare_seq; [keep_tally|intros _]. keep_tally. }
  apply (hoare_bind _ _ _ (fun _ w => tallied (job w))).
  - unfold try_block_until.
    apply (hoare_bind _ _ _ (fun _ w => tallied (job w))).
    + unfold resolve.
      apply (hoare_bind _ _ _ (fun _ w => tallied (job w))).
      * destruct (DownloadRequest.urls req) as [[|u us]|];
          [destruct (DownloadRequest.is_url req)| |
           destruct (DownloadRequest.is_url req)];
          try (apply hoare_seq; [keep_tally|intros _]; try keep_tally);
          (intros w Hw; unfold search_youtube; by destruct (first_results _)).
      * intros results. apply hoare_seq; [keep_tally|intros _]. keep_tally.
    + intros [|u us].
      * apply hoare_seq; [keep_tally|intros _].
        apply hoare_seq; [keep_tally|intros _]. keep_tally.
      * apply hoare_seq; [|intros _; keep_tally].
        unfold pool_block.
        apply hoare_seq.
        { destruct (pool_size req <=? 0)%Z;
            [by apply hoare_raise|apply tallied_effect]. }
        intros _.
        apply hoare_seq; [apply submit_all_tallied|intros _].
        apply completion_loop_tallied.
  - intros [[]|]; [|keep_tally].
    unfold finish.
    apply hoare_seq; [keep_tally|intros _].
    apply hoare_seq; [keep_tally|intros _].
    apply hoare_seq.
    { apply hoare_bind with (R := fun _ w => tallied (job w)).
      - apply hoare_get. by intros.
      - intros w. by apply hoare_ret. }
    intros j.
    apply hoare_seq; [keep_tally|intros _].
    destruct (save_log env); [by apply hoare_raise|apply tallied_effect].
Qed.

(** When the worker of a job that [api_download] created returns, whether
    the job ended ['complete'] or ['failed'], [completed_videos] is the
    number of results with the status ['success'] and [failed_videos] the
    number of results with the status ['failed']. *)
Theorem worker_counters_match_results req env job_id query now :
  let w := (_download_worker req env
              (worker_start (JobState.new job_id query (lit "queued") now))).2 in
  JobState.completed_videos (job w)
    = with_status (lit "success") (JobState.results (job w)) /\
  JobState.failed_videos (job w)
    = with_status (lit "failed") (JobState.results (job w)).
Proof.
  pose proof (download_worker_tallied req env
    (worker_start (JobState.new job_id query (lit "queued") now))) as H.
  cbv zeta.
  destruct (_download_worker _ _ _) as [[e|[]] w]; apply H; by split.
Qed.

End V3_tally.

Section V4_tally.
Import V4.
Local Open Scope py_scope.

#[local] Arguments lit : simpl never.
#[local] Arguments show : simpl never.
#[local] Arguments V4.progress_percent : simpl never.

Lemma with_status4_snoc status rs r :
  with_status4 status (rs ++ [r])
  = with_status4 status rs
    + (if bool_decide (Result.status r = status) then 1 else 0).
Proof.
  unfold with_status4. rewrite List.filter_app, length_app. cbn.
  by destruct (bool_decide _).
Qed.

(** [download_single_video] never leaves the status ['pending']: every
    result is a success without an error, or a failure with one. *)
Lemma download_single_video_status e url audio video transcripts current_ip :
  let r := download_single_video e url audio video transcripts current_ip in
  (Result.status r = lit "success" /\ Result.error r = None) \/
  (Result.status r = lit "failed" /\ Result.error r <> None).
Proof.
  unfold download_single_video.
  destruct (run_tool audio video transcripts e); cbn; [by right|by left].
Qed.

Lemma tallied4_assign f (E : WorkerState -> Prop) :
  (forall j,
     Job.completed_videos (f j) = Job.completed_videos j /\
     Job.failed_videos (f j) = Job.failed_videos j /\
     Job.results (f j) = Job.results j) ->
  hoare (fun w => tallied4 (job w)) (assign f)
    (fun _ w => tallied4 (job w)) E.
Proof.
  intros Hf. apply hoare_assign4. intros w Hw.
  destruct (Hf (job w)) as (E1 & E2 & E3).
  unfold tallied4 in *. cbn [job]. by rewrite E1, E2, E3.
Qed.

Ltac keep_tally4 :=
  first [ apply tallied4_assign; intros; by repeat split
        | apply hoare_effect4; by intros
        | apply hoare_ret; by intros ].

Lemma item_update_tallied4 env audio video transcripts i url
    (E : WorkerState -> Prop) :
  hoare (fun w => tallied4 (job w))
    (item_update env audio video transcripts i url)
    (fun _ w => tallied4 (job w)) E.
Proof.
  unfold item_update.
  pose proof (download_single_video_status (item_env env i) url audio video
                transcripts (current_ip env)) as Hr.
  cbv zeta in Hr.
  set (r := download_single_video _ _ _ _ _ _) in *.
  apply (hoare_bind _ _ _
           (fun _ w =>
              exists old,
                Job.results (job w) = old ++ [r] /\
                Job.completed_videos (job w)
                  = with_status4 (lit "success") old /\
                Job.failed_videos (job w)
                  = with_status4 (lit "failed") old)).
  { apply hoare_assign4. intros w [Hc Hf]. by exists (Job.results (job w)). }
  intros _.
  apply (hoare_bind _ _ _ (fun _ w => tallied4 (job w))).
  { destruct Hr as [[Hs _]|[Hs _]]; rewrite Hs.
    - rewrite bool_decide_eq_true_2 by done.
      apply hoare_assign4. intros w (old & Hres & Hc & Hf).
      unfold tallied4. cbn -[with_status4].
      rewrite Hres, !with_status4_snoc, Hs, Hc, Hf.
      rewrite bool_decide_eq_true_2 by done.
      rewrite bool_decide_eq_false_2 by apply success_not_failed.
      split; lia.
    - rewrite bool_decide_eq_false_2 by apply not_eq_sym, success_not_failed.
      apply hoare_assign4. intros w (old & Hres & Hc & Hf).
      unfold tallied4. cbn -[with_status4].
      rewrite Hres, !with_status4_snoc, Hs, Hc, Hf.
      rewrite bool_decide_eq_false_2 by apply not_eq_sym, success_not_failed.
      rewrite bool_decide_eq_true_2 by done.
      split; lia. }
  intros _.
  apply hoare_seq.
  { apply hoare_bind with (R := fun _ w => tallied4 (job w)).
    - apply hoare_get. by intros.
    - intros w. by apply hoare_ret. }
  intros j.
  apply hoare_seq; [keep_tally4|intros _]. keep_tally4.
Qed.

Lemma result_loop_tallied4 env audio video transcripts i urls
    (E : WorkerState -> Prop) :
  hoare (fun w => tallied4 (job w))
    (result_loop env audio video transcripts i urls)
    (fun _ w => tallied4 (job w)) E.
Proof.
  revert i. induction urls as [|url urls IH]; intros i; cbn [result_loop].
  - by apply hoare_ret.
  - apply hoare_seq; [apply item_update_tallied4|intros _; apply IH].
Qed.

Lemma submit_all_tallied4 i urls (E : WorkerState -> Prop) :
  hoare (fun w => tallied4 (job w)) (submit_all i urls)
    (fun _ w => tallied4 (job w)) E.
Proof.
  revert i. induction urls as [|url urls IH]; intros i; cbn [submit_all].
  - by apply hoare_ret.
  - apply hoare_seq; [keep_tally4|intros _; apply IH].
Qed.

Lemma process_download_job_tallied env audio video transcripts concurrent urls :
  hoare (fun w => tallied4 (job w))
    (process_download_job env audio video transcripts concurrent urls)
    (fun _ w => tallied4 (job w)) (fun w => tallied4 (job w)).
Proof.
  unfold process_download_job, job_until.
  apply (hoare_bind _ _ _ (fun _ w => tallied4 (job w))).
  - apply hoare_seq; [keep_tally4|intros _].
    apply hoare_seq; [keep_tally4|intros _].
    apply hoare_seq;
      [destruct (make_dirs env); [by apply hoare_raise|keep_tally4]|intros _].
    apply (hoare_bind _ _ _ (fun _ _ => True));
      [apply hoare_assign4; by intros|intros _].
    apply (hoare_bind _ _ _ (fun _ w => Job.completed_videos (job w) = 0)).
    { apply hoare_assign4. by intros. }
    intros _.
    apply (hoare_bind _ _ _
             (fun _ w => Job.completed_videos (job w) = 0 /\
                         Job.failed_videos (job w) = 0)).
    { apply hoare_assign4. by intros. }
    intros _.
    apply (hoare_bind _ _ _ (fun _ w => tallied4 (job w))).
    { apply hoare_assign4. intros w [Hc Hf]. by split. }
    intros _.
    apply hoare_seq.
    { destruct (pool_size env concurrent <=? 0)%Z;
        [by apply hoare_raise|keep_tally4]. }
    intros _.
    apply hoare_seq; [apply submit_all_tallied4|intros _].
    apply result_loop_tallied4.
  - intros _.
    apply hoare_seq; [keep_tally4|intros _].
    apply hoare_seq.
    { apply hoare_bind with (R := fun _ w => tallied4 (job w)).
      - apply hoare_get. by intros.
      - intros w. by apply hoare_ret. }
    intros j.
    apply hoare_seq; [keep_tally4|intros _]. keep_tally4.
Qed.

(** When [process_download_job] ends for a job that [api_download]
    registered, with ['complete'] or by an exception, [completed_videos] is
    the number of results with the status ['success'] and [failed_videos]
    the number of results with the status ['failed']. *)
Theorem job_counters_match_results env audio video transcripts concurrent
    job_id query urls :
  let w := (process_download_job env audio video transcripts concurrent urls
              (worker_start (queued_job job_id query urls))).2 in
  Job.completed_videos (job w)
    = with_status4 (lit "success") (Job.results (job w)) /\
  Job.failed_videos (job w)
    = with_status4 (lit "failed") (Job.results (job w)).
Proof.
  pose proof (process_download_job_tallied env audio video transcripts
                concurrent urls
                (worker_start (queued_job job_id query urls))) as H.
  cbv zeta.
  destruct (process_download_job _ _ _ _ _ _ _) as [[e|[]] w];
    apply H; by split.
Qed.

End V4_tally.
(** * The tracker, the progress figure and the search order *)

Section tracker_facts.
Import V3.
Local Open Scope py_scope.

(** After one or more throttles in a row the rotation flag is up exactly
    when the count has reached 3 or the flag was up before the first of
    them. *)
Theorem rotation_flag_after_throttles clock n self :
  1 ≤ n ->
  ip_rotation_needed (throttles clock n self)
  = (3 <=? consecutive_429s self + n) || ip_rotation_needed self.
Proof.
  induction n as [|n IH]; [lia|]. intros _.
  cbn [throttles]. unfold record_429 at 1. cbn [ip_rotation_needed].
  rewrite throttles_count. unfold RATE_LIMIT_THRESHOLD.
  destruct n as [|n].
  - cbn [throttles]. rewrite Nat.add_0_r.
    replace (consecutive_429s self + 1) with (S (consecutive_429s self))
      by lia.
    by destruct (3 <=? S (consecutive_429s self)).
  - rewrite IH by lia.
    replace (consecutive_429s self + S (S n))
      with (S (consecutive_429s self + S n)) by lia.
    destruct (Nat.leb_spec 3 (S (consecutive_429s self + S n))) as [|Hlt];
      [done|].
    destruct (Nat.leb_spec 3 (consecutive_429s self + S n)); [lia|done].
Qed.

Lemma rotation_flag_after_throttles_witness :
  ip_rotation_needed
    (throttles (fun k => float_of_Z (Z.of_nat k)) 3 RateLimitTracker_default)
  = (3 <=? consecutive_429s RateLimitTracker_default + 3)
    || ip_rotation_needed RateLimitTracker_default.
Proof. apply rotation_flag_after_throttles. lia. Defined.

(** The backoff [record_429] sets is between 2 and 60 seconds, is never
    shorter than the one of the throttle before, doubles up to the fifth
    throttle in a row and is 60 seconds from the sixth. *)
Theorem backoff_grows_to_the_cap (self : RateLimitTracker) (t1 t2 : float) :
  let count := S (consecutive_429s self) in
  backoff_until (record_429 t1 t2 self)
    = (t2 + float_of_Z (backoff_seconds count))%float /\
  (2 <= backoff_seconds count <= 60)%Z /\
  (backoff_seconds (consecutive_429s self) <= backoff_seconds count)%Z /\
  (count ≤ 5 -> backoff_seconds count = (2 ^ Z.of_nat count)%Z) /\
  (6 ≤ count -> backoff_seconds count = 60%Z).
Proof.
  cbv zeta. split; [reflexivity|].
  unfold backoff_seconds.
  set (n := consecutive_429s self).
  assert (0 < 2 ^ (Z.of_nat (S n) - 1))%Z as Hpos
    by (apply Z.pow_pos_nonneg; lia).
  assert (2 ^ (Z.of_nat n - 1) <= 2 ^ (Z.of_nat (S n) - 1))%Z as Hmono.
  { destruct n as [|n]; [cbn; lia|]. apply Z.pow_le_mono_r; lia. }
  split; [lia|]. split; [lia|]. split.
  - intros Hn.
    replace (2 ^ Z.of_nat (S n))%Z with (2 * 2 ^ (Z.of_nat (S n) - 1))%Z.
    2:{ rewrite <- Z.pow_succ_r by lia. f_equal. lia. }
    assert (2 ^ (Z.of_nat (S n) - 1) <= 2 ^ 4)%Z
      by (apply Z.pow_le_mono_r; lia).
    change (2 ^ 4)%Z with 16%Z in *. lia.
  - intros Hn.
    assert (2 ^ 5 <= 2 ^ (Z.of_nat (S n) - 1))%Z
      by (apply Z.pow_le_mono_r; lia).
    change (2 ^ 5)%Z with 32%Z in *. lia.
Qed.

End tracker_facts.

Section progress_facts.

Lemma progress_ok_upto_100 : progress_ok_upto 100 = true.
Proof. by vm_compute. Qed.

(** For a job of up to 100 items, the most a search returns, the progress
    figure [int(done / total * 100)] lies between 0 and 100, is the exact
    percentage rounded down or one below that (binary64 division and
    multiplication are not exact), is 100 only when every item is done, and
    never goes down from one item to the next; both engines compute the
    same figure. *)
Theorem progress_percent_tracks_the_share (done total : nat) :
  0 < total -> total ≤ 100 -> done ≤ total ->
  let p := V3.progress_percent done total in
  (0 <= p <= 100)%Z /\
  (100 * Z.of_nat done / Z.of_nat total - 1 <= p
     <= 100 * Z.of_nat done / Z.of_nat total)%Z /\
  (p = 100%Z <-> done = total) /\
  (done < total -> (p <= V3.progress_percent (S done) total)%Z) /\
  V4.progress_percent done total = p.
Proof.
  intros Hpos Hmax Hdone.
  pose proof progress_ok_upto_100 as H. unfold progress_ok_upto in H.
  rewrite forallb_forall in H.
  specialize (H total ltac:(apply in_seq; lia)).
  rewrite forallb_forall in H.
  specialize (H done ltac:(apply in_seq; lia)).
  unfold progress_ok in H. cbv zeta in *.
  apply andb_prop in H as [H H7]. apply andb_prop in H as [H H6].
  apply andb_prop in H as [H H5]. apply andb_prop in H as [H H4].
  apply andb_prop in H as [H H3]. apply andb_prop in H as [H1 H2].
  apply Z.leb_le in H1, H2, H3, H4. apply Z.eqb_eq in H7.
  apply bool_decide_eq_true_1 in H5.
  split; [lia|]. split; [lia|]. split; [done|]. split; [|done].
  intros Hlt. apply orb_prop in H6 as [H6|H6].
  - apply Nat.leb_le in H6. lia.
  - by apply Z.leb_le in H6.
Qed.

Lemma progress_percent_tracks_the_share_witness :
  let p := V3.progress_percent 29 100 in
  (0 <= p <= 100)%Z /\
  (100 * Z.of_nat 29 / Z.of_nat 100 - 1 <= p
     <= 100 * Z.of_nat 29 / Z.of_nat 100)%Z /\
  (p = 100%Z <-> 29 = 100) /\
  (29 < 100 -> (p <= V3.progress_percent 30 100)%Z) /\
  V4.progress_percent 29 100 = p.
Proof. apply progress_percent_tracks_the_share; lia. Defined.

End progress_facts.

Section search_order_facts.
Import V3.
Local Open Scope py_scope.

Lemma first_results_some methods found :
  first_results methods = Some found ->
  found <> [] /\
  exists before after,
    methods = before ++ inr found :: after /\ Forall found_nothing before.
Proof.
  induction methods as [|m methods IH]; [done|].
  destruct m as [e|[|u us]]; cbn [first_results].
  - intros H. destruct (IH H) as (Hne & before & after & -> & Hb).
    split; [done|]. exists (inl e :: before), after. split; [done|].
    constructor; [|done]. by intros u us.
  - intros H. destruct (IH H) as (Hne & before & after & -> & Hb).
    split; [done|]. exists (inr [] :: before), after. split; [done|].
    constructor; [|done]. by intros u us.
  - intros [= <-]. split; [done|]. by exists [], methods.
Qed.

Lemma first_results_none methods :
  first_results methods = None -> Forall found_nothing methods.
Proof.
  induction methods as [|m methods IH]; [by constructor|].
  destruct m as [e|[|u us]]; cbn [first_results]; try done;
    intros H; (constructor; [by intros u us|by apply IH]).
Qed.

(** [search_youtube] returns the first [max_results] URLs of the first of
    the four methods, in the order yt-dlp, DuckDuckGo, YouTube, Bing, that
    finds anything: at least one URL and at most [max_results].  A method
    that raises is passed over like one that returns nothing, and when all
    four find nothing the call raises ['All search methods failed']; it
    never returns an empty list. *)
Theorem search_youtube_takes_first_finder {S} senv max_results (s : S) :
  (1 <= max_results)%Z ->
  let methods := [search_ytdlp senv; search_duckduckgo senv;
                  search_youtube_direct senv; search_bing senv] in
  match search_youtube senv max_results s with
  | (inr results, s') =>
      s' = s /\ results <> [] /\
      (Z.of_nat (length results) <= max_results)%Z /\
      exists before found after,
        methods = before ++ inr found :: after /\
        Forall found_nothing before /\
        results = take (Z.to_nat max_results) found
  | (inl e, s') =>
      s' = s /\ e = lit "All search methods failed" /\
      Forall found_nothing methods
  end.
Proof.
  intros Hmax. cbv zeta. unfold search_youtube.
  destruct (first_results _) as [found|] eqn:Hfound.
  - apply first_results_some in Hfound as (Hne & before & after & Heq & Hb).
    cbn. unfold slice_to. destruct (Z.leb_spec 0 max_results); [|lia].
    split; [done|]. split.
    { destruct found; [done|].
      destruct (Z.to_nat max_results) eqn:Hn; [lia|done]. }
    split; [rewrite length_take; lia|].
    by exists before, found, after.
  - split; [done|]. split; [done|]. by apply first_results_none.
Qed.

Lemma search_youtube_takes_first_finder_witness :
  let methods := [search_ytdlp search_third_finds;
                  search_duckduckgo search_third_finds;
                  search_youtube_direct search_third_finds;
                  search_bing search_third_finds] in
  match search_youtube search_third_finds 2 tt with
  | (inr results, s') =>
      s' = tt /\ results <> [] /\
      (Z.of_nat (length results) <= 2)%Z /\
      exists before found after,
        methods = before ++ inr found :: after /\
        Forall found_nothing before /\
        results = take (Z.to_nat 2) found
  | (inl e, s') =>
      s' = tt /\ e = lit "All search methods failed" /\
      Forall found_nothing methods
  end.
Proof.
  apply (search_youtube_takes_first_finder search_third_finds 2 tt).
  lia.
Defined.

End search_order_facts.
(** * Submitting a job and polling it *)

Section endpoint_facts.
Local Open Scope py_scope.

(** [POST /api/download] of the Tor-backed engine fails only with the
    status 400, exactly when none of audio, video and transcripts is
    selected.  Otherwise a poll of the new job right after answers
    ['queued'] with a progress of 0, no counts and no results, and the
    polls of every other job answer what they answered before. *)
Theorem submitted_job_polls_as_queued (req : V3.DownloadRequest.t)
    (uuid : pystr) (now : float) (jobs : gmap pystr V3.JobState.t)
    (t : float) :
  match V3.api_download req uuid now jobs with
  | inl e =>
      V3.DownloadRequest.audio req || V3.DownloadRequest.video req
        || V3.DownloadRequest.transcripts req = false /\
      V3.status_code e = 400%Z
  | inr (jobs', job) =>
      V3.DownloadRequest.audio req || V3.DownloadRequest.video req
        || V3.DownloadRequest.transcripts req = true /\
      V3.api_progress jobs' uuid t
        = inr {| V3.ProgressResponse.job_id := uuid;
                 V3.ProgressResponse.status := lit "queued";
                 V3.ProgressResponse.progress := 0;
                 V3.ProgressResponse.message := [];
                 V3.ProgressResponse.total_videos := 0;
                 V3.ProgressResponse.completed := 0;
                 V3.ProgressResponse.failed := 0;
                 V3.ProgressResponse.elapsed := (t - now)%float;
                 V3.ProgressResponse.start_time := now;
                 V3.ProgressResponse.results := [] |} /\
      forall other,
        other <> uuid ->
        V3.api_progress jobs' other t = V3.api_progress jobs other t
  end.
Proof.
  unfold V3.api_download.
  destruct (V3.DownloadRequest.audio req || V3.DownloadRequest.video req
            || V3.DownloadRequest.transcripts req); cbn [negb].
  - split; [done|]. split.
    + unfold V3.api_progress. by rewrite lookup_insert_eq.
    + intros other Hother. unfold V3.api_progress.
      by rewrite lookup_insert_ne.
  - done.
Qed.

(** [POST /api/download] of the engine without Tor fails only with the
    status 400, 404 or 500, with 400 exactly when no kind is selected.
    Otherwise the job is registered with a total that is the number of URLs
    found, at least one: a poll right after answers ['queued'] with that
    total, a progress of 0 and no results, and the polls of every other job
    answer what they answered before. *)
Theorem submitted_job_polls_as_queued4 (req : V4.DownloadRequest.t)
    (found : pystr + list pystr) (uuid : pystr)
    (jobs : gmap pystr V4.Job.t) :
  match V4.api_download req found uuid jobs with
  | inl e =>
      V4.status_code e ∈ [400; 404; 500]%Z /\
      (V4.status_code e = 400%Z <->
       V4.DownloadRequest.audio req || V4.DownloadRequest.video req
         || V4.DownloadRequest.transcripts req = false)
  | inr (jobs', urls) =>
      urls <> [] /\
      V4.get_progress jobs' uuid
        = inr {| V4.ProgressResponse.job_id := uuid;
                 V4.ProgressResponse.query := V4.DownloadRequest.query req;
                 V4.ProgressResponse.status := lit "queued";
                 V4.ProgressResponse.progress := 0;
                 V4.ProgressResponse.message := lit "Initializing download...";
                 V4.ProgressResponse.total_videos := length urls;
                 V4.ProgressResponse.completed_videos := 0;
                 V4.ProgressResponse.failed_videos := 0;
                 V4.ProgressResponse.elapsed := 0%float;
                 V4.ProgressResponse.results := None |} /\
      forall other,
        other <> uuid ->
        V4.get_progress jobs' other = V4.get_progress jobs other
  end.
Proof.
  unfold V4.api_download.
  destruct (V4.DownloadRequest.audio req || V4.DownloadRequest.video req
            || V4.DownloadRequest.transcripts req); cbn [negb].
  2:{ split; [set_solver|done]. }
  match goal with
  | |- match (match ?r with _ => _ end) with _ => _ end =>
      destruct r as [e|[|u us]]
  end; [split; [set_solver|done]|split; [set_solver|done]|].
  split; [done|]. split.
  - unfold V4.get_progress. by rewrite lookup_insert_eq.
  - intros other Hother. unfold V4.get_progress.
    by rewrite lookup_insert_ne.
Qed.

End endpoint_facts.

Section api_search_facts.
Import V3.
Local Open Scope py_scope.

#[local] Arguments lit : simpl never.

Lemma get_titles_dom title_of k urls titles :
  dom (get_titles title_of k urls titles) = list_to_set urls ∪ dom titles.
Proof.
  revert k titles. induction urls as [|url urls IH]; intros k titles;
    cbn [get_titles list_to_set].
  - by rewrite union_empty_l_L.
  - rewrite IH, dom_insert_L, !(assoc_L (∪)). f_equal. apply (comm_L (∪)).
Qed.

(** [POST /api/search] never answers 404: when no method finds anything
    [search_youtube] raises, and the answer is 500 with the text ['Search
    failed: All search methods failed'].  An answer that is not an error
    lists at least one URL, counts the URLs it lists, at most [max_results]
    for a search, and has a title for the URLs it lists and for no other. *)
Theorem api_search_never_answers_404 (req : SearchRequest.t) (senv : SearchEnv)
    (title_of : nat -> pystr) :
  SearchRequest.valid req = true ->
  match api_search req senv title_of with
  | inl e =>
      SearchRequest.is_url req = false /\
      e = {| status_code := 500;
             detail := lit "Search failed: All search methods failed" |} /\
      Forall found_nothing
        [search_ytdlp senv; search_duckduckgo senv;
         search_youtube_direct senv; search_bing senv]
  | inr r =>
      SearchResponse.results r <> [] /\
      SearchResponse.count r = length (SearchResponse.results r) /\
      dom (SearchResponse.titles r) = list_to_set (SearchResponse.results r) /\
      (SearchRequest.is_url req = true ->
       SearchResponse.results r = [strip (SearchRequest.query req)]) /\
      (SearchRequest.is_url req = false ->
       (Z.of_nat (SearchResponse.count r) <= SearchRequest.max_results req)%Z)
  end.
Proof.
  intros Hvalid.
  assert (1 <= SearchRequest.max_results req)%Z as Hmax.
  { unfold SearchRequest.valid in Hvalid.
    repeat (apply andb_prop in Hvalid as [Hvalid ?]). lia. }
  unfold api_search. destruct (SearchRequest.is_url req).
  { cbn [SearchResponse.results SearchResponse.count SearchResponse.titles].
    rewrite get_titles_dom, dom_empty_L, union_empty_r_L.
    repeat split; done. }
  unfold search_youtube.
  destruct (first_results _) as [found|] eqn:Hfound.
  - apply first_results_some in Hfound as (Hne & _).
    cbn [ret]. unfold slice_to.
    destruct (Z.leb_spec 0 (SearchRequest.max_results req)); [|lia].
    destruct found as [|u us]; [done|].
    destruct (Z.to_nat (SearchRequest.max_results req)) as [|n] eqn:Hn; [lia|].
    cbn [take].
    cbn [SearchResponse.results SearchResponse.count SearchResponse.titles].
    rewrite get_titles_dom, dom_empty_L, union_empty_r_L.
    split; [done|]. split; [done|]. split; [done|]. split; [done|].
    intros _. cbn [length]. rewrite length_take. lia.
  - cbn [raise]. split; [done|]. split; [done|].
    by apply first_results_none.
Qed.

End api_search_facts.


Section api_search_witness.
Import V3.

Lemma api_search_never_answers_404_witness :
  match api_search search_two search_third_finds (fun _ => lit "Some title") with
  | inl e =>
      SearchRequest.is_url search_two = false /\
      e = {| status_code := 500;
             detail := lit "Search failed: All search methods failed" |} /\
      Forall found_nothing
        [search_ytdlp search_third_finds; search_duckduckgo search_third_finds;
         search_youtube_direct search_third_finds;
         search_bing search_third_finds]
  | inr r =>
      SearchResponse.results r <> [] /\
      SearchResponse.count r = length (SearchResponse.results r) /\
      dom (SearchResponse.titles r) = list_to_set (SearchResponse.results r) /\
      (SearchRequest.is_url search_two = true ->
       SearchResponse.results r = [strip (SearchRequest.query search_two)]) /\
      (SearchRequest.is_url search_two = false ->
       (Z.of_nat (SearchResponse.count r)
        <= SearchRequest.max_results search_two)%Z)
  end.
Proof.
  apply (api_search_never_answers_404 search_two search_third_finds).
  reflexivity.
Defined.

End api_search_witness.
(** * Tor management and the status endpoint *)

Section tor_facts.
Import V3.
Local Open Scope py_scope.

#[local] Arguments lit : simpl never.
#[local] Arguments strip : simpl never.

Lemma below_three (P : nat -> Prop) :
  (exists j, j < 3 /\ P j) <-> P 0 \/ P 1 \/ P 2.
Proof.
  split.
  - intros (j & Hj & HP).
    destruct j as [|[|[|j]]]; [tauto|tauto|tauto|lia].
  - intros [H|[H|H]]; [exists 0|exists 1|exists 2]; split; (lia || done).
Qed.

(** A forced lookup: one request, and the cache is written only when the
    request succeeds. *)
Lemma get_tor_ip_forced env s :
  Tor.get_tor_ip env true s
  = match Tor.tor_address env (Tor.lookups s) with
    | inr text =>
        (inr (strip text),
         {| Tor.cache := {| Tor.ip := strip text;
                            Tor.time := Tor.clock env (Tor.ticks s) |};
            Tor.ticks := S (Tor.ticks s);
            Tor.lookups := S (Tor.lookups s);
            Tor.signals := Tor.signals s;
            Tor.trace := Tor.Request true :: Tor.trace s |})
    | inl _ =>
        (inr (lit "Unknown"),
         {| Tor.cache := Tor.cache s;
            Tor.ticks := Tor.ticks s;
            Tor.lookups := S (Tor.lookups s);
            Tor.signals := Tor.signals s;
            Tor.trace := Tor.Request true :: Tor.trace s |})
    end.
Proof.
  unfold Tor.get_tor_ip, bind, try_except, Tor.request, ret. cbn.
  by destruct (Tor.tor_address env (Tor.lookups s)).
Qed.

(** The loop from a connection that fails. *)
Lemma rotate_loop_failure env attempt todo s e :
  Tor.control env (Tor.signals s) = Some e ->
  Tor.rotate_loop env (attempt :: todo) s
  = Tor.rotate_loop env todo
      {| Tor.cache := Tor.cache s; Tor.ticks := Tor.ticks s;
         Tor.lookups := Tor.lookups s; Tor.signals := S (Tor.signals s);
         Tor.trace := Tor.Sleep 2 :: Tor.NewCircuit false :: Tor.trace s |}.
Proof.
  intros Hc. cbn [Tor.rotate_loop].
  unfold bind at 1. unfold try_except. unfold bind at 1.
  unfold Tor.signal_newnym. rewrite Hc. cbn.
  done.
Qed.

(** The loop from a connection that succeeds. *)
Lemma rotate_loop_success env attempt todo s :
  Tor.control env (Tor.signals s) = None ->
  exists s',
    Tor.rotate_loop env (attempt :: todo) s = (inr true, s') /\
    Tor.signals s' = S (Tor.signals s) /\
    Tor.lookups s' = S (Tor.lookups s) /\
    Tor.trace s'
    = Tor.Request true :: Tor.Sleep 8 :: Tor.NewCircuit true :: Tor.trace s.
Proof.
  intros Hc. cbn [Tor.rotate_loop].
  unfold bind at 1. unfold try_except. unfold bind at 1.
  unfold Tor.signal_newnym. rewrite Hc.
  unfold bind at 1. cbn [Tor.sleep modify].
  unfold bind at 1. rewrite get_tor_ip_forced. cbn.
  destruct (Tor.tor_address env (Tor.lookups s)); cbn; by eexists.
Qed.

Lemma rotate_tor_outcomes (env : Tor.Env) (s : Tor.State) :
  let out := Tor.rotate_tor env s in
  let k := Tor.signals s in
  (out.1 = inr true \/ out.1 = inr false) /\
  (out.1 = inr true <-> exists j, j < 3 /\ Tor.control env (k + j) = None) /\
  (forall j,
     j < 3 -> Tor.control env (k + j) = None ->
     (forall i, i < j -> Tor.control env (k + i) <> None) ->
     Tor.signals out.2 = k + j + 1 /\
     Tor.lookups out.2 = Tor.lookups s + 1 /\
     exists earlier,
       Tor.trace out.2
       = Tor.Request true :: Tor.Sleep 8 :: Tor.NewCircuit true :: earlier) /\
  (out.1 = inr false ->
     Tor.signals out.2 = k + 3 /\
     Tor.lookups out.2 = Tor.lookups s /\
     Tor.cache out.2 = Tor.cache s /\
     Tor.trace out.2
     = [Tor.Sleep 2; Tor.NewCircuit false; Tor.Sleep 2; Tor.NewCircuit false;
        Tor.Sleep 2; Tor.NewCircuit false] ++ Tor.trace s).
Proof.
  cbv zeta. rewrite below_three.
  replace (Tor.signals s + 0) with (Tor.signals s) by lia.
  replace (Tor.signals s + 1) with (S (Tor.signals s)) by lia.
  replace (Tor.signals s + 2) with (S (S (Tor.signals s))) by lia.
  assert (forall j,
    j < 3 -> Tor.control env (Tor.signals s + j) = None ->
    (forall i, i < j -> Tor.control env (Tor.signals s + i) <> None) ->
    (j = 0 /\ Tor.control env (Tor.signals s) = None) \/
    (j = 1 /\ Tor.control env (Tor.signals s) <> None /\
     Tor.control env (S (Tor.signals s)) = None) \/
    (j = 2 /\ Tor.control env (Tor.signals s) <> None /\
     Tor.control env (S (Tor.signals s)) <> None /\
     Tor.control env (S (S (Tor.signals s))) = None)) as Hfirst.
  { intros j Hj Hc Hbefore.
    destruct j as [|[|[|j]]]; [| | |lia].
    - left. split; [done|]. by rewrite Nat.add_0_r in Hc.
    - right; left. split; [done|]. split.
      + specialize (Hbefore 0 ltac:(lia)). by rewrite Nat.add_0_r in Hbefore.
      + by replace (Tor.signals s + 1) with (S (Tor.signals s)) in Hc by lia.
    - right; right. split; [done|]. split; [|split].
      + specialize (Hbefore 0 ltac:(lia)). by rewrite Nat.add_0_r in Hbefore.
      + specialize (Hbefore 1 ltac:(lia)).
        by replace (Tor.signals s + 1) with (S (Tor.signals s)) in Hbefore
          by lia.
      + by replace (Tor.signals s + 2) with (S (S (Tor.signals s))) in Hc
          by lia. }
  unfold Tor.rotate_tor. cbn [seq].
  destruct (Tor.control env (Tor.signals s)) as [e0|] eqn:H0.
  2:{ destruct (rotate_loop_success env 0 [1; 2] s H0)
        as (s' & -> & Hsig & Hlook & Htrace). cbn [fst snd].
      split; [by left|]. split; [split; [by left|done]|].
      split; [|done]. intros j Hj Hc Hb.
      destruct (Hfirst j Hj Hc Hb) as [[-> _]|[(_ & ? & _)|(_ & ? & _)]];
        try done.
      split; [lia|]. split; [lia|]. by eexists. }
  rewrite (rotate_loop_failure env 0 [1; 2] s e0 H0).
  set (s1 := {| Tor.cache := Tor.cache s; Tor.ticks := _ |}).
  destruct (Tor.control env (S (Tor.signals s))) as [e1|] eqn:H1.
  2:{ destruct (rotate_loop_success env 1 [2] s1 H1)
        as (s' & -> & Hsig & Hlook & Htrace). cbn [fst snd].
      cbn in Hsig, Hlook.
      split; [by left|]. split; [split; [tauto|done]|].
      split; [|done]. intros j Hj Hc Hb.
      destruct (Hfirst j Hj Hc Hb) as [[_ ?]|[(-> & _)|(_ & _ & ? & _)]];
        try done.
      split; [lia|]. split; [lia|]. by eexists. }
  rewrite (rotate_loop_failure env 1 [2] s1 e1 H1).
  set (s2 := {| Tor.cache := Tor.cache s1; Tor.ticks := _ |}).
  destruct (Tor.control env (S (S (Tor.signals s)))) as [e2|] eqn:H2.
  2:{ destruct (rotate_loop_success env 2 [] s2 H2)
        as (s' & -> & Hsig & Hlook & Htrace). cbn [fst snd].
      cbn in Hsig, Hlook.
      split; [by left|]. split; [split; [tauto|done]|].
      split; [|done]. intros j Hj Hc Hb.
      destruct (Hfirst j Hj Hc Hb) as [[_ ?]|[(_ & _ & ?)|(-> & _)]];
        try done.
      split; [lia|]. split; [lia|]. by eexists. }
  rewrite (rotate_loop_failure env 2 [] s2 e2 H2). cbn.
  split; [by right|]. split.
  { split; [done|]. intros [?|[?|?]]; done. }
  split.
  - intros j Hj Hc Hb.
    destruct (Hfirst j Hj Hc Hb) as [[_ ?]|[(_ & _ & ?)|(_ & _ & _ & ?)]];
      done.
  - intros _. repeat split; lia.
Qed.

(** [rotate_tor] never raises.  It returns [True] exactly when one of the
    next three control connections succeeds, and then it has made no
    connection after the first that succeeded, has slept 8 seconds after it
    and has asked for the new address once.  It returns [False] exactly
    when all three fail, and then it has slept 2 seconds after each of them,
    has asked for no address and has left the cached address alone. *)
Theorem rotate_tor_stops_at_first_success (env : Tor.Env) (s : Tor.State) :
  let out := Tor.rotate_tor env s in
  let k := Tor.signals s in
  (out.1 = inr true \/ out.1 = inr false) /\
  (out.1 = inr true <-> exists j, j < 3 /\ Tor.control env (k + j) = None) /\
  (forall j,
     j < 3 -> Tor.control env (k + j) = None ->
     (forall i, i < j -> Tor.control env (k + i) <> None) ->
     Tor.signals out.2 = k + j + 1 /\
     Tor.lookups out.2 = Tor.lookups s + 1 /\
     exists earlier,
       Tor.trace out.2
       = Tor.Request true :: Tor.Sleep 8 :: Tor.NewCircuit true :: earlier) /\
  (out.1 = inr false ->
     Tor.signals out.2 = k + 3 /\
     Tor.lookups out.2 = Tor.lookups s /\
     Tor.cache out.2 = Tor.cache s /\
     Tor.trace out.2
     = [Tor.Sleep 2; Tor.NewCircuit false; Tor.Sleep 2; Tor.NewCircuit false;
        Tor.Sleep 2; Tor.NewCircuit false] ++ Tor.trace s).
Proof. apply rotate_tor_outcomes. Qed.


Lemma get_tor_ip_unforced env s :
  Tor.get_tor_ip env false s
  = let s1 := {| Tor.cache := Tor.cache s; Tor.ticks := S (Tor.ticks s);
                 Tor.lookups := Tor.lookups s; Tor.signals := Tor.signals s;
                 Tor.trace := Tor.trace s |} in
    if (Tor.clock env (Tor.ticks s) - Tor.time (Tor.cache s)
        <? float_of_Z Tor.tor_cache_ttl)%float
    then (inr (Tor.ip (Tor.cache s)), s1)
    else Tor.get_tor_ip env true s1.
Proof.
  unfold Tor.get_tor_ip at 1. unfold bind at 1. unfold bind at 1. cbn.
  by destruct (_ <? _)%float.
Qed.

(** The cache of the Tor address: after a forced lookup that succeeded, a
    call without [force_refresh] answers the address found then, without a
    request and without touching the cache, as long as the clock is less
    than 60 seconds past the clock read of that lookup. *)
Theorem cached_tor_ip_is_reused (env : Tor.Env) (s : Tor.State) (text : pystr) :
  Tor.tor_address env (Tor.lookups s) = inr text ->
  let first := Tor.get_tor_ip env true s in
  first.1 = inr (strip text) /\
  forall later,
    Tor.cache later = Tor.cache first.2 ->
    (Tor.clock env (Tor.ticks later) - Tor.clock env (Tor.ticks s)
     <? float_of_Z Tor.tor_cache_ttl)%float = true ->
    let second := Tor.get_tor_ip env false later in
    second.1 = inr (strip text) /\
    Tor.lookups second.2 = Tor.lookups later /\
    Tor.trace second.2 = Tor.trace later /\
    Tor.cache second.2 = Tor.cache later.
Proof.
  intros Haddr. cbv zeta. rewrite get_tor_ip_forced, Haddr. cbn [fst snd].
  split; [done|]. intros later Hcache Hfresh.
  rewrite get_tor_ip_unforced. cbv zeta. cbn [Tor.cache] in Hcache.
  rewrite Hcache. cbn [Tor.time Tor.ip]. rewrite Hfresh. done.
Qed.

(** [get_tor_ip] never raises and makes at most one request.  When the
    request fails it answers ['Unknown'] and leaves the cache as it was;
    when the cached address is older than 60 seconds, or [force_refresh] is
    set, it does make the request. *)
Theorem failed_lookup_keeps_cache (env : Tor.Env) (force_refresh : bool)
    (s : Tor.State) :
  let out := Tor.get_tor_ip env force_refresh s in
  (exists ip, out.1 = inr ip) /\
  (Tor.lookups out.2 = Tor.lookups s \/
   Tor.lookups out.2 = S (Tor.lookups s)) /\
  (force_refresh = true \/
   (Tor.clock env (Tor.ticks s) - Tor.time (Tor.cache s)
    <? float_of_Z Tor.tor_cache_ttl)%float = false ->
   Tor.lookups out.2 = S (Tor.lookups s)) /\
  (forall e,
     Tor.tor_address env (Tor.lookups s) = inl e ->
     Tor.cache out.2 = Tor.cache s /\
     (Tor.lookups out.2 = S (Tor.lookups s) -> out.1 = inr (lit "Unknown"))).
Proof.
  cbv zeta. destruct force_refresh.
  - rewrite get_tor_ip_forced.
    destruct (Tor.tor_address env (Tor.lookups s)) as [e|text]; cbn;
      (split; [by eexists|]); (split; [by right|]); (split; [done|]);
      by intros e' [= <-] || done.
  - rewrite get_tor_ip_unforced. cbv zeta.
    destruct (_ <? _)%float eqn:Hfresh.
    + cbn. split; [by eexists|]. split; [by left|].
      split; [by intros [|]|]. intros e He. split; [done|]. lia.
    + rewrite get_tor_ip_forced. cbn [Tor.lookups Tor.cache].
      destruct (Tor.tor_address env (Tor.lookups s)) as [e|text]; cbn;
        (split; [by eexists|]); (split; [by right|]); (split; [done|]);
        by intros e' [= <-] || done.
Qed.

Lemma check_tor_eq env s :
  Tor.check_tor env s
  = let first := Tor.get_tor_ip env true s in
    match first.1 with
    | inl e => (inl e, first.2)
    | inr ip =>
        if contains (lit "Unknown") ip || contains (lit "Error") ip
        then (inr (false, ip), first.2)
        else
          let s2 :=
            {| Tor.cache := Tor.cache first.2; Tor.ticks := Tor.ticks first.2;
               Tor.lookups := S (Tor.lookups first.2);
               Tor.signals := Tor.signals first.2;
               Tor.trace := Tor.Request false :: Tor.trace first.2 |} in
          match Tor.real_address env (Tor.lookups first.2) with
          | inr text =>
              (inr (negb (bool_decide (ip = strip text)), ip), s2)
          | inl _ => (inr (true, ip), s2)
          end
    end.
Proof.
  unfold Tor.check_tor. unfold bind at 1. cbv zeta.
  destruct (Tor.get_tor_ip env true s) as [[e|ip] s1]; cbn [fst snd]; [done|].
  destruct (_ || _); [done|].
  unfold bind, try_except, Tor.request, ret.
  destruct (Tor.real_address env (Tor.lookups s1)) as [e|text]; [done|].
  by destruct (bool_decide _).
Qed.

Lemma check_tor_returns env s :
  exists ok ip s', Tor.check_tor env s = (inr (ok, ip), s').
Proof.
  rewrite check_tor_eq, get_tor_ip_forced. cbv zeta.
  destruct (Tor.tor_address env (Tor.lookups s)) as [e|text];
    cbn [fst snd Tor.lookups].
  - replace (contains (lit "Unknown") (lit "Unknown")) with true by done.
    by eexists _, _, _.
  - destruct (_ || _); [by eexists _, _, _|].
    destruct (Tor.real_address env _); by eexists _, _, _.
Qed.

(** [check_tor] never raises.  It reports a working Tor connection only for
    an address the address service returned through the proxy, an address
    that contains neither ['Unknown'] nor ['Error'] and that the direct
    request, if it was answered, did not return as well. *)
Theorem check_tor_connected_is_checked (env : Tor.Env) (s : Tor.State) :
  (exists ok ip s', Tor.check_tor env s = (inr (ok, ip), s')) /\
  forall ip s',
    Tor.check_tor env s = (inr (true, ip), s') ->
    (exists text,
       Tor.tor_address env (Tor.lookups s) = inr text /\ ip = strip text) /\
    contains (lit "Unknown") ip = false /\
    contains (lit "Error") ip = false /\
    (forall text,
       Tor.real_address env (S (Tor.lookups s)) = inr text ->
       strip text <> ip).
Proof.
  rewrite check_tor_eq, get_tor_ip_forced. cbv zeta.
  destruct (Tor.tor_address env (Tor.lookups s)) as [e|text] eqn:Htor;
    cbn [fst snd Tor.lookups].
  - replace (contains (lit "Unknown") (lit "Unknown")) with true by done.
    cbn [orb]. split; [by eexists _, _, _|]. intros ip s' [=].
  - destruct (contains (lit "Unknown") (strip text)) eqn:Hu;
      [cbn [orb]; split; [by eexists _, _, _|]; intros ip s' [=]|].
    destruct (contains (lit "Error") (strip text)) eqn:He;
      [cbn [orb]; split; [by eexists _, _, _|]; intros ip s' [=]|].
    cbn [orb].
    destruct (Tor.real_address env (S (Tor.lookups s))) as [e|real] eqn:Hreal.
    + split; [by eexists _, _, _|]. intros ip s' [= <- <-].
      split; [by exists text|]. done.
    + split; [by eexists _, _, _|]. intros ip s' [= Hsame <- <-].
      split; [by exists text|]. split; [done|]. split; [done|].
      intros text' [= <-] Heq.
      apply negb_true_iff, bool_decide_eq_false_1 in Hsame. done.
Qed.

Lemma get_tor_ip_returns env force_refresh s :
  exists ip s',
    Tor.get_tor_ip env force_refresh s = (inr ip, s') /\
    Tor.signals s' = Tor.signals s /\
    Tor.lookups s ≤ Tor.lookups s' /\
    (force_refresh = true -> Tor.lookups s' = S (Tor.lookups s)).
Proof.
  destruct force_refresh.
  - rewrite get_tor_ip_forced.
    destruct (Tor.tor_address env (Tor.lookups s)); eexists _, _;
      (split; [done|]); cbn; split; [done|split; [lia|done]|done|split; [lia|done]].
  - rewrite get_tor_ip_unforced. cbv zeta. destruct (_ <? _)%float.
    + eexists _, _. split; [done|]. cbn. split; [done|]. split; [lia|done].
    + rewrite get_tor_ip_forced. cbn [Tor.lookups].
      destruct (Tor.tor_address env (Tor.lookups s)); eexists _, _;
        (split; [done|]); cbn; split; [done|split; [lia|done]|done|split; [lia|done]].
Qed.

(** [POST /api/rotate] never raises anything but its own error.  It answers
    500 exactly when the next three control connections all fail, and
    success exactly when one of them succeeds; a success has asked for the
    address twice, once in [rotate_tor] and once for the response. *)
Theorem api_rotate_fails_after_three_attempts (env : Tor.Env) (s : Tor.State) :
  match api_rotate env s with
  | (inl _, _) => False
  | (inr (inl e), s') =>
      e = {| status_code := 500; detail := lit "Failed to rotate Tor" |} /\
      forall j, j < 3 -> Tor.control env (Tor.signals s + j) <> None
  | (inr (inr r), s') =>
      RotateResponse.success r = true /\
      (exists j, j < 3 /\ Tor.control env (Tor.signals s + j) = None) /\
      Tor.lookups s + 2 ≤ Tor.lookups s'
  end.
Proof.
  unfold api_rotate. unfold bind at 1.
  destruct (get_tor_ip_returns env false s) as (old & s0 & -> & Hsig & Hl0 & _).
  unfold bind at 1.
  pose proof (rotate_tor_outcomes env s0) as (Hret & Htrue & Hfirst & Hfalse).
  cbv zeta in *. rewrite Hsig in *.
  destruct (Tor.rotate_tor env s0) as [[e|[|]] s1]; cbn [fst snd] in *.
  - by destruct Hret.
  - cbn [negb]. unfold bind.
    destruct (get_tor_ip_returns env true s1) as (new & s2 & -> & _ & _ & Hl2).
    specialize (Hl2 eq_refl). unfold ret.
    split; [done|]. split; [by apply Htrue|].
    destruct (proj1 Htrue eq_refl) as (j & Hj & Hc).
    assert (exists j', j' < 3 /\ Tor.control env (Tor.signals s + j') = None /\
              forall i, i < j' -> Tor.control env (Tor.signals s + i) <> None)
      as (j' & Hj' & Hc' & Hb').
    { clear -Hj Hc. 
      destruct (Tor.control env (Tor.signals s + 0)) eqn:H0;
        [|exists 0; repeat split; [lia|done|lia]].
      destruct (Tor.control env (Tor.signals s + 1)) eqn:H1.
      2:{ exists 1. repeat split; [lia|done|]. intros i Hi.
          assert (i = 0) as -> by lia. by rewrite H0. }
      exists 2. split; [lia|]. split.
      - destruct j as [|[|[|j]]]; [congruence|congruence|done|lia].
      - intros i Hi. destruct i as [|[|i]]; [by rewrite H0|by rewrite H1|lia]. }
    destruct (Hfirst j' Hj' Hc' Hb') as (_ & Hl1 & _). lia.
  - cbn [negb]. unfold ret. split; [done|].
    intros j Hj Hc.
    assert (inr false = inr (A := pystr) true) as Habs; [|done].
    apply Htrue. by exists j.
Qed.

(** ** The status endpoint *)

Lemma filter_snd_Permutation {K A} (p : A -> bool) (l l' : list (K * A)) :
  l ≡ₚ l' ->
  length (List.filter p (map snd l)) = length (List.filter p (map snd l')).
Proof.
  induction 1 as [|x l l' _ IH|x y l|l l' l'' _ IH1 _ IH2]; cbn.
  - done.
  - destruct (p x.2); cbn; by rewrite IH.
  - by destruct (p x.2), (p y.2).
  - by rewrite IH1.
Qed.

Lemma active_insert_fresh (jobs : gmap pystr JobState.t) k j :
  jobs !! k = None ->
  length (List.filter is_active (map snd (map_to_list (<[k := j]> jobs))))
  = length (List.filter is_active (map snd (map_to_list jobs)))
    + (if is_active j then 1 else 0).
Proof.
  intros Hk.
  rewrite (filter_snd_Permutation is_active _ _ (map_to_list_insert jobs k j Hk)).
  cbn. destruct (is_active j); cbn; lia.
Qed.

Lemma api_status_eq env cookies_file jobs s :
  exists checked s',
    api_status env cookies_file jobs s
    = (inr {| StatusResponse.tor_connected := checked.1;
              StatusResponse.tor_ip := checked.2;
              StatusResponse.cookies := bool_decide (cookies_file <> None);
              StatusResponse.active_jobs :=
                length (List.filter is_active (map snd (map_to_list jobs)));
              StatusResponse.total_jobs := size jobs |}, s').
Proof.
  unfold api_status, bind.
  destruct (check_tor_returns env s) as (ok & ip & s' & ->).
  by exists (ok, ip), s'.
Qed.

Lemma status_counts_eq env cookies_file jobs s :
  status_counts env cookies_file jobs s
  = Some (length (List.filter is_active (map snd (map_to_list jobs))),
          size jobs).
Proof.
  unfold status_counts.
  by destruct (api_status_eq env cookies_file jobs s) as (c & s' & ->).
Qed.

(** [GET /api/status] never fails and never counts more active jobs than
    jobs.  A job submitted under a new id adds one to both counts, and once
    its worker has returned the job is not counted as active any more,
    while it stays in the total: nothing removes a job. *)
Theorem status_counts_follow_the_job (env : Tor.Env)
    (cookies_file : option pystr) (jobs jobs1 : gmap pystr JobState.t)
    (s : Tor.State) (req : DownloadRequest.t) (uuid : pystr) (now : float)
    (job : JobState.t) (wenv : WorkerEnv) :
  jobs !! uuid = None ->
  api_download req uuid now jobs = inr (jobs1, job) ->
  let final := V3.job (_download_worker req wenv (worker_start job)).2 in
  let jobs2 := <[uuid := final]> jobs1 in
  exists active total,
    status_counts env cookies_file jobs s = Some (active, total) /\
    active ≤ total /\
    status_counts env cookies_file jobs1 s = Some (active + 1, total + 1) /\
    status_counts env cookies_file jobs2 s = Some (active, total + 1).
Proof.
  intros Hfresh Hsub. cbv zeta. unfold api_download in Hsub.
  destruct (negb _); [done|]. injection Hsub as <- <-.
  rewrite !status_counts_eq. eexists _, _. split; [done|]. split.
  { rewrite <- length_map_to_list, <- (length_map snd).
    apply filter_length_le. }
  rewrite insert_insert_eq, !active_insert_fresh by done.
  rewrite !map_size_insert_None by done.
  set (j := JobState.new uuid (DownloadRequest.query req) (lit "queued") now).
  assert (is_active j = true) as -> by done.
  pose proof (v3_worker_ends_terminal req wenv (worker_start j) I) as Hend.
  destruct (_download_worker req wenv (worker_start j)) as [[e|[]] w];
    [done|]. cbn [snd].
  assert (is_active (V3.job w) = false) as ->.
  { unfold is_active. apply bool_decide_eq_false_2.
    destruct Hend as [-> | ->]; intros Hin;
      apply elem_of_cons in Hin as [Hin|Hin]; try done;
      apply list_elem_of_singleton in Hin; done. }
  split; f_equal; f_equal; lia.
Qed.

End tor_facts.

Section tor_witnesses.
Import V3 Examples.

Lemma cached_tor_ip_is_reused_witness :
  let first := Tor.get_tor_ip tor_up true tor_start in
  first.1 = inr (strip (lit "185.220.101.7" ++ [10%N])) /\
  forall later,
    Tor.cache later = Tor.cache first.2 ->
    (Tor.clock tor_up (Tor.ticks later) - Tor.clock tor_up (Tor.ticks tor_start)
     <? float_of_Z Tor.tor_cache_ttl)%float = true ->
    let second := Tor.get_tor_ip tor_up false later in
    second.1 = inr (strip (lit "185.220.101.7" ++ [10%N])) /\
    Tor.lookups second.2 = Tor.lookups later /\
    Tor.trace second.2 = Tor.trace later /\
    Tor.cache second.2 = Tor.cache later.
Proof. apply (cached_tor_ip_is_reused tor_up tor_start). reflexivity. Defined.

Lemma status_counts_follow_the_job_witness :
  let final := V3.job (_download_worker request_one_url worker_one_ok
                         (worker_start queued_one)).2 in
  let jobs2 := <[job_one := final]> {[job_one := queued_one]} in
  exists active total,
    status_counts tor_up None ∅ tor_start = Some (active, total) /\
    active ≤ total /\
    status_counts tor_up None {[job_one := queued_one]} tor_start
      = Some (active + 1, total + 1) /\
    status_counts tor_up None jobs2 tor_start = Some (active, total + 1).
Proof.
  apply (status_counts_follow_the_job tor_up None ∅ {[job_one := queued_one]}
           tor_start request_one_url job_one 100%float queued_one
           worker_one_ok); reflexivity.
Defined.

End tor_witnesses.
(** * The search methods *)

Section search_facts.
Import V3.
Local Open Scope py_scope.

#[local] Arguments lit : simpl never.

(** ** Strings *)

Lemma starts_with_app (p t : pystr) : starts_with p (p ++ t) = true.
Proof. induction p as [|a p IH]; [done|]. cbn. by rewrite N.eqb_refl, IH. Qed.

Lemma starts_with_inv (p s : pystr) :
  starts_with p s = true -> s = p ++ drop (length p) s.
Proof.
  revert s. induction p as [|a p IH]; intros s; [done|].
  destruct s as [|b s]; [done|]. cbn.
  intros [Hab Hp]%andb_prop. apply N.eqb_eq in Hab as ->.
  f_equal. by apply IH.
Qed.

Lemma strip_prefix_inv (p s t : pystr) :
  strip_prefix p s = Some t -> s = p ++ t.
Proof.
  unfold strip_prefix. destruct (starts_with p s) eqn:Hp; [|done].
  intros [= <-]. by apply starts_with_inv.
Qed.

Lemma starts_with_app_l (n a b : pystr) :
  starts_with n a = true -> starts_with n (a ++ b) = true.
Proof.
  intros H. rewrite (starts_with_inv n a H), <- app_assoc.
  apply starts_with_app.
Qed.

Lemma contains_app_l (n a b : pystr) :
  contains n a = true -> contains n (a ++ b) = true.
Proof.
  induction a as [|c a IH].
  - rewrite contains_nil_r. destruct n; [|done]. intros _. by destruct b.
  - cbn [contains app]. intros [H|H]%orb_prop.
    + pose proof (starts_with_app_l n (c :: a) b H) as H'.
      cbn [app] in H'. by rewrite H'.
    + rewrite (IH H). apply orb_true_r.
Qed.

Lemma contains_app_r (n a b : pystr) :
  contains n b = true -> contains n (a ++ b) = true.
Proof.
  intros H. induction a as [|c a IH]; [done|].
  cbn [contains app]. rewrite IH. apply orb_true_r.
Qed.

Lemma run_inv (p : N -> bool) (s : pystr) :
  s = run p s ++ drop (length (run p s)) s /\
  Forall (fun c => p c = true) (run p s).
Proof.
  induction s as [|c s [IH1 IH2]]; [done|]. cbn.
  destruct (p c) eqn:Hc; [|done]. cbn. split; [by f_equal|by constructor].
Qed.

(** ** The patterns *)

Lemma re_findall_Forall (P : pystr -> Prop) match_at skip s :
  (forall t g n, match_at t = Some (g, n) -> P g) ->
  Forall P (re_findall match_at skip s).
Proof.
  intros Hm. revert skip. induction s as [|c s IH]; intros skip; [done|].
  cbn [re_findall]. destruct skip as [|skip]; [|apply IH].
  destruct (match_at (c :: s)) as [[g n]|] eqn:Hg; [|apply IH].
  constructor; [by eapply Hm|apply IH].
Qed.

Lemma re_search_inv {A} (match_at : pystr -> option A) s m :
  re_search match_at s = Some m -> exists t, match_at t = Some m.
Proof.
  induction s as [|c s IH]; cbn [re_search].
  - destruct (match_at []) eqn:H; [|done]. intros [= <-]. by exists [].
  - destruct (match_at (c :: s)) eqn:H; [|done].
    intros [= <-]. by exists (c :: s).
Qed.

Lemma match_watch_id_inv s g n :
  match_watch_id s = Some (g, n) ->
  length g = 11 /\ forallb is_id_char g = true.
Proof.
  unfold match_watch_id. destruct (strip_prefix _ s) as [rest|]; [|done].
  destruct (_ && _) eqn:H; [|done]. intros [= <- _].
  apply andb_prop in H as [H1 H2]. by apply Nat.eqb_eq in H1.
Qed.

Lemma match_video_url_shape s u :
  match_video_url s = Some u -> url_shape u.
Proof.
  unfold match_video_url.
  destruct (strip_prefix (lit "http") s) as [s1|] eqn:H1; [|done].
  apply strip_prefix_inv in H1.
  set (s2 := default s1 (strip_prefix (lit "s") s1)).
  assert (exists scheme, scheme ∈ [lit "http"; lit "https"] /\
                         s = scheme ++ s2) as (scheme & Hscheme & Hs2).
  { subst s2. destruct (strip_prefix (lit "s") s1) as [t|] eqn:Hs; cbn.
    - apply strip_prefix_inv in Hs. exists (lit "https").
      split; [apply list_elem_of_further, list_elem_of_here|].
      by rewrite H1, Hs.
    - exists (lit "http"). split; [apply list_elem_of_here|done]. }
  clearbody s2. clear H1 s1.
  destruct (strip_prefix (lit "://") s2) as [s3|] eqn:H3; [|done].
  apply strip_prefix_inv in H3.
  set (s4 := default s3 (strip_prefix (lit "www.") s3)).
  assert (exists www, www ∈ [[]; lit "www."] /\ s3 = www ++ s4)
    as (www & Hwww & Hs4).
  { subst s4. destruct (strip_prefix (lit "www.") s3) as [t|] eqn:Hw; cbn.
    - apply strip_prefix_inv in Hw. exists (lit "www.").
      split; [apply list_elem_of_further, list_elem_of_here|done].
    - exists []. split; [apply list_elem_of_here|done]. }
  clearbody s4.
  set (tail := match strip_prefix (lit "youtube.com/watch?v=") s4 with
               | Some t => Some t
               | None => strip_prefix (lit "youtu.be/") s4
               end).
  assert (forall s5, tail = Some s5 ->
            exists path,
              path ∈ [lit "youtube.com/watch?v="; lit "youtu.be/"] /\
              s4 = path ++ s5) as Hpath.
  { subst tail. intros s5.
    destruct (strip_prefix (lit "youtube.com/watch?v=") s4) as [t|] eqn:Ha.
    - intros [= ->]. apply strip_prefix_inv in Ha.
      exists (lit "youtube.com/watch?v=").
      split; [apply list_elem_of_here|done].
    - intros Hb. apply strip_prefix_inv in Hb.
      exists (lit "youtu.be/").
      split; [apply list_elem_of_further, list_elem_of_here|done]. }
  clearbody tail. destruct tail as [s5|]; [|done].
  destruct (Hpath s5 eq_refl) as (path & Hp & Hs5).
  destruct (run_inv (fun c => negb ((c =? 32) || (c =? 10))%N) s5)
    as [Hsplit Hrun].
  destruct (run _ s5) as [|c r] eqn:Hr; [done|].
  intros [= <-].
  exists scheme, www, path, (c :: r).
  split; [done|]. split; [done|]. split; [done|]. split; [done|]. split.
  - eapply Forall_impl; [exact Hrun|]. intros a Ha.
    apply negb_true_iff, orb_false_elim in Ha as [Ha1 Ha2].
    by apply N.eqb_neq in Ha1, Ha2.
  - set (pre := scheme ++ lit "://" ++ www ++ path).
    assert (s = pre ++ s5) as Hs.
    { subst pre. rewrite Hs2, H3, Hs4, Hs5. by rewrite <- !app_assoc. }
    transitivity (take (length (pre ++ c :: r))
                    ((pre ++ c :: r) ++ drop (length (c :: r)) s5)).
    { f_equal.
      - rewrite Hs, !length_app. cbn [length]. lia.
      - rewrite <- app_assoc, <- Hsplit. exact Hs. }
    rewrite take_app_length. subst pre. by rewrite <- !app_assoc.
Qed.

Lemma url_shape_video_link u : url_shape u -> is_video_link u = true.
Proof.
  intros (scheme & www & path & tail & _ & _ & Hp & _ & _ & ->).
  unfold is_video_link.
  assert (contains (lit "youtube.com/watch") path
          || contains (lit "youtu.be/") path = true) as H.
  { apply elem_of_cons in Hp as [->|Hp]; [done|].
    apply list_elem_of_singleton in Hp as ->. done. }
  apply orb_prop in H as [H|H]; apply orb_true_iff; [left|right];
    do 3 apply contains_app_r; by apply contains_app_l.
Qed.

End search_facts.

Section search_loops.
Import V3.
Local Open Scope py_scope.

#[local] Arguments lit : simpl never.
#[local] Arguments is_video_link : simpl never.

(** ** The loops that collect the links *)

Lemma seen_nothing (u : pystr) : u ∈ (∅ : gset pystr) <-> u ∈ @nil pystr.
Proof. rewrite elem_of_empty, elem_of_nil. tauto. Qed.

Lemma bing_links_spec max_results urls seen links :
  (Z.of_nat (length urls) < max_results)%Z ->
  NoDup urls ->
  (forall u, u ∈ seen <-> u ∈ urls) ->
  exists extra,
    bing_links max_results urls seen links = urls ++ extra /\
    NoDup (urls ++ extra) /\
    Forall (fun u => is_video_link u = true) extra /\
    sublist extra links /\
    (Z.of_nat (length (urls ++ extra)) <= max_results)%Z /\
    ((Z.of_nat (length (urls ++ extra)) < max_results)%Z ->
     forall u, u ∈ links -> is_video_link u = true -> u ∈ urls ++ extra).
Proof.
  revert urls seen. induction links as [|u links IH]; intros urls seen Hlen Hnd Hseen.
  - exists []. rewrite app_nil_r. cbn [bing_links].
    repeat split; try done; [lia|]. intros _ u Hu. by apply elem_of_nil in Hu.
  - cbn [bing_links]. destruct (is_video_link u) eqn:Hv.
    2:{ destruct (IH urls seen Hlen Hnd Hseen)
          as (extra & -> & Hnd' & Hvid & Hsub & Hmax & Hall).
        exists extra. repeat split; try done; [by apply sublist_cons|].
        intros Hlt u' [->|Hu']%elem_of_cons Hv'; [congruence|by apply Hall]. }
    destruct (decide (u ∈ seen)) as [Hin|Hnew].
    { rewrite bool_decide_eq_false_2 by (by intros H).
      destruct (IH urls seen Hlen Hnd Hseen)
        as (extra & -> & Hnd' & Hvid & Hsub & Hmax & Hall).
      exists extra. repeat split; try done; [by apply sublist_cons|].
      intros Hlt u' [->|Hu']%elem_of_cons Hv'; [|by apply Hall].
      apply elem_of_app. left. by apply Hseen. }
    rewrite bool_decide_eq_true_2 by done.
    assert (u ∉ urls) as Hnew' by (by rewrite <- Hseen).
    assert (NoDup (urls ++ [u])) as Hnd1.
    { apply NoDup_app. split; [done|]. split; [|apply NoDup_singleton].
      intros x Hx Hx'. apply list_elem_of_singleton in Hx' as ->. done. }
    destruct (Z.leb_spec max_results (Z.of_nat (length (urls ++ [u]))))
      as [Hfull|Hroom].
    + exists [u]. split; [done|]. split; [done|].
      split; [by constructor|]. split; [apply sublist_skip, sublist_nil_l|].
      rewrite length_app in *. cbn [length] in *. split; lia.
    + destruct (IH (urls ++ [u]) ({[u]} ∪ seen) Hroom Hnd1)
        as (extra & -> & Hnd' & Hvid & Hsub & Hmax & Hall).
      { intros x. rewrite elem_of_union, elem_of_singleton, elem_of_app,
          list_elem_of_singleton, Hseen. tauto. }
      exists (u :: extra). rewrite <- app_assoc in *. cbn [app] in *.
      split; [done|]. split; [done|]. split; [by constructor|].
      split; [by apply sublist_skip|]. split; [done|].
      intros Hlt u' [->|Hu']%elem_of_cons Hv'; [|by apply Hall].
      apply elem_of_app. right. apply list_elem_of_here.
Qed.

(** The loop of [_search_duckduckgo] is the loop of [_search_bing] over the
    links as it rewrites them. *)
Lemma duckduckgo_links_eq uddg max_results urls seen links :
  duckduckgo_links uddg max_results urls seen links
  = bing_links max_results urls seen (omap (duckduckgo_target uddg) links).
Proof.
  revert urls seen. induction links as [|u links IH]; intros urls seen; [done|].
  cbn [duckduckgo_links omap list_omap].
  change (if contains (lit "uddg=")
               (if starts_with (lit "//") u then lit "https:" ++ u else u)
          then uddg (if starts_with (lit "//") u then lit "https:" ++ u else u)
          else Some (if starts_with (lit "//") u then lit "https:" ++ u else u))
    with (duckduckgo_target uddg u).
  destruct (duckduckgo_target uddg u) as [u2|]; [|apply IH].
  cbn [bing_links]. destruct (is_video_link u2); cbn [andb]; [|apply IH].
  destruct (bool_decide (u2 ∉ seen)); [|apply IH].
  destruct (_ <=? _)%Z; [done|apply IH].
Qed.

Lemma ytdlp_lines_spec max_results urls lines :
  (Z.of_nat (length urls) < max_results)%Z ->
  NoDup urls ->
  Forall url_shape urls ->
  let out := ytdlp_lines max_results urls lines in
  NoDup out /\ Forall url_shape out /\
  (Z.of_nat (length out) <= max_results)%Z.
Proof.
  cbv zeta. revert urls.
  induction lines as [|line lines IH]; intros urls Hlen Hnd Hshape.
  - cbn. repeat split; try done. lia.
  - cbn [ytdlp_lines]. destruct (_ || _); [|by apply IH].
    destruct (re_search match_video_url (strip line)) as [url|] eqn:Hm;
      [|by apply IH].
    destruct (decide (url ∈ urls)) as [Hin|Hnew].
    { rewrite bool_decide_eq_true_2 by done. by apply IH. }
    rewrite bool_decide_eq_false_2 by done.
    apply re_search_inv in Hm as [t Ht]. apply match_video_url_shape in Ht.
    assert (NoDup (urls ++ [url])) as Hnd1.
    { apply NoDup_app. split; [done|]. split; [|apply NoDup_singleton].
      intros x Hx Hx'. apply list_elem_of_singleton in Hx' as ->. done. }
    assert (Forall url_shape (urls ++ [url])) as Hshape1.
    { apply Forall_app. split; [done|by constructor]. }
    destruct (Z.leb_spec max_results (Z.of_nat (length (urls ++ [url]))))
      as [Hfull|Hroom].
    + split; [done|]. split; [done|].
      rewrite length_app in *. cbn [length] in *. lia.
    + by apply IH.
Qed.

End search_loops.

Section search_theorems.
Import V3.
Local Open Scope py_scope.

#[local] Arguments lit : simpl never.
#[local] Arguments is_video_link : simpl never.

(** [_search_bing] raises only what the request raises.  Otherwise it
    returns the links of the page that contain ['youtube.com/watch'] or
    ['youtu.be/'], each once and in the order of the page, cut off at
    [max_results]: when it returns fewer than [max_results] URLs, every
    such link of the page is among them. *)
Theorem search_bing_first_distinct_links (page : pystr + pystr)
    (max_results : Z) :
  (1 <= max_results)%Z ->
  match _search_bing page max_results with
  | inl e => page = inl e
  | inr urls =>
      exists text,
        page = inr text /\
        NoDup urls /\
        Forall (fun u => is_video_link u = true) urls /\
        sublist urls (re_findall match_href 0 text) /\
        (Z.of_nat (length urls) <= max_results)%Z /\
        ((Z.of_nat (length urls) < max_results)%Z ->
         forall u,
           u ∈ re_findall match_href 0 text -> is_video_link u = true ->
           u ∈ urls)
  end.
Proof.
  intros Hmax. destruct page as [e|text]; [done|]. cbn [_search_bing].
  destruct (bing_links_spec max_results [] ∅ (re_findall match_href 0 text))
    as (extra & -> & H); [cbn; lia|constructor|apply seen_nothing|].
  by exists text.
Qed.

(** [_search_duckduckgo] raises only what the request raises.  Otherwise
    it returns distinct URLs, at most [max_results] of them, each with
    ['youtube.com/watch'] or ['youtu.be/'] in it, in the order of the page:
    they are the links of the page after the rewriting of the two slashes
    and of the [uddg] parameter, a link whose parameter cannot be read
    being left out. *)
Theorem search_duckduckgo_first_distinct_links (uddg : pystr -> option pystr)
    (page : pystr + pystr) (max_results : Z) :
  (1 <= max_results)%Z ->
  match _search_duckduckgo uddg page max_results with
  | inl e => page = inl e
  | inr urls =>
      exists text,
        page = inr text /\
        NoDup urls /\
        Forall (fun u => is_video_link u = true) urls /\
        sublist urls
          (omap (duckduckgo_target uddg) (re_findall match_href 0 text)) /\
        (Z.of_nat (length urls) <= max_results)%Z
  end.
Proof.
  intros Hmax. destruct page as [e|text]; [done|]. cbn [_search_duckduckgo].
  rewrite duckduckgo_links_eq.
  destruct (bing_links_spec max_results [] ∅
              (omap (duckduckgo_target uddg) (re_findall match_href 0 text)))
    as (extra & -> & Hnd & Hv & Hsub & Hlen & _);
    [cbn; lia|constructor|apply seen_nothing|].
  by exists text.
Qed.

(** [_search_ytdlp] never raises: it returns no URL when the tool cannot be
    run or exits with a status other than 0.  The URLs it returns are
    distinct, at most [max_results], and each is a match of the pattern: a
    scheme [http] or [https], an optional [www.], [youtube.com/watch?v=] or
    [youtu.be/], and a tail of one or more characters without a space. *)
Theorem search_ytdlp_distinct_video_urls (result : option CompletedProcess.t)
    (max_results : Z) :
  (1 <= max_results)%Z ->
  let urls := _search_ytdlp result max_results in
  NoDup urls /\
  Forall url_shape urls /\
  (Z.of_nat (length urls) <= max_results)%Z /\
  ((forall r, result = Some r -> CompletedProcess.returncode r <> 0%Z) ->
   urls = []).
Proof.
  intros Hmax. cbv zeta. unfold _search_ytdlp.
  destruct result as [r|].
  2:{ repeat split; try done; [constructor|cbn; lia]. }
  destruct (Z.eqb_spec (CompletedProcess.returncode r) 0) as [Hrc|Hrc];
    cbn [negb].
  2:{ repeat split; try done; [constructor|cbn; lia]. }
  destruct (ytdlp_lines_spec max_results []
              (split_char 10 (strip (CompletedProcess.stdout r))))
    as (Hnd & Hshape & Hlen); [cbn; lia|constructor|done|].
  repeat split; try done. intros H. by destruct (H r eq_refl).
Qed.

Lemma watch_url_video_link u : watch_url u -> is_video_link u = true.
Proof.
  intros (v & -> & _). unfold is_video_link. apply orb_true_iff. left.
  by apply contains_app_l.
Qed.

Lemma search_youtube_direct_watch_urls text max_results :
  Forall watch_url
    (map (fun v => lit "https://www.youtube.com/watch?v=" ++ v)
       (slice_to max_results (re_findall match_watch_id 0 text))).
Proof.
  apply Forall_forall. intros u Hu.
  apply list_elem_of_fmap in Hu as (v & -> & Hv).
  apply slice_to_subset in Hv.
  pose proof (re_findall_Forall
                (fun g => length g = 11 /\ forallb is_id_char g = true)
                match_watch_id 0 text match_watch_id_inv) as Hall.
  rewrite Forall_forall in Hall. destruct (Hall v Hv) as [H1 H2].
  by exists v.
Qed.

(** [_search_youtube_direct] raises only what the request raises.
    Otherwise it returns at most [max_results] URLs, each the prefix
    [https://www.youtube.com/watch?v=] followed by an id of 11 letters,
    digits, underscores or hyphens. *)
Theorem search_youtube_direct_watch_ids (page : pystr + pystr)
    (max_results : Z) :
  (0 <= max_results)%Z ->
  match _search_youtube_direct page max_results with
  | inl e => page = inl e
  | inr urls =>
      Forall watch_url urls /\
      (Z.of_nat (length urls) <= max_results)%Z
  end.
Proof.
  intros Hmax. destruct page as [e|text]; [done|].
  cbn [_search_youtube_direct]. split.
  - apply search_youtube_direct_watch_urls.
  - rewrite length_map.
    pose proof (slice_to_length max_results
                  (re_findall match_watch_id 0 text) Hmax). lia.
Qed.

Lemma search_env_of_video_links world max_results method found :
  (1 <= max_results)%Z ->
  method ∈ [search_ytdlp (search_env_of world max_results);
            search_duckduckgo (search_env_of world max_results);
            search_youtube_direct (search_env_of world max_results);
            search_bing (search_env_of world max_results)] ->
  method = inr found ->
  Forall (fun u => is_video_link u = true) found.
Proof.
  intros Hmax Hin ->.
  repeat (apply elem_of_cons in Hin as [Hin|Hin]);
    [| | | |by apply elem_of_nil in Hin]; cbn in Hin.
  - injection Hin as ->.
    unfold _search_ytdlp.
    destruct (ytdlp_result world) as [r|]; [|constructor].
    destruct (negb _); [constructor|].
    destruct (ytdlp_lines_spec max_results []
                (split_char 10 (strip (CompletedProcess.stdout r))))
      as (_ & Hshape & _); [cbn; lia|constructor|done|].
    eapply Forall_impl; [exact Hshape|]. apply url_shape_video_link.
  - unfold _search_duckduckgo in Hin.
    destruct (duckduckgo_page world) as [e|text]; [done|].
    injection Hin as ->. rewrite duckduckgo_links_eq.
    destruct (bing_links_spec max_results [] ∅
                (omap (duckduckgo_target (uddg_target world))
                   (re_findall match_href 0 text)))
      as (extra & -> & _ & Hv & _); [cbn; lia|constructor|apply seen_nothing|].
    done.
  - unfold _search_youtube_direct in Hin.
    destruct (youtube_page world) as [e|text]; [done|].
    injection Hin as ->.
    eapply Forall_impl; [apply search_youtube_direct_watch_urls|].
    apply watch_url_video_link.
  - unfold _search_bing in Hin.
    destruct (bing_page world) as [e|text]; [done|].
    injection Hin as ->.
    destruct (bing_links_spec max_results [] ∅ (re_findall match_href 0 text))
      as (extra & -> & _ & Hv & _); [cbn; lia|constructor|apply seen_nothing|].
    done.
Qed.

(** Whatever the network answers, every URL [search_youtube] returns
    contains ['youtube.com/watch'] or ['youtu.be/'], and it returns at least
    one URL and at most [max_results]. *)
Theorem search_youtube_returns_video_links {S} (world : SearchWorld)
    (max_results : Z) (s : S) (results : list pystr) (s' : S) :
  (1 <= max_results)%Z ->
  search_youtube (search_env_of world max_results) max_results s
    = (inr results, s') ->
  Forall (fun u => is_video_link u = true) results /\
  1 ≤ length results /\
  (Z.of_nat (length results) <= max_results)%Z.
Proof.
  intros Hmax. unfold search_youtube.
  destruct (first_results _) as [found|] eqn:Hfound; [|done].
  intros [= <- _].
  apply first_results_some in Hfound as (Hne & before & after & Heq & _).
  assert (Forall (fun u => is_video_link u = true) found) as Hv.
  { apply (search_env_of_video_links world max_results (inr found) found Hmax);
      [|done].
    rewrite Heq. apply elem_of_app. right. apply list_elem_of_here. }
  split; [|split].
  - apply Forall_forall. intros u Hu. apply slice_to_subset in Hu.
    rewrite Forall_forall in Hv. by apply Hv.
  - unfold slice_to. destruct (Z.leb_spec 0 max_results); [|lia].
    destruct found; [done|].
    destruct (Z.to_nat max_results) eqn:Hn; [lia|]. cbn. lia.
  - pose proof (slice_to_length max_results found ltac:(lia)). lia.
Qed.

End search_theorems.

Section search_witnesses.
Import V3.

Lemma search_bing_first_distinct_links_witness :
  match _search_bing (inr links_page) 5 with
  | inl e => inr links_page = inl e
  | inr urls =>
      exists text,
        inr links_page = inr (A := pystr) text /\
        NoDup urls /\
        Forall (fun u => is_video_link u = true) urls /\
        sublist urls (re_findall match_href 0 text) /\
        (Z.of_nat (length urls) <= 5)%Z /\
        ((Z.of_nat (length urls) < 5)%Z ->
         forall u,
           u ∈ re_findall match_href 0 text -> is_video_link u = true ->
           u ∈ urls)
  end.
Proof. apply (search_bing_first_distinct_links (inr links_page) 5). lia. Defined.

Lemma search_duckduckgo_first_distinct_links_witness :
  match _search_duckduckgo Some (inr links_page) 1 with
  | inl e => inr links_page = inl e
  | inr urls =>
      exists text,
        inr links_page = inr (A := pystr) text /\
        NoDup urls /\
        Forall (fun u => is_video_link u = true) urls /\
        sublist urls
          (omap (duckduckgo_target Some) (re_findall match_href 0 text)) /\
        (Z.of_nat (length urls) <= 1)%Z
  end.
Proof.
  apply (search_duckduckgo_first_distinct_links Some (inr links_page) 1). lia.
Defined.

Lemma search_ytdlp_distinct_video_urls_witness :
  let urls := _search_ytdlp (Some ytdlp_listing) 50 in
  NoDup urls /\
  Forall url_shape urls /\
  (Z.of_nat (length urls) <= 50)%Z /\
  ((forall r, Some ytdlp_listing = Some r ->
              CompletedProcess.returncode r <> 0%Z) ->
   urls = []).
Proof.
  apply (search_ytdlp_distinct_video_urls (Some ytdlp_listing) 50). lia.
Defined.

Lemma search_youtube_direct_watch_ids_witness :
  match _search_youtube_direct (inr youtube_results_page) 1 with
  | inl e => inr youtube_results_page = inl e
  | inr urls =>
      Forall watch_url urls /\ (Z.of_nat (length urls) <= 1)%Z
  end.
Proof.
  apply (search_youtube_direct_watch_ids (inr youtube_results_page) 1). lia.
Defined.

Lemma search_youtube_returns_video_links_witness :
  let results := [lit "https://www.youtube.com/watch?v=aaaaaaaaaaa";
                  lit "https://www.youtube.com/watch?v=bbbbbbbbbbb"] in
  Forall (fun u => is_video_link u = true) results /\
  1 ≤ length results /\
  (Z.of_nat (length results) <= 50)%Z.
Proof.
  apply (search_youtube_returns_video_links world_without_ytdlp 50 tt _ tt);
    [lia|reflexivity].
Defined.

End search_witnesses.
(** * Playlists and channels *)

Section V4_list_facts.
Local Open Scope py_scope.

#[local] Arguments lit : simpl never.

Lemma split_char_no_sep (sep : N) (s : pystr) :
  Forall (fun piece => sep ∉ piece) (split_char sep s).
Proof.
  induction s as [|c s IH]; cbn [split_char].
  - repeat constructor. apply not_elem_of_nil.
  - destruct (N.eqb_spec c sep) as [->|Hc].
    + constructor; [apply not_elem_of_nil|done].
    + destruct (split_char sep s) as [|piece pieces].
      * repeat constructor. intros H.
        apply list_elem_of_singleton in H. done.
      * apply Forall_cons in IH as [Hp Hps]. constructor; [|done].
        intros [H|H]%elem_of_cons; [done|by apply Hp].
Qed.

Lemma split_char_join (sep : N) (s : pystr) :
  join_char sep (split_char sep s) = s.
Proof.
  induction s as [|c s IH]; cbn [split_char]; [done|].
  destruct (N.eqb_spec c sep) as [->|Hc].
  - destruct (split_char sep s) as [|piece pieces] eqn:Hs.
    + by destruct s; cbn in Hs; [|destruct (N.eqb _ _), (split_char sep s)].
    + cbn [join_char app]. cbn [join_char] in IH. by rewrite IH.
  - destruct (split_char sep s) as [|piece pieces]; cbn in IH |- *.
    + by rewrite <- IH.
    + destruct pieces; cbn in IH |- *; by rewrite <- IH.
Qed.

Lemma List_filter_sublist {A} (f : A -> bool) (l : list A) :
  List.filter f l `sublist_of` l.
Proof.
  induction l as [|x l IH]; cbn; [done|].
  destruct (f x); [by apply sublist_skip|by apply sublist_cons].
Qed.

Lemma filter_map_strip (lines : list pystr) :
  map strip (List.filter (fun line => nonempty (strip line)) lines)
  = List.filter nonempty (map strip lines).
Proof.
  induction lines as [|line lines IH]; cbn; [done|].
  destruct (nonempty (strip line)); cbn; by rewrite IH.
Qed.

Lemma stripped_lines_eq (stdout : pystr) :
  V4.stripped_lines stdout
  = List.filter nonempty (map strip (split_char 10 stdout)).
Proof. unfold V4.stripped_lines. apply filter_map_strip. Qed.

Lemma slice_to_opt_sublist {A} (max_results : option Z) (l : list A) :
  V4.slice_to_opt max_results l `sublist_of` l.
Proof.
  destruct max_results as [n|]; cbn; [|done].
  unfold slice_to. destruct (0 <=? n)%Z; apply sublist_take.
Qed.

(** [get_playlist_videos] never raises: it returns no URL when the tool
    cannot be run or exits with a status other than 0.  Every URL it
    returns is not empty, neither starts nor ends with whitespace and holds
    no newline, and with a [max_results] that is not negative it returns at
    most that many.  When the tool exits with status 0, the URLs are lines
    of its output, the pieces between the newlines, each without the
    whitespace around it, in the order of the output: all the lines that
    are not blank when [max_results] is [None], and the first
    [max_results] of them otherwise. *)
Theorem playlist_urls_are_clean_lines (result : option CompletedProcess.t)
    (max_results : option Z) :
  let urls := V4.get_playlist_videos result max_results in
  Forall (fun u => u <> [] /\ strip u = u /\ (10%N ∉ u)) urls /\
  (forall n, max_results = Some n -> (0 <= n)%Z ->
             (Z.of_nat (length urls) <= n)%Z) /\
  ((forall r, result = Some r -> CompletedProcess.returncode r <> 0%Z) ->
   urls = []) /\
  (forall r,
     result = Some r -> CompletedProcess.returncode r = 0%Z ->
     let lines := split_char 10 (CompletedProcess.stdout r) in
     join_char 10 lines = CompletedProcess.stdout r /\
     urls `sublist_of` map strip lines /\
     (forall u, u ∈ urls -> exists line, line ∈ lines /\ u = strip line) /\
     (max_results = None ->
      forall line, line ∈ lines -> strip line <> [] -> strip line ∈ urls) /\
     (forall n, max_results = Some n -> (0 <= n)%Z ->
        urls = take (Z.to_nat n) (List.filter nonempty (map strip lines)))).
Proof.
  cbv zeta. unfold V4.get_playlist_videos.
  destruct result as [r|]; [|by repeat split].
  destruct (Z.eqb_spec (CompletedProcess.returncode r) 0) as [Hrc|Hrc];
    cbn [negb].
  2:{ split; [done|]. split; [done|]. split; [done|].
      intros r' [= <-] Hrc'. done. }
  assert (V4.slice_to_opt max_results
            (V4.stripped_lines (CompletedProcess.stdout r))
          `sublist_of` map strip (split_char 10 (CompletedProcess.stdout r)))
    as Hsub.
  { etrans; [apply slice_to_opt_sublist|].
    rewrite stripped_lines_eq. apply List_filter_sublist. }
  split; [|split; [|split]].
  - assert (Forall (fun u => u <> [] /\ strip u = u /\ (10%N ∉ u))
              (V4.stripped_lines (CompletedProcess.stdout r))) as Hall.
    { apply Forall_forall. intros u Hu. unfold V4.stripped_lines in Hu.
      apply list_elem_of_fmap in Hu as (line & -> & Hline).
      apply list_elem_of_In, filter_In in Hline as [Hline Hne].
      apply list_elem_of_In in Hline.
      pose proof (split_char_no_sep 10 (CompletedProcess.stdout r)) as Hsep.
      rewrite Forall_forall in Hsep. specialize (Hsep line Hline).
      split; [by destruct (strip line)|]. split; [apply strip_idem|].
      intros H. by apply strip_subset in H. }
    destruct max_results as [n|]; cbn [V4.slice_to_opt]; [|done].
    apply Forall_forall. intros u Hu. apply slice_to_subset in Hu.
    rewrite Forall_forall in Hall. by apply Hall.
  - intros n -> Hn. cbn [V4.slice_to_opt].
    pose proof (slice_to_length n
                  (V4.stripped_lines (CompletedProcess.stdout r)) Hn). lia.
  - intros H. by destruct (H r eq_refl).
  - intros r' [= <-] _. split; [apply split_char_join|].
    split; [exact Hsub|]. split; [|split].
    + intros u Hu. pose proof (elem_of_sublist _ _ _ Hu Hsub) as Hin.
      apply list_elem_of_fmap in Hin as (line & -> & Hline). by exists line.
    + intros -> line Hline Hne. cbn [V4.slice_to_opt].
      unfold V4.stripped_lines. apply list_elem_of_fmap. exists line.
      split; [done|]. apply list_elem_of_In, filter_In. split.
      * by apply list_elem_of_In.
      * by destruct (strip line).
    + intros n -> Hn. cbn [V4.slice_to_opt]. unfold slice_to.
      destruct (Z.leb_spec 0 n); [|lia]. by rewrite stripped_lines_eq.
Qed.

Lemma ends_with_inv (n s : pystr) :
  ends_with n s = true -> exists t, s = t ++ n.
Proof.
  unfold ends_with. intros H. apply starts_with_inv in H.
  exists (reverse (drop (length (reverse n)) (reverse s))).
  apply (f_equal reverse) in H.
  by rewrite reverse_involutive, reverse_app, reverse_involutive in H.
Qed.

Lemma ends_with_app (n t : pystr) : ends_with n (t ++ n) = true.
Proof. unfold ends_with. rewrite reverse_app. apply starts_with_app. Qed.

(** The channel URL [get_channel_videos] hands to the tool always contains
    ['/videos'] or ['/streams']: a URL that contains one of them is left as
    it is, any other is extended so that it ends with ['/videos'], by
    ['videos'] alone when it ends with a slash.  Normalising twice changes
    nothing more, and what [get_channel_videos] returns is what
    [get_playlist_videos] makes of the run of the tool on that URL. *)
Theorem channel_url_is_normalized (channel_url : pystr) :
  let u := V4.normalize_channel_url channel_url in
  contains (lit "/videos") u || contains (lit "/streams") u = true /\
  V4.normalize_channel_url u = u /\
  (contains (lit "/videos") channel_url
     || contains (lit "/streams") channel_url = true -> u = channel_url) /\
  (contains (lit "/videos") channel_url
     || contains (lit "/streams") channel_url = false ->
   ends_with (lit "/videos") u = true /\
   (u = channel_url ++ lit "videos" \/ u = channel_url ++ lit "/videos") /\
   (ends_with (lit "/") channel_url = true -> u = channel_url ++ lit "videos"))
  /\
  forall tool max_results,
    V4.get_channel_videos tool channel_url max_results
    = V4.get_playlist_videos (tool u) max_results.
Proof.
  cbv zeta.
  assert (contains (lit "/videos") channel_url
            || contains (lit "/streams") channel_url = true ->
          V4.normalize_channel_url channel_url = channel_url) as Hkeep.
  { intros H. unfold V4.normalize_channel_url.
    apply orb_true_iff in H as [-> | ->]; cbn [negb andb]; [done|].
    by rewrite andb_false_r. }
  assert (contains (lit "/videos") channel_url
            || contains (lit "/streams") channel_url = false ->
          ends_with (lit "/videos") (V4.normalize_channel_url channel_url)
            = true /\
          (V4.normalize_channel_url channel_url = channel_url ++ lit "videos"
           \/ V4.normalize_channel_url channel_url
              = channel_url ++ lit "/videos") /\
          (ends_with (lit "/") channel_url = true ->
           V4.normalize_channel_url channel_url = channel_url ++ lit "videos"))
    as Hadd.
  { intros H. apply orb_false_elim in H as [Hv Hs].
    unfold V4.normalize_channel_url. rewrite Hv, Hs. cbn [negb andb].
    destruct (ends_with (lit "/") channel_url) eqn:He.
    - split; [|split; [by left|done]].
      apply ends_with_inv in He as [t ->]. rewrite <- app_assoc.
      apply (ends_with_app (lit "/videos") t).
    - split; [apply ends_with_app|]. split; [by right|done]. }
  assert (contains (lit "/videos") (V4.normalize_channel_url channel_url)
          || contains (lit "/streams") (V4.normalize_channel_url channel_url)
          = true) as Hnorm.
  { destruct (contains (lit "/videos") channel_url
              || contains (lit "/streams") channel_url) eqn:H.
    - by rewrite (Hkeep eq_refl).
    - destruct (Hadd eq_refl) as (He & _).
      apply ends_with_inv in He as [t ->].
      apply orb_true_iff. left. by apply contains_app_r. }
  split; [done|]. split; [|split; [done|split; [done|done]]].
  unfold V4.normalize_channel_url at 1.
  apply orb_true_iff in Hnorm as [-> | ->]; cbn [negb andb]; [done|].
  by rewrite andb_false_r.
Qed.

End V4_list_facts.
(** * What the workers hand to the pool *)

Section launch_facts.
Import V3.
Local Open Scope py_scope.

#[local] Arguments lit : simpl never.
#[local] Arguments show : simpl never.
#[local] Arguments progress_percent : simpl never.

Lemma launches_event ev w :
  launches {| job := job w; history := history w; events := ev :: events w |}
  = launches w ++ (if is_launch ev then [ev] else []).
Proof.
  unfold launches. cbn [events]. rewrite reverse_cons, List.filter_app.
  cbn. by destruct (is_launch ev).
Qed.

Lemma launches_assign L f (E : WorkerState -> Prop) :
  hoare (fun w => launches w = L) (assign f) (fun _ w => launches w = L) E.
Proof. apply hoare_assign. by intros w Hw. Qed.

Lemma launches_quiet L ev (E : WorkerState -> Prop) :
  is_launch ev = false ->
  hoare (fun w => launches w = L) (effect ev) (fun _ w => launches w = L) E.
Proof.
  intros Hev. apply hoare_effect. intros w Hw.
  by rewrite launches_event, Hev, app_nil_r.
Qed.

Lemma launches_launch L ev (E : WorkerState -> Prop) :
  is_launch ev = true ->
  hoare (fun w => launches w = L) (effect ev)
    (fun _ w => launches w = L ++ [ev]) E.
Proof.
  intros Hev. apply hoare_effect. intros w Hw.
  by rewrite launches_event, Hev, Hw.
Qed.

Ltac keep_launches :=
  first [ apply launches_assign
        | by apply launches_quiet
        | apply hoare_ret; by intros ].

Lemma item_update_launches L req env results k i :
  stable (fun w => launches w = L) (item_update req env results k i).
Proof.
  unfold stable, item_update. destruct (results !! i) as [url|]; [|keep_launches].
  apply hoare_seq;
    [apply (stable_future_result (fun w => launches w = L))|intros r].
  apply hoare_seq; [keep_launches|intros _].
  apply hoare_seq.
  { destruct (bool_decide _); [keep_launches|].
    destruct (bool_decide _); keep_launches. }
  intros _.
  apply hoare_seq; [keep_launches|intros _].
  apply hoare_seq.
  { apply hoare_bind with (R := fun _ w => launches w = L).
    - apply hoare_get. by intros.
    - intros w. by apply hoare_ret. }
  intros j.
  apply hoare_seq; [keep_launches|intros _].
  destruct (rotation_flag env (k + 1)); [|keep_launches].
  apply hoare_seq; [keep_launches|intros _].
  apply hoare_seq; [keep_launches|intros _].
  apply hoare_seq; [destruct (rotate_tor env (k + 1)); keep_launches|intros _].
  keep_launches.
Qed.

Lemma completion_loop_launches L req env results todo k :
  stable (fun w => launches w = L) (completion_loop req env results todo k).
Proof.
  revert k. induction todo as [|i todo IH]; intros k; cbn [completion_loop].
  - by apply hoare_ret.
  - apply hoare_seq; [apply item_update_launches|intros _; apply IH].
Qed.

Lemma submit_all_launches L i results (E : WorkerState -> Prop) :
  hoare (fun w => launches w = L) (submit_all i results)
    (fun _ w =>
       launches w = L ++ imap (fun k url => Submitted (i + k) url) results) E.
Proof.
  revert L i. induction results as [|url results IH]; intros L i;
    cbn [submit_all imap].
  - apply hoare_ret. intros w Hw. by rewrite app_nil_r.
  - apply (hoare_bind _ _ _ (fun _ w => launches w = L ++ [Submitted i url]));
      [by apply launches_launch|intros _].
    apply (hoare_consequence _ _ _ _ _ _ _
             (IH (L ++ [Submitted i url]) (i + 1))); [done| |done].
    intros _ w ->. rewrite <- app_assoc. cbn [app]. rewrite Nat.add_0_r.
    do 2 f_equal. apply imap_ext. intros k x _. cbn. f_equal. lia.
Qed.

Lemma resolve_value req env w :
  match resolve req env w with
  | (inr results, w') =>
      resolved_urls req env = inr results /\ launches w' = launches w
  | (inl e, w') => launches w' = launches w
  end.
Proof.
  unfold resolve, resolved_urls, search_youtube.
  destruct (DownloadRequest.urls req) as [[|u us]|];
    [destruct (DownloadRequest.is_url req);
       [|destruct (first_results _) as [found|]]
    |
    |destruct (DownloadRequest.is_url req);
       [|destruct (first_results _) as [found|]]];
    cbn -[lit show slice_to strip]; done.
Qed.

(** The states in which the worker can end, by what it handed to the
    pool. *)
Lemma download_worker_launches req env :
  hoare (fun w => launches w = [])
    (_download_worker req env)
    (fun _ w =>
       launches w = [] \/
       exists results,
         resolved_urls req env = inr results /\
         (1 <= pool_size req <= 3)%Z /\
         launches w
         = PoolCreated (pool_size req)
           :: imap (fun k url => Submitted k url) results)
    (fun _ => False).
Proof.
  set (Q := fun w : WorkerState =>
       launches w = [] \/
       exists results,
         resolved_urls req env = inr results /\
         (1 <= pool_size req <= 3)%Z /\
         launches w
         = PoolCreated (pool_size req)
           :: imap (fun k url => Submitted k url) results).
  assert (forall f (E : WorkerState -> Prop),
            hoare Q (assign f) (fun _ => Q) E) as Hassign.
  { intros f E. apply hoare_assign. by intros w Hw. }
  assert (forall ev (E : WorkerState -> Prop),
            is_launch ev = false -> hoare Q (effect ev) (fun _ => Q) E)
    as Heffect.
  { intros ev E Hev. apply hoare_effect. intros w Hw. unfold Q.
    by rewrite launches_event, Hev, app_nil_r. }
  unfold _download_worker.
  apply (hoare_bind _ _ _ (fun _ w => launches w = []));
    [apply launches_assign|intros _].
  apply (hoare_try_except _ _ _ _ Q).
  2:{ intros e. unfold fatal. apply hoare_seq; [apply Hassign|intros _].
      apply Hassign. }
  apply (hoare_bind _ _ _ (fun _ => Q)).
  - unfold try_block_until.
    apply (hoare_bind _ _ _
             (fun results w =>
                resolved_urls req env = inr results /\ launches w = [])).
    { intros w Hw. pose proof (resolve_value req env w) as H.
      destruct (resolve req env w) as [[e|results] w1].
      - left. by rewrite H.
      - destruct H as [H1 H2]. split; [done|by rewrite H2]. }
    intros [|u us].
    + apply (hoare_bind _ _ _ (fun _ => Q)).
      { apply hoare_assign. intros w [_ Hw]. by left. }
      intros _. apply hoare_seq; [apply Hassign|intros _].
      by apply hoare_ret.
    + apply (hoare_bind _ _ _ (fun _ => Q)); [|intros _; by apply hoare_ret].
      unfold pool_block.
      intros w [Hres Hw]. unfold bind at 1.
      destruct (Z.leb_spec (pool_size req) 0) as [Hsize|Hsize].
      { left. exact Hw. }
      cbn [effect modify].
      set (w1 := {| job := job w; history := history w;
                    events := PoolCreated (pool_size req) :: events w |}).
      assert (launches w1 = [PoolCreated (pool_size req)]) as Hw1.
      { unfold w1. by rewrite launches_event, Hw. }
      pose proof (submit_all_launches _ 0 (u :: us) (fun _ => False) w1 Hw1)
        as Hsub.
      unfold bind at 1.
      destruct (submit_all 0 (u :: us) w1) as [[e|[]] w2]; [done|].
      pose proof (completion_loop_launches _ req env (u :: us)
                    (completion_order env) 0 w2 Hsub) as Hloop.
      assert (Q w2 -> forall w3, launches w3 = launches w2 -> Q w3) as Hq.
      { intros H w3 H3. unfold Q. by rewrite H3. }
      assert (Q w2) as Hq2.
      { right. exists (u :: us). split; [done|]. split.
        - unfold pool_size, MAX_CONCURRENT_DOWNLOADS in *. lia.
        - rewrite Hsub. reflexivity. }
      destruct (completion_loop req env (u :: us) (completion_order env) 0 w2)
        as [[e|[]] w3]; apply (Hq Hq2); by rewrite Hloop, Hsub.
  - intros [[]|]; [|by apply hoare_ret].
    unfold finish.
    apply hoare_seq; [apply Hassign|intros _].
    apply hoare_seq; [apply Hassign|intros _].
    apply hoare_seq.
    { apply hoare_bind with (R := fun _ => Q).
      - apply hoare_get. by intros.
      - intros w. by apply hoare_ret. }
    intros j.
    apply hoare_seq; [apply Hassign|intros _].
    destruct (save_log env); [by apply hoare_raise|by apply Heffect].
Qed.

(** The worker creates at most one pool, of [min(concurrent_downloads, 3)]
    workers and never of more than 3, and when it has created the pool it
    has submitted every resolved URL exactly once, in the order of the
    list, numbered from 0.  It hands nothing to a pool when the URLs cannot
    be resolved. *)
Theorem worker_submits_each_url_once req env (j : JobState.t) :
  let w := (_download_worker req env (worker_start j)).2 in
  launches w = [] \/
  exists results,
    resolved_urls req env = inr results /\
    (1 <= pool_size req <= 3)%Z /\
    launches w
    = PoolCreated (pool_size req)
      :: imap (fun k url => Submitted k url) results.
Proof.
  pose proof (download_worker_launches req env (worker_start j) eq_refl) as H.
  cbv zeta. by destruct (_download_worker req env (worker_start j))
    as [[e|[]] w].
Qed.

End launch_facts.

Section launch_facts4.
Import V4.
Local Open Scope py_scope.

#[local] Arguments lit : simpl never.
#[local] Arguments show : simpl never.
#[local] Arguments V4.progress_percent : simpl never.

Lemma launches4_assign L f (E : WorkerState -> Prop) :
  hoare (fun w => launches4 w = L) (assign f) (fun _ w => launches4 w = L) E.
Proof. apply hoare_assign4. by intros w Hw. Qed.

Lemma launches4_effect L ev (E : WorkerState -> Prop) :
  hoare (fun w => launches4 w = L) (effect ev)
    (fun _ w => launches4 w = L ++ [ev]) E.
Proof.
  apply hoare_effect4. intros w Hw. unfold launches4 in *. cbn [events].
  by rewrite reverse_cons, Hw.
Qed.

Lemma submit_all_launches4 L i urls (E : WorkerState -> Prop) :
  hoare (fun w => launches4 w = L) (submit_all i urls)
    (fun _ w =>
       launches4 w = L ++ imap (fun k url => Submitted (i + k) url) urls) E.
Proof.
  revert L i. induction urls as [|url urls IH]; intros L i;
    cbn [submit_all imap].
  - apply hoare_ret. intros w Hw. by rewrite app_nil_r.
  - apply (hoare_bind _ _ _ (fun _ w => launches4 w = L ++ [Submitted i url]));
      [apply launches4_effect|intros _].
    apply (hoare_consequence _ _ _ _ _ _ _
             (IH (L ++ [Submitted i url]) (i + 1))); [done| |done].
    intros _ w ->. rewrite <- app_assoc. cbn [app]. rewrite Nat.add_0_r.
    do 2 f_equal. apply imap_ext. intros k x _. cbn. f_equal. lia.
Qed.

Lemma item_update_launches4 L env audio video transcripts i url
    (E : WorkerState -> Prop) :
  hoare (fun w => launches4 w = L)
    (item_update env audio video transcripts i url)
    (fun _ w => launches4 w = L) E.
Proof.
  unfold item_update.
  apply hoare_seq; [apply launches4_assign|intros _].
  apply hoare_seq; [destruct (bool_decide _); apply launches4_assign|intros _].
  apply hoare_seq.
  { apply hoare_bind with (R := fun _ w => launches4 w = L).
    - apply hoare_get. by intros.
    - intros w. by apply hoare_ret. }
  intros j.
  apply hoare_seq; [apply launches4_assign|intros _]. apply launches4_assign.
Qed.

Lemma result_loop_launches4 L env audio video transcripts i urls
    (E : WorkerState -> Prop) :
  hoare (fun w => launches4 w = L)
    (result_loop env audio video transcripts i urls)
    (fun _ w => launches4 w = L) E.
Proof.
  revert i. induction urls as [|url urls IH]; intros i; cbn [result_loop].
  - by apply hoare_ret.
  - apply hoare_seq; [apply item_update_launches4|intros _; apply IH].
Qed.

(** The states in which the job can end, by what it handed to the pool. *)
Lemma process_download_job_launches env audio video transcripts concurrent
    urls :
  hoare (fun w => launches4 w = [])
    (process_download_job env audio video transcripts concurrent urls)
    (fun _ w =>
       (0 < pool_size env concurrent)%Z /\
       launches4 w
       = PoolCreated (pool_size env concurrent)
         :: imap (fun k url => Submitted k url) urls)
    (fun w => launches4 w = []).
Proof.
  set (done := fun w : WorkerState =>
         (0 < pool_size env concurrent)%Z /\
         launches4 w
         = PoolCreated (pool_size env concurrent)
           :: imap (fun k url => Submitted k url) urls).
  assert (forall f (E : WorkerState -> Prop),
            hoare done (assign f) (fun _ => done) E) as Hassign.
  { intros f E. apply hoare_assign4. by intros w Hw. }
  apply (hoare_bind (fun w => launches4 w = []) _ _ (fun _ => done)
           (fun _ => done) (fun w => launches4 w = [])).
  - unfold job_until.
    apply hoare_seq; [apply launches4_assign|intros _].
    apply hoare_seq; [apply launches4_assign|intros _].
    apply hoare_seq;
      [destruct (make_dirs env); [by apply hoare_raise|by apply hoare_ret]
      |intros _].
    apply hoare_seq; [apply launches4_assign|intros _].
    apply hoare_seq; [apply launches4_assign|intros _].
    apply hoare_seq; [apply launches4_assign|intros _].
    apply hoare_seq; [apply launches4_assign|intros _].
    destruct (Z.leb_spec (pool_size env concurrent) 0) as [Hsize|Hsize].
    { intros w Hw. exact Hw. }
    apply (hoare_bind _ _ _
             (fun _ w => launches4 w = [PoolCreated (pool_size env concurrent)]));
      [apply (launches4_effect [])|intros _].
    apply (hoare_bind _ _ _
             (fun _ w =>
                launches4 w
                = [PoolCreated (pool_size env concurrent)]
                  ++ imap (fun k url => Submitted (0 + k) url) urls));
      [apply submit_all_launches4|intros _].
    apply (hoare_consequence _ _ _ _ _ _ _
             (result_loop_launches4
                ([PoolCreated (pool_size env concurrent)]
                 ++ imap (fun k url => Submitted (0 + k) url) urls)
                env audio video transcripts 0 (take (length urls) urls)
                (fun w => launches4 w = []))); [done| |done].
    intros _ w Hw. by split.
  - intros _.
    apply hoare_seq; [apply Hassign|intros _].
    apply hoare_seq.
    { apply hoare_bind with (R := fun _ => done).
      - apply hoare_get. by intros.
      - intros w. by apply hoare_ret. }
    intros j'.
    apply hoare_seq; [apply Hassign|intros _]. apply Hassign.
Qed.

(** [process_download_job] raises only before it creates the pool, when a
    directory cannot be made or the pool size is not positive, and then it
    has submitted nothing.  When it returns it has created one pool, of
    [concurrent] workers or of Python's default for [None], and has
    submitted every URL exactly once, in the order of the list, numbered
    from 0. *)
Theorem job_submits_each_url_once env audio video transcripts concurrent urls
    (j : Job.t) :
  match process_download_job env audio video transcripts concurrent urls
          (worker_start j) with
  | (inr _, w) =>
      (0 < pool_size env concurrent)%Z /\
      launches4 w
      = PoolCreated (pool_size env concurrent)
        :: imap (fun k url => Submitted k url) urls
  | (inl _, w) => launches4 w = []
  end.
Proof.
  pose proof (process_download_job_launches env audio video transcripts
                concurrent urls (worker_start j) eq_refl) as H.
  by destruct (process_download_job env audio video transcripts concurrent
                 urls (worker_start j)) as [[e|[]] w].
Qed.

End launch_facts4.
(** * The worker pool *)

Section pool_facts.

(** Any calls can run at once in a pool that has a worker for each. *)
Lemma running_calls_reachable (m : Z) (calls : list nat) :
  (Z.of_nat (length calls) <= m)%Z -> pool_reachable m (running_calls m calls).
Proof.
  induction calls as [|i calls IH]; intros Hm.
  - apply pool_reachable_new.
  - cbn [length] in Hm.
    set (submitted := {| max_workers := m; queued := [i]; running := calls;
                         finished := [] |}).
    apply (pool_reachable_step m submitted).
    + apply (pool_reachable_step m (running_calls m calls));
        [apply IH; lia|apply (pool_submit (running_calls m calls) i)].
    + apply (pool_start submitted i []); cbn; [done|lia].
Qed.

(** The pool the worker of the Tor-backed engine creates. *)
Lemma v3_worker_pool_size req env j m :
  V3.PoolCreated m
    ∈ V3.events (V3._download_worker req env (V3.worker_start j)).2 ->
  m = V3.pool_size req /\ (1 <= m <= 3)%Z.
Proof.
  intros Hin.
  pose proof (download_worker_launches req env (V3.worker_start j) eq_refl)
    as H.
  destruct (V3._download_worker req env (V3.worker_start j)) as [[e|[]] w];
    [done|]. cbn [snd] in Hin.
  assert (V3.PoolCreated m ∈ launches w) as Hl.
  { unfold launches. apply list_elem_of_In, filter_In. split; [|done].
    apply list_elem_of_In. by apply elem_of_reverse. }
  destruct H as [H|(results & _ & Hsize & H)]; rewrite H in Hl.
  - by apply elem_of_nil in Hl.
  - apply elem_of_cons in Hl as [Hl|Hl].
    + injection Hl as ->. done.
    + apply elem_of_lookup_imap in Hl as (k & url & Hl & _). discriminate Hl.
Qed.

(** The pool the job of the engine without Tor creates. *)
Lemma v4_job_pool_size env audio video transcripts concurrent urls j m :
  V4.PoolCreated m
    ∈ V4.events (V4.process_download_job env audio video transcripts
                   concurrent urls (V4.worker_start j)).2 ->
  m = V4.pool_size env concurrent /\ (1 <= m)%Z.
Proof.
  intros Hin.
  pose proof (process_download_job_launches env audio video transcripts
                concurrent urls (V4.worker_start j) eq_refl) as H.
  destruct (V4.process_download_job env audio video transcripts concurrent
              urls (V4.worker_start j)) as [[e|[]] w]; cbn [snd] in Hin.
  - apply elem_of_reverse in Hin. fold (launches4 w) in Hin. rewrite H in Hin.
    by apply elem_of_nil in Hin.
  - destruct H as [Hsize H].
    apply elem_of_reverse in Hin. fold (launches4 w) in Hin. rewrite H in Hin.
    apply elem_of_cons in Hin as [Hin|Hin].
    + injection Hin as ->. split; [done|lia].
    + apply elem_of_lookup_imap in Hin as (k & url & Hin & _).
      discriminate Hin.
Qed.

(** C6: the only pool the worker of the Tor-backed engine creates has
    [min(requested, 3)] workers, between 1 and 3, and an executor of that
    size never runs more downloads than that at once, whatever the request
    asks for.  The only pool the job of the engine without Tor creates has
    as many workers as the request asks for, or Python's default when the
    request says [null], and is bounded by that number only.  An executor
    can run as many calls at once as it has workers. *)
Theorem pool_is_bounded_by_its_size :
  (forall req env j m p,
     V3.PoolCreated m
       ∈ V3.events (V3._download_worker req env (V3.worker_start j)).2 ->
     pool_reachable m p ->
     m = Z.min (V3.DownloadRequest.concurrent_downloads req) 3 /\
     (1 <= m <= 3)%Z /\
     (Z.of_nat (length (running p))
        <= Z.min (V3.DownloadRequest.concurrent_downloads req) 3)%Z /\
     (Z.of_nat (length (running p)) <= 3)%Z)
  /\
  (forall env audio video transcripts concurrent urls j m p,
     V4.PoolCreated m
       ∈ V4.events (V4.process_download_job env audio video transcripts
                      concurrent urls (V4.worker_start j)).2 ->
     pool_reachable m p ->
     m = match concurrent with
         | Some requested => requested
         | None => V4.default_max_workers env
         end /\
     (1 <= m)%Z /\
     (Z.of_nat (length (running p)) <= m)%Z)
  /\
  (forall m calls,
     (Z.of_nat (length calls) <= m)%Z ->
     pool_reachable m (running_calls m calls)).
Proof.
  split; [|split; [|apply running_calls_reachable]].
  - intros req env j m p Hcreated Hp.
    apply v3_worker_pool_size in Hcreated as [-> Hsize].
    apply pool_reachable_running in Hp as [_ Hp].
    unfold V3.pool_size, V3.MAX_CONCURRENT_DOWNLOADS in *.
    split; [done|]. split; [done|]. lia.
  - intros env audio video transcripts concurrent urls j m p Hcreated Hp.
    apply v4_job_pool_size in Hcreated as [-> Hsize].
    apply pool_reachable_running in Hp as [_ Hp].
    split; [done|]. split; [done|]. lia.
Qed.

End pool_facts.

Section pool_instances.
Import Examples.

Lemma pool_is_bounded_by_its_size_witness :
  (2%Z = Z.min (V3.DownloadRequest.concurrent_downloads request_five) 3 /\
   (1 <= 2 <= 3)%Z /\
   (Z.of_nat (length (running (running_calls 2 [1%nat; 0%nat])))
      <= Z.min (V3.DownloadRequest.concurrent_downloads request_five) 3)%Z /\
   (Z.of_nat (length (running (running_calls 2 [1%nat; 0%nat]))) <= 3)%Z)
  /\
  (8%Z = V4.default_max_workers worker_ok4 /\
   (1 <= 8)%Z /\
   (Z.of_nat (length (running (four_running 8))) <= 8)%Z).
Proof.
  destruct pool_is_bounded_by_its_size as (H3 & H4 & _).
  split.
  - apply (H3 request_five worker_five_ok queued_five 2%Z
             (running_calls 2 [1; 0])).
    + vm_compute. apply list_elem_of_In. cbn. tauto.
    + apply running_calls_reachable. cbn. lia.
  - apply (H4 worker_ok4 true false false None five_urls
             (V4.queued_job job_five (lit "five videos") five_urls) 8%Z
             (four_running 8)).
    + vm_compute. apply list_elem_of_In. cbn. tauto.
    + apply (running_calls_reachable 8 [3; 2; 1; 0]). cbn. lia.
Defined.

(** The engine without Tor, asked for ten concurrent downloads of five
    URLs, creates a pool of ten workers, which can run four of the
    downloads at once: more than [min(10, 3)]. *)
Lemma pool_without_cap_exceeds_three :
  V4.PoolCreated 10
    ∈ V4.events (V4.process_download_job worker_ok4 true false false
                   (Some 10%Z) five_urls
                   (V4.worker_start
                      (V4.queued_job job_five (lit "five videos")
                         five_urls))).2 /\
  pool_reachable 10 (four_running 10) /\
  ~ (Z.of_nat (length (running (four_running 10))) <= Z.min 10 3)%Z.
Proof.
  split; [vm_compute; apply list_elem_of_In; cbn; tauto|].
  split; [apply (running_calls_reachable 10 [3; 2; 1; 0]); cbn; lia|].
  cbn. lia.
Qed.

End pool_instances.
